(** * Risk-Engineering notebooks: Monte Carlo simulation and integration

    A shallow embedding of the two computational notebooks
    [monte-carlo-hoop-strength.ipynb] and [monte-carlo-integration.ipynb].

    - Python [float] and NumPy [float64] values are IEEE-754 binary64
      numbers: the kernel's primitive floats.  The arithmetic of the cells
      is written once over an interface [Arith] and read twice: at
      [float] (what the interpreter computes, bit for bit) and at [R]
      (the arithmetic the notebooks' formulas are stated in).
    - The pseudo-random generator is explicit state: every sampling call
      takes a generator state and returns the draw and the next state.
      SciPy and NumPy samplers are parameters of the sections.
    - SymPy's [integrate] is a parameter returning an antiderivative. *)

From Stdlib Require Import List ZArith QArith Qreals Floats Reals Lra Lia Bool.
From Stdlib Require Import Permutation.
Import ListNotations.

Set Warnings "-inexact-float".

(** ** Python results *)

(** [ZeroDivisionError] is what a division of the cells can raise;
    [ValueError] is how Python rejects an invalid argument. *)
Inductive py_exn : Set :=
| ZeroDivisionError
| ValueError.

Inductive result (A : Type) : Type :=
| Ok (a : A)
| Raise (e : py_exn).

Arguments Ok {A} a.
Arguments Raise {A} e.

(** ** The arithmetic interface *)

(** [of_int] is the conversion of a Python [int] in mixed arithmetic
    ([P * radius], [float(N)]); [div] is NumPy's IEEE division, which
    never raises; [gtb x y] is [x > y]; [is_zero y] is [y == 0.0]. *)
Class Arith (T : Type) : Type := {
  of_int : Z -> T;
  add : T -> T -> T;
  mul : T -> T -> T;
  div : T -> T -> T;
  gtb : T -> T -> bool;
  is_zero : T -> bool
}.

(** A decimal literal such as [0.05]: the quotient of two exactly
    converted integers, which in binary64 is the double nearest to it. *)
Definition lit {T : Type} `{Arith T} (q : Q) : T :=
  div (of_int (Qnum q)) (of_int (Zpos (Qden q))).

(** Python's true division on [float] operands: a zero divisor raises. *)
Definition py_truediv {T : Type} `{Arith T} (x y : T) : result T :=
  if is_zero y then Raise ZeroDivisionError else Ok (div x y).

(** *** binary64 *)

(** [float(n)] for an integer [n]: rounding to nearest, ties to even.
    (CPython raises [OverflowError] from 2^1024 on, where this conversion
    gives an infinity; no trial count gets there.) *)
Definition float_of_Z (n : Z) : float :=
  SF2Prim (binary_normalize prec emax n 0 false).

#[global] Instance binary64 : Arith float := {
  of_int := float_of_Z;
  add := PrimFloat.add;
  mul := PrimFloat.mul;
  div := PrimFloat.div;
  gtb := fun x y => PrimFloat.ltb y x;
  is_zero := fun y => PrimFloat.eqb y 0%float
}.

(** *** The reals *)

Definition Rgtb (x y : R) : bool := if Rlt_dec y x then true else false.
Definition Rzerob (y : R) : bool := if Req_dec_T y 0%R then true else false.

#[global] Instance ideal : Arith R := {
  of_int := IZR;
  add := Rplus;
  mul := Rmult;
  div := Rdiv;
  gtb := Rgtb;
  is_zero := Rzerob
}.

(** ** Arrays *)

(** [a[i] = v] and [a[i]] on a one-dimensional array; the loops below use
    them with [i] in [range(len(a))] only. *)
Fixpoint set_item {T : Type} (a : list T) (i : nat) (v : T) : list T :=
  match a, i with
  | [], _ => []
  | _ :: a', O => v :: a'
  | x :: a', S i' => x :: set_item a' i' v
  end.

Definition get_item {T : Type} `{Arith T} (a : list T) (i : nat) : T :=
  nth i a (of_int 0%Z).

(** [numpy.empty(N)]: [N] cells, whose initial content nothing reads. *)
Definition numpy_empty {T : Type} `{Arith T} (N : nat) : list T :=
  repeat (of_int 0%Z) N.

(** [(b).sum()] over a boolean vector: the number of [True] items. *)
Definition sum_bool (b : list bool) : Z :=
  fold_left (fun (acc : Z) (x : bool) => if x then (acc + 1)%Z else acc) b 0%Z.

(** ** Hoop strength: [monte-carlo-hoop-strength.ipynb] *)

Section HoopStrength.
Context {T : Type} `{Arith T}.

(** [scipy.stats.norm(loc, scale)], a frozen distribution. *)
Record norm : Type := scipy_stats_norm { loc : T; scale : T }.

Variable RNG : Type.
(** [d.rvs()] and [d.rvs(N)]. *)
Variable rvs : norm -> RNG -> T * RNG.
Variable rvs_n : norm -> nat -> RNG -> list T * RNG.

Definition radius_dist : norm :=
  scipy_stats_norm (of_int 60%Z) (mul (of_int 60%Z) (lit 0.05%Q)).
Definition W_dist : norm :=
  scipy_stats_norm (of_int 4%Z) (mul (of_int 4%Z) (lit 0.05%Q)).
Definition yield_dist : norm :=
  scipy_stats_norm (of_int 200%Z) (mul (of_int 200%Z) (lit 0.1%Q)).

Definition calculate_stress (g : RNG) : T * RNG :=
  let P := 10%Z in
  let (radius, g1) := rvs radius_dist g in
  let (W, g2) := rvs W_dist g1 in
  (div (mul (of_int P) radius) W, g2).

Definition calculate_yield_strength (g : RNG) : T * RNG :=
  rvs yield_dist g.

(** The variables of the simulation cell, and the generator. *)
Record sim : Type := mk_sim {
  failures : Z;
  stresses : list T;
  yield_strengths : list T;
  gen : RNG
}.

(** The body of [for i in range(N)]. *)
Definition trial (st : sim) (i : nat) : sim :=
  let (s, g1) := calculate_stress (gen st) in
  let stresses' := set_item (stresses st) i s in
  let (y, g2) := calculate_yield_strength g1 in
  let yield_strengths' := set_item (yield_strengths st) i y in
  let failures' :=
    if gtb (get_item stresses' i) (get_item yield_strengths' i)
    then (failures st + 1)%Z else failures st in
  mk_sim failures' stresses' yield_strengths' g2.

Definition run_simulation (N : nat) (g : RNG) : sim :=
  fold_left trial (seq 0 N) (mk_sim 0%Z (numpy_empty N) (numpy_empty N) g).

(** [failures / float(N)] *)
Definition summarize (failures : Z) (N : nat) : result T :=
  py_truediv (of_int failures) (of_int (Z.of_nat N)).

Definition failure_probability (N : nat) (g : RNG) : result T :=
  summarize (failures (run_simulation N g)) N.

(** The vectorized cell. [P * radius / W] and [>] act item by item on
    vectors of one length; the quotient of a NumPy integer by a float
    follows IEEE and does not raise. *)
Definition run_simulation_vectorized (N : nat) (g : RNG) : T * RNG :=
  let P := 10%Z in
  let (radius, g1) := rvs_n radius_dist N g in
  let (W, g2) := rvs_n W_dist N g1 in
  let (yield_strength, g3) := rvs_n yield_dist N g2 in
  let stress :=
    map (fun rw => div (fst rw) (snd rw))
        (combine (map (mul (of_int P)) radius) W) in
  let exceeds :=
    map (fun sy => gtb (fst sy) (snd sy)) (combine stress yield_strength) in
  (div (of_int (sum_bool exceeds)) (of_int (Z.of_nat N)), g3).

(** *** What the loop has drawn *)

(** The (stress, yield strength) pairs of [N] successive trials. *)
Fixpoint trials (N : nat) (g : RNG) : list (T * T) * RNG :=
  match N with
  | O => ([], g)
  | S N' =>
      let (s, g1) := calculate_stress g in
      let (y, g2) := calculate_yield_strength g1 in
      let (rest, g3) := trials N' g2 in
      ((s, y) :: rest, g3)
  end.

(** The raw draws of [N] successive trials: radius, wall thickness,
    yield strength. *)
Fixpoint samples (N : nat) (g : RNG) : list (T * T * T) * RNG :=
  match N with
  | O => ([], g)
  | S N' =>
      let (radius, g1) := rvs radius_dist g in
      let (W, g2) := rvs W_dist g1 in
      let (y, g3) := rvs yield_dist g2 in
      let (rest, g4) := samples N' g3 in
      ((radius, W, y) :: rest, g4)
  end.

(** The stress and yield strength of one trial from its raw draws. *)
Definition trial_of_sample (rwy : T * T * T) : T * T :=
  let '(radius, W, y) := rwy in
  (div (mul (of_int 10%Z) radius) W, y).

(** The number of pairs whose stress strictly exceeds the yield strength. *)
Definition count_failures (l : list (T * T)) : Z :=
  Z.of_nat (length (filter (fun sy => gtb (fst sy) (snd sy)) l)).

End HoopStrength.

Arguments norm T : clear implicits.
Arguments sim T RNG : clear implicits.
Arguments mk_sim {T RNG} failures stresses yield_strengths gen.
Arguments failures {T RNG} s.
Arguments stresses {T RNG} s.
Arguments yield_strengths {T RNG} s.
Arguments gen {T RNG} s.

(** ** Numerical integration: [monte-carlo-integration.ipynb], sampling cells *)

Section Integration.
Context {T : Type} `{Arith T}.

Variable RNG : Type.
(** [numpy.random.uniform(low, high)] *)
Variable uniform : T -> T -> RNG -> T * RNG.
(** [x**n], [numpy.sin] and [numpy.cos], as the platform computes them. *)
Variable pow : T -> Z -> T.
Variable numpy_sin numpy_cos : T -> T.

(** The three integrands, as the cells write them. *)
Definition integrand_1 (x : T) : T := pow x 2.
Definition integrand_2 (x : T) : T :=
  add (pow x 2) (mul (mul (of_int 4%Z) x) (numpy_sin x)).
Definition integrand_3 (x y : T) : T :=
  add (numpy_cos (pow x 4)) (mul (mul (of_int 3%Z) y) y).

(** First integral.  [x] and [accum] are Python floats. *)
Definition first_body (st : T * RNG) (i : nat) : T * RNG :=
  let (accum, g) := st in
  let (x, g1) := uniform (of_int 1%Z) (of_int 5%Z) g in
  (add accum (integrand_1 x), g1).

Definition first_monte_carlo (N : nat) (g : RNG) : result T * RNG :=
  let (accum, g1) := fold_left first_body (seq 0 N) (of_int 0%Z, g) in
  let measure := (5 - 1)%Z in
  (py_truediv (mul (of_int measure) accum) (of_int (Z.of_nat N)), g1).

(** The value of [accum] in the second and third cells: the Python
    [int] it starts as, or the NumPy scalar that [accum += ...] makes
    it ([numpy.sin] and [numpy.cos] return NumPy scalars, and a sum with
    one is one). *)
Inductive accum_value : Type :=
| python_int (n : Z)
| numpy_float64 (x : T).

(** The number that takes part in a sum. *)
Definition as_float (a : accum_value) : T :=
  match a with
  | python_int n => of_int n
  | numpy_float64 x => x
  end.

(** [measure * accum / float(N)]: between a Python [int] and a [float]
    the division is Python's, which raises on a zero divisor; on a
    NumPy scalar it is NumPy's, which does not. *)
Definition scaled_mean (measure : Z) (accum : accum_value) (N : nat)
  : result T :=
  match accum with
  | python_int n => py_truediv (of_int (measure * n)) (of_int (Z.of_nat N))
  | numpy_float64 a =>
      Ok (div (mul (of_int measure) a) (of_int (Z.of_nat N)))
  end.

(** Second integral. *)
Definition second_body (st : accum_value * RNG) (i : nat)
  : accum_value * RNG :=
  let (accum, g) := st in
  let (x, g1) := uniform (of_int 2%Z) (of_int 3%Z) g in
  (numpy_float64 (add (as_float accum) (integrand_2 x)), g1).

Definition second_monte_carlo (N : nat) (g : RNG) : result T * RNG :=
  let (accum, g1) := fold_left second_body (seq 0 N) (python_int 0, g) in
  let measure := (3 - 2)%Z in
  (scaled_mean measure accum N, g1).

(** The 2D integral. *)
Definition third_body (st : accum_value * RNG) (i : nat)
  : accum_value * RNG :=
  let (accum, g) := st in
  let (x, g1) := uniform (of_int 4%Z) (of_int 6%Z) g in
  let (y, g2) := uniform (of_int 0%Z) (of_int 1%Z) g1 in
  (numpy_float64 (add (as_float accum) (integrand_3 x y)), g2).

Definition third_monte_carlo (N : nat) (g : RNG) : result T * RNG :=
  let (accum, g1) := fold_left third_body (seq 0 N) (python_int 0, g) in
  let measure := (2 * 1)%Z in
  (scaled_mean measure accum N, g1).

(** *** What the loops have drawn *)

(** [N] successive draws, each uniform between [a] and [b]. *)
Fixpoint draws (a b : T) (N : nat) (g : RNG) : list T * RNG :=
  match N with
  | O => ([], g)
  | S N' =>
      let (x, g1) := uniform a b g in
      let (rest, g2) := draws a b N' g1 in
      (x :: rest, g2)
  end.

(** [N] successive points: [x] between [ax] and [bx], then [y]
    between [ay] and [by], by two calls of the sampler. *)
Fixpoint draws2 (ax bx ay by_ : T) (N : nat) (g : RNG)
  : list (T * T) * RNG :=
  match N with
  | O => ([], g)
  | S N' =>
      let (x, g1) := uniform ax bx g in
      let (y, g2) := uniform ay by_ g1 in
      let (rest, g3) := draws2 ax bx ay by_ N' g2 in
      ((x, y) :: rest, g3)
  end.

(** The running sum [accum], from the integer [0]. *)
Definition accumulate (l : list T) : T := fold_left add l (of_int 0%Z).

(** The sample-mean estimator in the specification's words: the
    measure of the region times (the accumulated sum over N). *)
Definition sample_mean_estimate (measure : Z) (values : list T) (N : nat)
  : T :=
  mul (of_int measure) (div (accumulate values) (of_int (Z.of_nat N))).

End Integration.

(** [N = 100000], the sample count of the three sampling cells. *)
Definition N_samples : nat := Z.to_nat 100000.

(** ** A generator that replays recorded draws *)

(** The state is the list of draws still to come; an exhausted tape
    answers with the distribution's location (the lower bound). *)
Definition replay {T : Type} (d : T) (t : list T) : T * list T :=
  match t with
  | [] => (d, [])
  | z :: t' => (z, t')
  end.

Definition replay_rvs {T : Type} (d : norm T) (t : list T) : T * list T :=
  replay (loc d) t.

Fixpoint replay_rvs_n {T : Type} (d : norm T) (n : nat) (t : list T)
  : list T * list T :=
  match n with
  | O => ([], t)
  | S n' =>
      let (z, t1) := replay_rvs d t in
      let (zs, t2) := replay_rvs_n d n' t1 in
      (z :: zs, t2)
  end.

Definition replay_uniform {T : Type} (low high : T) (t : list T)
  : T * list T :=
  replay low t.

(** ** Numerical integration: the analytical cells *)

Section Analytical.
Local Open Scope R_scope.

(** [sympy.integrate(e)] on an expression of one symbol, and
    [sympy.integrate(e, x)] on an expression of [x] and [y]: the
    antiderivative SymPy returns.  [e.subs(x, v)] is application. *)
Variable integrate : (R -> R) -> (R -> R).
Variable integrate_x : (R -> R -> R) -> (R -> R -> R).

Definition expr_1 (x : R) : R := x ^ 2.
Definition expr_2 (x : R) : R := x ^ 2 + 4 * x * sin x.
Definition expr_3 (x y : R) : R := cos (x ^ 4) + 3 * y ^ 2.

Definition first_analytical : R :=
  let integral := integrate expr_1 in
  integral 5 - integral 1.

Definition second_analytical : R :=
  let d1 := integrate expr_2 in
  let sol := d1 3 - d1 2 in
  sol.

Definition third_analytical : R :=
  let d1 := integrate_x expr_3 in
  let d2 := integrate (fun y => d1 6 y - d1 4 y) in
  let sol := d2 1 - d2 0 in
  sol.

End Analytical.

(** What [sympy.integrate] promises of its result [F] for an integrand
    [f], between the bounds that are substituted: [F' = f]. *)
Definition antiderivative_on (f F : R -> R) (a b : R) : Prop :=
  forall x : R, (a <= x <= b)%R -> derivable_pt_lim F x (f x).

(** ** Certified enclosures of real numbers *)

(** The numeric values of the analytical cells involve [sin] and [cos];
    they are bounded by fixed-point enclosures: [x] lies in
    [[lo / 2^100, hi / 2^100]]. *)
Definition fix_scale : Z := 2 ^ 100.

Record enclosure : Set := mk_enclosure { lo : Z; hi : Z }.

Definition encloses (I : enclosure) (x : R) : Prop :=
  (IZR (lo I) <= x * IZR fix_scale <= IZR (hi I))%R.

(** Quotient rounded up. *)
Definition cdiv (a b : Z) : Z := (- ((- a) / b))%Z.

Definition e_add (I J : enclosure) : enclosure :=
  mk_enclosure (lo I + lo J) (hi I + hi J).

Definition e_sub (I J : enclosure) : enclosure :=
  mk_enclosure (lo I - hi J) (hi I - lo J).

Definition e_scale (k : Z) (I : enclosure) : enclosure :=
  if (0 <=? k)%Z then mk_enclosure (k * lo I) (k * hi I)
  else mk_enclosure (k * hi I) (k * lo I).

Definition e_mul (I J : enclosure) : enclosure :=
  let p1 := (lo I * lo J)%Z in
  let p2 := (lo I * hi J)%Z in
  let p3 := (hi I * lo J)%Z in
  let p4 := (hi I * hi J)%Z in
  mk_enclosure (Z.min (Z.min p1 p2) (Z.min p3 p4) / fix_scale)
               (cdiv (Z.max (Z.max p1 p2) (Z.max p3 p4)) fix_scale).

(** The enclosure of the rationals between [l] and [h]. *)
Definition e_between (l h : Q) : enclosure :=
  mk_enclosure (Qnum l * fix_scale / Zpos (Qden l))
               (cdiv (Qnum h * fix_scale) (Zpos (Qden h))).

Definition e_of_Q (q : Q) : enclosure := e_between q q.

(** Partial sums of the sine and cosine series at a rational. *)
Fixpoint Pfact (n : nat) : positive :=
  match n with
  | O => 1%positive
  | S n' => (Pos.of_succ_nat n' * Pfact n')%positive
  end.

Fixpoint Qpow (a : Q) (n : nat) : Q :=
  match n with
  | O => 1%Q
  | S n' => Qred (a * Qpow a n')
  end.

Fixpoint Qsum (f : nat -> Q) (n : nat) : Q :=
  match n with
  | O => f O
  | S n' => Qred (Qsum f n' + f (S n'))
  end.

Definition sin_term_Q (a : Q) (i : nat) : Q :=
  (Qpow (-1) i * (Qpow a (2 * i + 1) * (1 # Pfact (2 * i + 1))))%Q.

Definition cos_term_Q (a : Q) (i : nat) : Q :=
  (Qpow (-1) i * (Qpow a (2 * i) * (1 # Pfact (2 * i))))%Q.

Definition e_sin (a : Q) (n : nat) : enclosure :=
  e_between (Qsum (sin_term_Q a) (2 * n + 1))
            (Qsum (sin_term_Q a) (2 * (n + 1))).

Definition e_cos (a : Q) (n : nat) : enclosure :=
  e_between (Qsum (cos_term_Q a) (2 * n + 1))
            (Qsum (cos_term_Q a) (2 * (n + 1))).

(** From enclosures of [sin x] and [cos x] to those of [sin (2x)] and
    [cos (2x)]. *)
Definition e_double (sc : enclosure * enclosure) : enclosure * enclosure :=
  let (s, c) := sc in
  (e_scale 2 (e_mul s c), e_sub (e_mul c c) (e_mul s s)).

(** [I] lies strictly within [eps] of [c]. *)
Definition e_within (I : enclosure) (c eps : Q) : bool :=
  negb (Qle_bool (inject_Z (lo I)) ((c - eps) * inject_Z fix_scale))
  && negb (Qle_bool ((c + eps) * inject_Z fix_scale) (inject_Z (hi I))).

(** ** Reference antiderivatives *)

(** An antiderivative of the second integrand. *)
Definition primitive_2 (x : R) : R :=
  (/ 3 * x ^ 3 + 4 * sin x - 4 * x * cos x)%R.

(** The asymptotic expansion of an antiderivative of [cos (x^4)], cut
    after five terms, and what its derivative misses. *)
Definition primitive_3 (x : R) : R :=
  (sin (x ^ 4)
   * (1 / 4 * / x ^ 3 - 21 / 64 * / x ^ 11 + 3465 / 1024 * / x ^ 19)
   + cos (x ^ 4) * (- (3 / 16) * / x ^ 7 + 231 / 256 * / x ^ 15))%R.

Definition remainder_3 (x : R) : R :=
  (- (65835 / 1024) * sin (x ^ 4) * / x ^ 20)%R.

(** ** Bounds on binary64 numbers *)

(** [f] is a positive finite number of exponent below [t], or the
    power of two [2^52 * 2^t]. *)
Definition at_most_pow2 (f : spec_float) (t : Z) : Prop :=
  exists (m : positive) (e : Z),
    f = S754_finite false m e
    /\ ((e < t)%Z \/ (e = t /\ m = 4503599627370496%positive)).

(** [f] has the sign [s] and is a zero, a finite number or an
    infinity: it is not a NaN. *)
Definition signed (s : bool) (f : spec_float) : Prop :=
  f = S754_zero s
  \/ (exists (m : positive) (e : Z), f = S754_finite s m e)
  \/ f = S754_infinity s.

(** [f] is a positive finite number of exponent below -52: a number
    strictly between 0 and 1. *)
Definition below_one (f : spec_float) : Prop :=
  exists (m : positive) (e : Z), f = S754_finite false m e /\ (e < -52)%Z.

(** ** The aside on vectorization *)

Section Vectorization.
Context {T : Type} `{Arith T}.

(** [numpy.sqrt] on one item. *)
Variable numpy_sqrt : T -> T.

(** [numpy.ones(N)] *)
Definition numpy_ones (N : nat) : list T := repeat (of_int 1%Z) N.

(** [c * v] and [u + v] on vectors, item by item. *)
Definition vec_scale (c : Z) (v : list T) : list T := map (mul (of_int c)) v.

Definition vec_add (u v : list T) : list T :=
  map (fun ab => add (fst ab) (snd ab)) (combine u v).

(** [ones = numpy.ones(N); numpy.sqrt(ones + 3 * ones)] *)
Definition vectorization_aside (N : nat) : list T :=
  let ones := numpy_ones N in
  map numpy_sqrt (vec_add ones (vec_scale 3 ones)).

End Vectorization.

(** ** Readings over the reals *)

(** [x**n] over the reals. *)
Definition real_pow (x : R) (n : Z) : R := powerRZ x n.

(** ** Pairs that the comparison can order *)

(** A recorded (stress, yield strength) pair of two numbers (no NaN)
    that are not equal. *)
Definition ordered_pair (sy : float * float) : bool :=
  negb (PrimFloat.is_nan (fst sy) || PrimFloat.is_nan (snd sy)
        || PrimFloat.eqb (fst sy) (snd sy)).

(** ** The zero-trial policy of the specification *)

(** The two outcomes the specification allows for a run of zero trials:
    an estimate flagged as NaN, or the input rejected with an
    invalid-input error. *)
Definition zero_trial_policy (r : result float) : Prop :=
  (exists p : float, r = Ok p /\ PrimFloat.is_nan p = true)
  \/ r = Raise ValueError.

(** * Properties *)

(** ** Arrays *)

Lemma set_item_length {T : Type} (a : list T) (i : nat) (v : T) :
  length (set_item a i v) = length a.
Proof.
  revert i; induction a as [|x a IH]; intros [|i]; simpl; auto.
Qed.

Lemma get_set_item {T : Type} `{Arith T} (a : list T) (i : nat) (v : T) :
  (i < length a)%nat -> get_item (set_item a i v) i = v.
Proof.
  unfold get_item.
  revert i; induction a as [|x a IH]; intros [|i] Hi; simpl in *; try lia.
  - reflexivity.
  - apply IH. lia.
Qed.

Lemma firstn_S_set_item {T : Type} (a : list T) (i : nat) (v : T) :
  (i < length a)%nat ->
  firstn (S i) (set_item a i v) = firstn i a ++ [v].
Proof.
  revert i; induction a as [|x a IH]; intros [|i] Hi; simpl in *; try lia.
  - reflexivity.
  - f_equal. apply IH. lia.
Qed.

Lemma skipn_set_item {T : Type} (a : list T) (i k : nat) (v : T) :
  (i < k)%nat -> skipn k (set_item a i v) = skipn k a.
Proof.
  revert i k; induction a as [|x a IH]; intros i k Hik.
  - destruct i; reflexivity.
  - destruct k as [|k]; [lia|]. destruct i as [|i]; simpl.
    + reflexivity.
    + apply IH. lia.
Qed.

Lemma sum_bool_acc (b : list bool) (z : Z) :
  fold_left (fun (acc : Z) (x : bool) => if x then (acc + 1)%Z else acc) b z
  = (z + sum_bool b)%Z.
Proof.
  unfold sum_bool. revert z.
  induction b as [|x b IH]; intros z; simpl.
  - lia.
  - rewrite IH. rewrite (IH (if x then 1%Z else 0%Z)). destruct x; lia.
Qed.

Lemma sum_bool_count (b : list bool) :
  sum_bool b = Z.of_nat (length (filter (fun x => x) b)).
Proof.
  induction b as [|x b IH].
  - reflexivity.
  - unfold sum_bool. simpl fold_left. rewrite sum_bool_acc, IH.
    destruct x; simpl length; lia.
Qed.

(** ** The simulation loop *)

Section HoopStrengthFacts.
Context {T : Type} `{Arith T}.
Variable RNG : Type.
Variable rvs : norm T -> RNG -> T * RNG.

Lemma count_failures_cons (s y : T) (l : list (T * T)) :
  count_failures ((s, y) :: l)
  = if gtb s y then (count_failures l + 1)%Z else count_failures l.
Proof.
  unfold count_failures. simpl. destruct (gtb s y); simpl length; lia.
Qed.

Lemma count_failures_bounds (l : list (T * T)) :
  (0 <= count_failures l <= Z.of_nat (length l))%Z.
Proof.
  unfold count_failures.
  pose proof (filter_length_le (fun sy : T * T => gtb (fst sy) (snd sy)) l).
  lia.
Qed.

Lemma trials_length (N : nat) (g : RNG) :
  length (fst (trials RNG rvs N g)) = N.
Proof.
  revert g; induction N as [|N IH]; intros g; simpl.
  - reflexivity.
  - destruct (calculate_stress RNG rvs g) as [s g1].
    destruct (calculate_yield_strength RNG rvs g1) as [y g2].
    specialize (IH g2). destruct (trials RNG rvs N g2) as [rest g3].
    simpl in *. now rewrite IH.
Qed.

(** The loop from trial [k] on, for [n] trials: what it adds to the
    counter and which cells of the two arrays it overwrites. *)
Lemma loop_from (n : nat) : forall (k : nat) (st : sim T RNG),
  (k + n <= length (stresses st))%nat ->
  (k + n <= length (yield_strengths st))%nat ->
  let r := fold_left (trial RNG rvs) (seq k n) st in
  let tr := trials RNG rvs n (gen st) in
  failures r = (failures st + count_failures (fst tr))%Z
  /\ stresses r
     = firstn k (stresses st) ++ map fst (fst tr)
       ++ skipn (k + n) (stresses st)
  /\ yield_strengths r
     = firstn k (yield_strengths st) ++ map snd (fst tr)
       ++ skipn (k + n) (yield_strengths st)
  /\ gen r = snd tr.
Proof.
  induction n as [|n IH]; intros k st Hs Hy.
  - simpl. rewrite Nat.add_0_r, !firstn_skipn.
    unfold count_failures; simpl. repeat split; lia.
  - simpl seq. simpl fold_left. simpl trials.
    unfold trial at 2.
    destruct (calculate_stress RNG rvs (gen st)) as [s g1].
    destruct (calculate_yield_strength RNG rvs g1) as [y g2].
    rewrite !get_set_item by lia.
    match goal with |- context [fold_left _ _ ?st'] => set (st1 := st') end.
    specialize (IH (S k) st1).
    assert (Hs1 : (S k + n <= length (stresses st1))%nat)
      by (subst st1; simpl; rewrite set_item_length; lia).
    assert (Hy1 : (S k + n <= length (yield_strengths st1))%nat)
      by (subst st1; simpl; rewrite set_item_length; lia).
    specialize (IH Hs1 Hy1). cbv zeta in IH. clear Hs1 Hy1.
    subst st1. cbn [failures stresses yield_strengths gen] in IH.
    rewrite !firstn_S_set_item, !skipn_set_item in IH by lia.
    destruct IH as (Hf & Hst & Hyd & Hg).
    destruct (trials RNG rvs n g2) as [rest g3].
    cbn [fst snd map] in *. cbv zeta.
    rewrite Hf, Hst, Hyd, Hg, count_failures_cons, <- !app_assoc.
    replace (k + S n)%nat with (S k + n)%nat by lia. simpl.
    repeat split; try reflexivity.
    destruct (gtb s y); lia.
Qed.

(** The state the simulation cell leaves. *)
Lemma run_simulation_trials (N : nat) (g : RNG) :
  let r := run_simulation RNG rvs N g in
  let tr := trials RNG rvs N g in
  failures r = count_failures (fst tr)
  /\ stresses r = map fst (fst tr)
  /\ yield_strengths r = map snd (fst tr)
  /\ gen r = snd tr.
Proof.
  unfold run_simulation.
  pose proof (loop_from N 0
    (mk_sim 0%Z (numpy_empty N) (numpy_empty N) g)) as L.
  simpl in L. unfold numpy_empty in *. rewrite repeat_length in L.
  specialize (L (le_n N) (le_n N)).
  rewrite skipn_all2 in L by (rewrite repeat_length; lia).
  rewrite !app_nil_r in L. exact L.
Qed.

End HoopStrengthFacts.

(** ** binary64 facts *)

(** The distribution parameters of the cells, as binary64 evaluates
    them: [60*0.05] is [3.0], [4*0.05] is the double [0.2] and
    [200*0.1] is [20.0]. *)
Lemma radius_dist_binary64 :
  @radius_dist float _ = scipy_stats_norm 60%float 3%float.
Proof. vm_compute. reflexivity. Qed.

Lemma W_dist_binary64 :
  @W_dist float _ = scipy_stats_norm 4%float 0.2%float.
Proof. vm_compute. reflexivity. Qed.

Lemma yield_dist_binary64 :
  @yield_dist float _ = scipy_stats_norm 200%float 20%float.
Proof. vm_compute. reflexivity. Qed.

(** A quotient by a zero of either sign is an infinity or a NaN. *)
Lemma div_zero_not_finite (x w : float) :
  PrimFloat.eqb w 0%float = true ->
  PrimFloat.is_finite (PrimFloat.div x w) = false.
Proof.
  intros Hw.
  rewrite FloatAxioms.eqb_spec in Hw.
  unfold PrimFloat.is_finite, PrimFloat.is_nan, PrimFloat.is_infinity.
  rewrite !FloatAxioms.eqb_spec, abs_spec, div_spec.
  change (Prim2SF 0%float) with (S754_zero false) in Hw.
  change (Prim2SF infinity) with (S754_infinity false).
  destruct (Prim2SF w) as [sw|sw| |sw mw ew];
    try (destruct sw; discriminate Hw); try discriminate Hw.
  destruct sw; destruct (Prim2SF x) as [[]|[]| |[] mx ex]; reflexivity.
Qed.

(** ** binary64: rounding of 53- and 54-bit significands *)

Section Binary64Facts.
Local Open Scope Z_scope.

Lemma digits2_log2 (p : positive) :
  Zpos (digits2_pos p) = Z.log2 (Zpos p) + 1.
Proof.
  induction p as [p IH|p IH|].
  - simpl digits2_pos. rewrite Pos2Z.inj_succ, IH.
    rewrite Pos2Z.inj_xI, Z.log2_succ_double by lia. lia.
  - simpl digits2_pos. rewrite Pos2Z.inj_succ, IH.
    rewrite Pos2Z.inj_xO, Z.log2_double by lia. lia.
  - reflexivity.
Qed.

Lemma digits2_bounds (p : positive) (d : Z) :
  2 ^ (d - 1) <= Zpos p < 2 ^ d -> Zpos (digits2_pos p) = d.
Proof.
  intros H. rewrite digits2_log2.
  assert (Hd : 0 <= d - 1).
  { destruct (Z_lt_le_dec (d - 1) 0) as [Hn|]; [|assumption].
    rewrite (Z.pow_neg_r 2 (d - 1)) in H by assumption.
    assert (d <= 0) by lia.
    destruct (Z.eq_dec d 0) as [->|]; [simpl in H; lia|].
    rewrite (Z.pow_neg_r 2 d) in H by lia. lia. }
  rewrite (Z.log2_unique (Zpos p) (d - 1)); [lia|assumption|].
  replace (Z.succ (d - 1)) with d by lia. exact H.
Qed.

Lemma digits2_spec (p : positive) :
  2 ^ (Zpos (digits2_pos p) - 1) <= Zpos p < 2 ^ Zpos (digits2_pos p).
Proof.
  rewrite digits2_log2.
  replace (Z.log2 (Zpos p) + 1 - 1) with (Z.log2 (Zpos p)) by lia.
  pose proof (Z.log2_spec (Zpos p) eq_refl). lia.
Qed.

Lemma loc_of_shr_record_of_loc (m : Z) (l : location) :
  loc_of_shr_record (shr_record_of_loc m l) = l.
Proof. destruct l as [|[]]; reflexivity. Qed.

Lemma shr_m_record_of_loc (m : Z) (l : location) :
  shr_m (shr_record_of_loc m l) = m.
Proof. destruct l as [|[]]; reflexivity. Qed.

(** A 53-bit significand is kept as it is. *)
Lemma shr_fexp_53 (m : positive) (e : Z) (l : location) :
  2 ^ 52 <= Zpos m < 2 ^ 53 -> emin <= e ->
  shr_fexp prec emax (Zpos m) e l = (shr_record_of_loc (Zpos m) l, e).
Proof.
  intros Hm He. unfold shr_fexp. simpl Zdigits2.
  rewrite (digits2_bounds m 53) by exact Hm.
  unfold fexp, emin, prec, emax in *.
  replace (Z.max (53 + e - 53) (3 - 1024 - 53) - e) with 0 by lia.
  reflexivity.
Qed.

(** A 54-bit significand loses its last bit. *)
Lemma shr_fexp_54 (m : positive) (e : Z) (l : location) :
  2 ^ 53 <= Zpos m < 2 ^ 54 -> emin <= e ->
  shr_fexp prec emax (Zpos m) e l
  = (shr_1 (shr_record_of_loc (Zpos m) l), e + 1).
Proof.
  intros Hm He. unfold shr_fexp. simpl Zdigits2.
  rewrite (digits2_bounds m 54) by exact Hm.
  unfold fexp, emin, prec, emax in *.
  replace (Z.max (54 + e - 53) (3 - 1024 - 53) - e) with 1 by lia.
  reflexivity.
Qed.

Lemma round_nearest_even_bounds (z : Z) (l : location) :
  z <= round_nearest_even z l <= z + 1.
Proof.
  destruct l as [|[]]; simpl; try lia. destruct (Z.even z); lia.
Qed.

(** The second half of [binary_round_aux] on a 53-bit significand, as a
    function of the exponent: the significand [m'] and the exponent
    step [c] do not depend on it. *)
Lemma round_tail_shape (s : bool) (p : positive) (l : location) :
  2 ^ 52 <= Zpos p < 2 ^ 53 ->
  exists (m' : positive) (c : Z),
    2 ^ 52 <= Zpos m' < 2 ^ 53
    /\ (c = 0 \/ (c = 1 /\ m' = 4503599627370496%positive))
    /\ forall e : Z,
        emin <= e <= 969 ->
        (let '(mrs, e') :=
           shr_fexp prec emax (round_nearest_even (Zpos p) l) e loc_Exact in
         match shr_m mrs with
         | 0 => S754_zero s
         | Zpos m =>
             if e' <=? emax - prec then S754_finite s m e'
             else S754_infinity s
         | Zneg _ => S754_nan
         end) = S754_finite s m' (e + c).
Proof.
  intros Hp.
  pose proof (round_nearest_even_bounds (Zpos p) l) as Hz.
  destruct (round_nearest_even (Zpos p) l) as [|z|z] eqn:Ez; try lia.
  destruct (Z.eq_dec (Zpos z) (2 ^ 53)) as [E|NE].
  - exists 4503599627370496%positive, 1.
    split; [lia|split; [right; split; reflexivity|]].
    intros e He. rewrite shr_fexp_54 by lia.
    replace z with 9007199254740992%positive by lia.
    cbn [shr_record_of_loc shr_1 shr_m orb].
    replace (e + 1 <=? emax - prec) with true
      by (symmetry; apply Z.leb_le; unfold emax, prec; lia).
    reflexivity.
  - exists z, 0. split; [lia|split; [left; reflexivity|]].
    intros e He. rewrite shr_fexp_53 by lia.
    cbn [shr_record_of_loc shr_m].
    replace (e <=? emax - prec) with true
      by (symmetry; apply Z.leb_le; unfold emax, prec; lia).
    now rewrite Z.add_0_r.
Qed.

(** Rounding a 53- or 54-bit significand: the result is a 53-bit
    significand [m'] and an exponent step [c], whatever the exponent.
    The step is 0 or 1 for 53 bits and 1 or 2 for 54 bits, the larger
    one when the rounding carries to the next power of two. *)
Lemma round_shape (s : bool) (q : positive) (l : location) :
  2 ^ 52 <= Zpos q < 2 ^ 54 ->
  exists (m' : positive) (c : Z),
    2 ^ 52 <= Zpos m' < 2 ^ 53
    /\ 0 <= c <= 2
    /\ (Zpos q < 2 ^ 53 ->
        c = 0 \/ (c = 1 /\ m' = 4503599627370496%positive))
    /\ (2 ^ 53 <= Zpos q ->
        c = 1 \/ (c = 2 /\ m' = 4503599627370496%positive))
    /\ forall e : Z,
        emin <= e <= 968 ->
        binary_round_aux prec emax s (Zpos q) e l = S754_finite s m' (e + c).
Proof.
  intros Hq. destruct (Z_lt_le_dec (Zpos q) (2 ^ 53)) as [H53|H53].
  - destruct (round_tail_shape s q l) as (m' & c & Hm' & Hc & Hr); [lia|].
    exists m', c.
    split; [exact Hm'|split; [lia|split; [intros _; exact Hc|split; [lia|]]]].
    intros e He. unfold binary_round_aux.
    rewrite shr_fexp_53 by lia.
    rewrite shr_m_record_of_loc, loc_of_shr_record_of_loc.
    apply Hr. lia.
  - assert (T : exists (p : positive) (l' : location),
               2 ^ 52 <= Zpos p < 2 ^ 53
               /\ shr_1 (shr_record_of_loc (Zpos q) l)
                  = shr_record_of_loc (Zpos p) l').
    { destruct q as [p|p|]; [| |lia].
      - exists p. destruct l as [|[]]; cbn [shr_record_of_loc shr_1 orb].
        + exists (loc_Inexact Eq). split; [lia|reflexivity].
        + exists (loc_Inexact Gt). split; [lia|reflexivity].
        + exists (loc_Inexact Gt). split; [lia|reflexivity].
        + exists (loc_Inexact Gt). split; [lia|reflexivity].
      - exists p. destruct l as [|[]]; cbn [shr_record_of_loc shr_1 orb].
        + exists loc_Exact. split; [lia|reflexivity].
        + exists (loc_Inexact Lt). split; [lia|reflexivity].
        + exists (loc_Inexact Lt). split; [lia|reflexivity].
        + exists (loc_Inexact Lt). split; [lia|reflexivity]. }
    destruct T as (p & l' & Hp & Hs).
    destruct (round_tail_shape s p l') as (m' & c & Hm' & Hc & Hr); [lia|].
    exists m', (1 + c).
    split; [exact Hm'|split; [lia|split; [lia|split; [intros _; lia|]]]].
    intros e He. unfold binary_round_aux.
    rewrite shr_fexp_54, Hs by lia.
    rewrite shr_m_record_of_loc, loc_of_shr_record_of_loc.
    rewrite Z.add_assoc. apply Hr. lia.
Qed.

(** After rounding, a 53-bit significand stays below the next power of
    two of its exponent, and a 54-bit one below the second next. *)
Lemma round_53 (m : positive) (e : Z) (l : location) :
  2 ^ 52 <= Zpos m < 2 ^ 53 -> emin <= e <= 968 ->
  at_most_pow2 (binary_round_aux prec emax false (Zpos m) e l) (e + 1).
Proof.
  intros Hm He.
  destruct (round_shape false m l) as (m' & c & _ & _ & Hc & _ & Hr); [lia|].
  rewrite Hr by exact He. exists m', (e + c). split; [reflexivity|].
  destruct (Hc (proj2 Hm)) as [->|[-> ->]];
    [left; lia|right; split; reflexivity].
Qed.

Lemma round_54 (m : positive) (e : Z) (l : location) :
  2 ^ 53 <= Zpos m < 2 ^ 54 -> emin <= e <= 968 ->
  at_most_pow2 (binary_round_aux prec emax false (Zpos m) e l) (e + 2).
Proof.
  intros Hm He.
  destruct (round_shape false m l) as (m' & c & _ & _ & _ & Hc & Hr); [lia|].
  rewrite Hr by exact He. exists m', (e + c). split; [reflexivity|].
  destruct (Hc (proj1 Hm)) as [->|[-> ->]];
    [left; lia|right; split; reflexivity].
Qed.

(** An exact 53-bit significand is its own rounding. *)
Lemma round_53_exact (s : bool) (m : positive) (e : Z) :
  2 ^ 52 <= Zpos m < 2 ^ 53 -> emin <= e <= emax - prec ->
  binary_round_aux prec emax s (Zpos m) e loc_Exact = S754_finite s m e.
Proof.
  intros Hm He. unfold binary_round_aux.
  rewrite shr_fexp_53 by lia.
  cbn [shr_record_of_loc shr_m loc_of_shr_record round_nearest_even].
  rewrite shr_fexp_53 by lia.
  cbn [shr_record_of_loc shr_m].
  replace (e <=? emax - prec) with true
    by (symmetry; apply Z.leb_le; lia).
  reflexivity.
Qed.

Lemma iter_xO_pow2 (n k : positive) :
  Zpos (Pos.iter xO n k) = Zpos n * 2 ^ Zpos k.
Proof.
  induction k as [|k IH] using Pos.peano_ind.
  - simpl. lia.
  - rewrite Pos.iter_succ, Pos2Z.inj_xO, IH, Pos2Z.inj_succ, Z.pow_succ_r; lia.
Qed.

Lemma valid_53 (s : bool) (m : positive) (e : Z) :
  2 ^ 52 <= Zpos m < 2 ^ 53 -> emin <= e <= emax - prec ->
  valid_binary (S754_finite s m e) = true.
Proof.
  intros Hm He. unfold SpecFloat.valid_binary, SpecFloat.bounded,
    canonical_mantissa.
  rewrite (digits2_bounds m 53) by exact Hm.
  apply andb_true_intro. split.
  - apply Z.eqb_eq. unfold fexp, emin, prec, emax in *. lia.
  - apply Z.leb_le. lia.
Qed.

(** [float(n)] for a positive integer below 2^53: the significand is
    [n] shifted to 53 bits, and nothing is rounded. *)
Lemma float_of_Z_exact (n : positive) :
  Zpos n < 2 ^ 53 ->
  exists (m : positive) (e : Z),
    Prim2SF (float_of_Z (Zpos n)) = S754_finite false m e
    /\ 2 ^ 52 <= Zpos m < 2 ^ 53
    /\ e = Zpos (digits2_pos n) - 53
    /\ Zpos m = Zpos n * 2 ^ (- e).
Proof.
  intros Hn.
  pose proof (digits2_spec n) as Hd.
  set (d := Zpos (digits2_pos n)) in *.
  assert (Hd53 : 1 <= d <= 53).
  { split; [subst d; lia|].
    destruct (Z_lt_le_dec 53 d) as [Hgt|]; [|assumption].
    assert (2 ^ 53 <= 2 ^ (d - 1)) by (apply Z.pow_le_mono_r; lia). lia. }
  assert (Hsh : exists m : positive,
             shl_align n 0 (fexp prec emax (d + 0)) = (m, d - 53)
             /\ Zpos m = Zpos n * 2 ^ (53 - d)).
  { unfold shl_align, fexp, emin, prec, emax.
    replace (Z.max (d + 0 - 53) (3 - 1024 - 53) - 0) with (d - 53) by lia.
    replace (Z.max (d + 0 - 53) (3 - 1024 - 53)) with (d - 53) by lia.
    destruct (d - 53) as [|k|k] eqn:Ek; try lia.
    - exists n. split; [reflexivity|].
      replace (53 - d) with 0 by lia. lia.
    - exists (Pos.iter xO n k). split; [reflexivity|].
      rewrite iter_xO_pow2. f_equal. f_equal. lia. }
  destruct Hsh as (m & Hsh & Hm).
  assert (Hm53 : 2 ^ 52 <= Zpos m < 2 ^ 53).
  { rewrite Hm.
    replace (2 ^ 52) with (2 ^ (d - 1) * 2 ^ (53 - d))
      by (rewrite <- Z.pow_add_r by lia; f_equal; lia).
    replace (2 ^ 53) with (2 ^ d * 2 ^ (53 - d))
      by (rewrite <- Z.pow_add_r by lia; f_equal; lia).
    assert (0 < 2 ^ (53 - d)) by (apply Z.pow_pos_nonneg; lia).
    split; [apply Z.mul_le_mono_nonneg_r|apply Z.mul_lt_mono_pos_r]; lia. }
  assert (He : emin <= d - 53 <= emax - prec)
    by (unfold emin, prec, emax; lia).
  exists m, (d - 53).
  unfold float_of_Z, binary_normalize, binary_round. fold d.
  rewrite Hsh, round_53_exact by assumption.
  rewrite Prim2SF_SF2Prim by (now apply valid_53).
  repeat split; try lia.
  rewrite Hm. f_equal. f_equal. lia.
Qed.

Lemma at_most_pow2_mono (f : spec_float) (t t' : Z) :
  at_most_pow2 f t -> t <= t' -> at_most_pow2 f t'.
Proof.
  intros (m & e & -> & H) Ht. exists m, e. split; [reflexivity|].
  destruct (Z.eq_dec t t'); [subst; exact H|left; lia].
Qed.

Lemma div_core_53 (m1 m2 : positive) (e1 e2 : Z) :
  2 ^ 52 <= Zpos m1 < 2 ^ 53 -> 2 ^ 52 <= Zpos m2 < 2 ^ 53 ->
  -1021 <= e1 - e2 ->
  SFdiv_core_binary prec emax (Zpos m1) e1 (Zpos m2) e2
  = (let '(q, r) := Z.div_eucl (Zpos m1 * 2 ^ 53) (Zpos m2) in
     (q, e1 - e2 - 53, new_location (Zpos m2) r)).
Proof.
  intros H1 H2 He. unfold SFdiv_core_binary. simpl Zdigits2.
  rewrite (digits2_bounds m1 53), (digits2_bounds m2 53) by assumption.
  unfold fexp, emin, prec, emax.
  replace (Z.min (Z.max (53 + e1 - (53 + e2) - 53) (3 - 1024 - 53)) (e1 - e2))
    with (e1 - e2 - 53) by lia.
  replace (e1 - e2 - (e1 - e2 - 53)) with 53 by lia.
  rewrite Z.shiftl_mul_pow2 by lia. reflexivity.
Qed.

(** The quotient of two positive numbers with 53-bit significands, the
    first not above the second, rounds to at most 1. *)
Lemma div_at_most_one (m1 m2 : positive) (e1 e2 : Z) :
  2 ^ 52 <= Zpos m1 < 2 ^ 53 -> 2 ^ 52 <= Zpos m2 < 2 ^ 53 ->
  -52 <= e1 -> e1 <= e2 -> e2 <= 0 ->
  (e1 = e2 -> Zpos m1 <= Zpos m2) ->
  at_most_pow2
    (SFdiv prec emax (S754_finite false m1 e1) (S754_finite false m2 e2))
    (-52).
Proof.
  intros H1 H2 He1 He12 He2 Hm. unfold SFdiv.
  rewrite div_core_53 by lia.
  pose proof (Z_div_mod (Zpos m1 * 2 ^ 53) (Zpos m2) eq_refl) as Hqr.
  destruct (Z.div_eucl (Zpos m1 * 2 ^ 53) (Zpos m2)) as [q r].
  destruct Hqr as [Hq Hr]. cbn [xorb].
  assert (Hq52 : 2 ^ 52 <= q) by nia.
  assert (Hq54 : q < 2 ^ 54) by nia.
  destruct q as [|q|q]; try lia.
  destruct (Z_lt_le_dec e1 e2) as [Hlt|Hge].
  - destruct (Z_lt_le_dec (Zpos q) (2 ^ 53)) as [Hq53|Hq53].
    + apply at_most_pow2_mono with (e1 - e2 - 53 + 1); [|lia].
      apply round_53; unfold emin, emax, prec; lia.
    + apply at_most_pow2_mono with (e1 - e2 - 53 + 2); [|lia].
      apply round_54; unfold emin, emax, prec; lia.
  - assert (e1 = e2) by lia. subst e2. specialize (Hm eq_refl).
    replace (e1 - e1 - 53) with (-53) by lia.
    destruct (Z.eq_dec (Zpos m1) (Zpos m2)) as [E|NE].
    + rewrite E in Hq.
      assert (Eq : Zpos q = 2 ^ 53).
      { destruct (Z_lt_le_dec (Zpos q) (2 ^ 53)); [nia|].
        destruct (Z_lt_le_dec (2 ^ 53) (Zpos q)); [nia|lia]. }
      assert (Er : r = 0) by (rewrite Eq in Hq; lia).
      subst r. injection Eq as ->.
      unfold new_location.
      destruct (Z.even (Zpos m2)); cbn;
        exists 4503599627370496%positive, (-52);
        (split; [reflexivity|right; split; reflexivity]).
    + apply (round_53 q (-53));
        [split; [lia|nia]|unfold emin, emax, prec; lia].
Qed.

Lemma at_most_pow2_leb (x : float) :
  at_most_pow2 (Prim2SF x) (-52) ->
  PrimFloat.leb 0%float x = true /\ PrimFloat.leb x 1%float = true.
Proof.
  intros (m & e & Hx & H). rewrite !leb_spec, Hx.
  change (Prim2SF 0%float) with (S754_zero false).
  change (Prim2SF 1%float)
    with (S754_finite false 4503599627370496%positive (-52)).
  split; [reflexivity|].
  unfold SFleb, SFcompare.
  destruct H as [Hlt|[-> ->]].
  - apply Z.compare_lt_iff in Hlt. now rewrite Hlt.
  - reflexivity.
Qed.

(** For counts [0 <= k <= n] with [0 < n < 2^53], [float(n)] is not
    zero and the binary64 quotient [k / float(n)] lies in [[0.0, 1.0]]. *)
Lemma binary64_ratio (k n : Z) :
  0 <= k <= n -> 0 < n < 2 ^ 53 ->
  PrimFloat.eqb (float_of_Z n) 0%float = false
  /\ PrimFloat.leb 0%float (float_of_Z k / float_of_Z n) = true
  /\ PrimFloat.leb (float_of_Z k / float_of_Z n) 1%float = true.
Proof.
  intros Hk Hn.
  destruct n as [|n|n]; try lia.
  destruct (float_of_Z_exact n) as (m2 & e2 & E2 & Hm2 & He2 & Hv2); [lia|].
  split.
  - rewrite FloatAxioms.eqb_spec, E2. reflexivity.
  - destruct k as [|k|k]; try lia.
    + assert (Z0 : Prim2SF (float_of_Z 0 / float_of_Z (Zpos n))
                   = S754_zero false).
      { rewrite div_spec, E2. reflexivity. }
      rewrite !leb_spec, Z0. split; reflexivity.
    + destruct (float_of_Z_exact k) as (m1 & e1 & E1 & Hm1 & He1 & Hv1);
        [lia|].
      apply at_most_pow2_leb. rewrite div_spec, E1, E2.
      pose proof (digits2_spec k) as Dk. pose proof (digits2_spec n) as Dn.
      assert (Hdk : 1 <= Zpos (digits2_pos k)) by lia.
      assert (Hdn : Zpos (digits2_pos n) <= 53).
      { destruct (Z_lt_le_dec 53 (Zpos (digits2_pos n))); [|assumption].
        assert (2 ^ 53 <= 2 ^ (Zpos (digits2_pos n) - 1))
          by (apply Z.pow_le_mono_r; lia). lia. }
      assert (Hd : Zpos (digits2_pos k) <= Zpos (digits2_pos n)).
      { rewrite !digits2_log2.
        assert (Z.log2 (Zpos k) <= Z.log2 (Zpos n))
          by (apply Z.log2_le_mono; lia). lia. }
      apply div_at_most_one; try lia.
      intros Ee. rewrite Hv1, Hv2, Ee.
      apply Z.mul_le_mono_nonneg_r; [apply Z.pow_nonneg|]; lia.
Qed.

(** Rounding keeps the sign and never makes a NaN. *)
Lemma shr_1_nonneg (mrs : shr_record) :
  0 <= shr_m mrs -> 0 <= shr_m (shr_1 mrs).
Proof.
  destruct mrs as [[|[p|p|]|p] r s0]; simpl; lia.
Qed.

Lemma iter_shr_1_nonneg (p : positive) :
  forall mrs : shr_record,
    0 <= shr_m mrs -> 0 <= shr_m (SpecFloat.iter_pos shr_1 p mrs).
Proof.
  induction p as [p IH|p IH|]; intros mrs Hm; simpl.
  - apply IH, IH, shr_1_nonneg, Hm.
  - apply IH, IH, Hm.
  - apply shr_1_nonneg, Hm.
Qed.

Lemma shr_fexp_nonneg (m e : Z) (l : location) :
  0 <= m -> 0 <= shr_m (fst (shr_fexp prec emax m e l)).
Proof.
  intros Hm. unfold shr_fexp, shr.
  destruct (fexp prec emax (Zdigits2 m + e) - e) as [|n|n]; simpl;
    rewrite ?shr_m_record_of_loc; try exact Hm.
  apply iter_shr_1_nonneg. now rewrite shr_m_record_of_loc.
Qed.

Lemma binary_round_aux_signed (s : bool) (m e : Z) (l : location) :
  0 <= m -> signed s (binary_round_aux prec emax s m e l).
Proof.
  intros Hm. unfold binary_round_aux.
  pose proof (shr_fexp_nonneg m e l Hm) as H1.
  destruct (shr_fexp prec emax m e l) as [mrs1 e1]. simpl in H1.
  pose proof (round_nearest_even_bounds (shr_m mrs1)
                (loc_of_shr_record mrs1)) as Hr.
  assert (H2 : 0 <= round_nearest_even (shr_m mrs1) (loc_of_shr_record mrs1))
    by lia.
  pose proof (shr_fexp_nonneg _ e1 loc_Exact H2) as H3.
  destruct (shr_fexp prec emax
              (round_nearest_even (shr_m mrs1) (loc_of_shr_record mrs1))
              e1 loc_Exact) as [mrs2 e2].
  simpl in H3.
  destruct (shr_m mrs2) as [|z|z]; try lia.
  - left. reflexivity.
  - destruct (e2 <=? emax - prec).
    + right. left. now exists z, e2.
    + right. right. reflexivity.
Qed.

Lemma div_core_nonneg (m1 e1 m2 e2 : Z) :
  0 <= m1 -> 0 < m2 ->
  0 <= fst (fst (SFdiv_core_binary prec emax m1 e1 m2 e2)).
Proof.
  intros H1 H2. unfold SFdiv_core_binary.
  set (e' := Z.min _ _).
  set (a := match e1 - e2 - e' with
            | 0 => m1
            | Zpos _ => Z.shiftl m1 (e1 - e2 - e')
            | Zneg _ => 0
            end).
  assert (A : 0 <= a).
  { subst a. destruct (e1 - e2 - e') as [|k|k]; try lia.
    rewrite Z.shiftl_mul_pow2 by lia.
    apply Z.mul_nonneg_nonneg; [lia|apply Z.pow_nonneg; lia]. }
  pose proof (Z_div_mod a m2 ltac:(lia)) as D.
  destruct (Z.div_eucl a m2) as [q0 r0]. simpl. destruct D as [D1 D2]. nia.
Qed.

(** The quotient of a positive product by a negative finite number has
    the negative sign. *)
Lemma mul_div_negative (c r w : float) :
  PrimFloat.ltb 0%float c = true -> PrimFloat.is_finite c = true ->
  PrimFloat.ltb 0%float r = true ->
  PrimFloat.ltb neg_infinity w = true -> PrimFloat.ltb w 0%float = true ->
  signed true (Prim2SF (c * r / w)%float)
  /\ PrimFloat.leb (c * r / w)%float 0%float = true.
Proof.
  intros Hc Hcf Hr Hw1 Hw2.
  assert (S : signed true (Prim2SF (c * r / w)%float)).
  { unfold PrimFloat.is_finite, PrimFloat.is_nan, PrimFloat.is_infinity in Hcf.
    rewrite !FloatAxioms.eqb_spec, abs_spec in Hcf.
    rewrite ltb_spec in Hc, Hr, Hw1, Hw2.
    rewrite div_spec, mul_spec.
    change (Prim2SF 0%float) with (S754_zero false) in *.
    change (Prim2SF neg_infinity) with (S754_infinity true) in *.
    change (Prim2SF infinity) with (S754_infinity false) in *.
    destruct (Prim2SF c) as [sc|sc| |sc mc ec]; try discriminate Hc;
      [destruct sc; discriminate|].
    destruct sc; [discriminate Hc|]. clear Hc Hcf.
    destruct (Prim2SF w) as [sw|sw| |sw mw ew]; try discriminate Hw2;
      [destruct sw; try discriminate Hw2; discriminate Hw1|].
    destruct sw; [|discriminate Hw2]. clear Hw1 Hw2.
    destruct (Prim2SF r) as [sr|sr| |sr mr er]; try discriminate Hr.
    - destruct sr; [discriminate Hr|]. right. right. reflexivity.
    - destruct sr; [discriminate Hr|]. clear Hr.
      unfold SF64mul, SFmul. cbn [xorb].
      pose proof (binary_round_aux_signed false (Zpos (mc * mr)) (ec + er)
                    loc_Exact) as P.
      destruct P as [->|[(m & e & ->)| ->]]; [lia| | |].
      + left. reflexivity.
      + unfold SF64div, SFdiv. cbn [xorb].
        pose proof (div_core_nonneg (Zpos m) e (Zpos mw) ew) as Hq.
        destruct (SFdiv_core_binary prec emax (Zpos m) e (Zpos mw) ew)
          as [[qz ez] lz].
        apply binary_round_aux_signed. apply Hq; lia.
      + right. right. reflexivity. }
  split; [exact S|].
  rewrite leb_spec. change (Prim2SF 0%float) with (S754_zero false).
  destruct S as [->|[(m & e & ->)| ->]]; reflexivity.
Qed.

(** Multiplying by a power of two, [2^52 * 2^ec], moves the exponent. *)
Lemma mul_pow2_exact (s : bool) (m : positive) (e ec : Z) :
  2 ^ 52 <= Zpos m < 2 ^ 53 ->
  emin <= e + ec + 52 <= emax - prec ->
  SFmul prec emax (S754_finite false 4503599627370496 ec)
    (S754_finite s m e)
  = S754_finite s m (e + ec + 52).
Proof.
  intros Hm He. unfold SFmul. cbn [xorb Pos.mul].
  match goal with
  | |- binary_round_aux _ _ _ (Zpos ?big) _ _ = _ => set (b := big)
  end.
  assert (Hb : Zpos b = Zpos m * 2 ^ 52) by (subst b; lia).
  unfold binary_round_aux, shr_fexp at 1.
  change (Zdigits2 (Zpos b)) with (Zpos (digits2_pos b)).
  rewrite (digits2_bounds b 105) by lia.
  unfold fexp at 1.
  replace (Z.max (105 + (ec + e) - prec) emin - (ec + e)) with 52
    by (unfold emin, emax, prec in *; lia).
  unfold shr. subst b.
  cbn [shr_record_of_loc SpecFloat.iter_pos shr_1 orb shr_m
       loc_of_shr_record round_nearest_even].
  rewrite shr_fexp_53 by (unfold emin, emax, prec in *; lia).
  cbn [shr_record_of_loc shr_m].
  replace (ec + e + 52 <=? emax - prec) with true
    by (symmetry; apply Z.leb_le; lia).
  f_equal. lia.
Qed.

(** A binary64 number with magnitude between 2^-500 and 2^500 has a 53-bit
    significand and an exponent between -552 and 448. *)
Lemma normal_range_shape (a : float) :
  PrimFloat.leb 0x1p-500%float (abs a) = true ->
  PrimFloat.leb (abs a) 0x1p+500%float = true ->
  exists (s : bool) (m : positive) (e : Z),
    Prim2SF a = S754_finite s m e
    /\ 2 ^ 52 <= Zpos m < 2 ^ 53
    /\ -552 <= e <= 448.
Proof.
  intros Hlo Hhi.
  rewrite leb_spec, abs_spec in Hlo, Hhi.
  change (Prim2SF 0x1p-500%float)
    with (S754_finite false 4503599627370496 (-552)) in Hlo.
  change (Prim2SF 0x1p+500%float)
    with (S754_finite false 4503599627370496 448) in Hhi.
  pose proof (Prim2SF_valid a) as Hv.
  destruct (Prim2SF a) as [s0|s0| |s0 m e]; try discriminate.
  exists s0, m, e. split; [reflexivity|].
  unfold SFabs, SFleb, SFcompare in Hlo, Hhi.
  assert (He : -552 <= e <= 448).
  { split.
    - destruct (Z.compare_spec (-552) e); lia || discriminate Hlo.
    - destruct (Z.compare_spec e 448); lia || discriminate Hhi. }
  split; [|exact He].
  unfold SpecFloat.valid_binary, SpecFloat.bounded, canonical_mantissa in Hv.
  apply andb_prop in Hv. destruct Hv as [Hc _].
  apply Z.eqb_eq in Hc. unfold fexp, emin, emax, prec in Hc.
  pose proof (digits2_spec m) as Hd.
  replace (Zpos (digits2_pos m)) with 53 in Hd by lia.
  exact Hd.
Qed.

(** Scaling by 1, 2 or 4 commutes with a division, away from overflow
    and underflow: both orders round the same quotient. *)
Lemma scale_div_commute (c a n : float) (ec en : Z) (mn : positive) :
  Prim2SF c = S754_finite false 4503599627370496 ec ->
  -52 <= ec <= -50 ->
  Prim2SF n = S754_finite false mn en ->
  2 ^ 52 <= Zpos mn < 2 ^ 53 -> -52 <= en <= 0 ->
  PrimFloat.leb 0x1p-500%float (abs a) = true ->
  PrimFloat.leb (abs a) 0x1p+500%float = true ->
  (c * a / n)%float = (c * (a / n))%float.
Proof.
  intros Ec Hec En Hmn Hen Hlo Hhi.
  destruct (normal_range_shape a Hlo Hhi) as (s & m & e & Ea & Hm & He).
  rewrite <- (SF2Prim_Prim2SF (c * a / n)%float).
  rewrite <- (SF2Prim_Prim2SF (c * (a / n))%float).
  f_equal.
  rewrite div_spec, !mul_spec, div_spec, Ec, Ea, En.
  unfold SF64mul, SF64div.
  rewrite mul_pow2_exact by (unfold emin, emax, prec; lia).
  unfold SFdiv. rewrite !div_core_53 by lia.
  pose proof (Z_div_mod (Zpos m * 2 ^ 53) (Zpos mn) eq_refl) as Hqr.
  destruct (Z.div_eucl (Zpos m * 2 ^ 53) (Zpos mn)) as [q r].
  destruct Hqr as [Hq Hr].
  assert (Hq52 : 2 ^ 52 <= q) by nia.
  assert (Hq54 : q < 2 ^ 54) by nia.
  destruct q as [|q|q]; try lia.
  destruct (round_shape (xorb s false) q (new_location (Zpos mn) r))
    as (m' & c0 & Hm' & Hc0 & _ & _ & Hround); [lia|].
  rewrite !Hround by (unfold emin, emax, prec; lia).
  rewrite mul_pow2_exact by (unfold emin, emax, prec; lia).
  f_equal. lia.
Qed.

End Binary64Facts.

(** ** The hoop-stress computation *)

(** C1. [calculate_stress] draws a radius from Normal(60, 3.0), then a
    wall thickness from Normal(4, 0.2), and returns 10 * radius /
    thickness; with the draws fixed at r = 60 and W = 4 it returns
    exactly 150.0, in binary64 and over the reals. *)
Theorem calculate_stress_formula :
  (forall (RNG : Type) (rvs : norm float -> RNG -> float * RNG) (g : RNG),
      calculate_stress RNG rvs g
      = let (radius, g1) := rvs (scipy_stats_norm 60 3)%float g in
        let (W, g2) := rvs (scipy_stats_norm 4 0.2)%float g1 in
        (10 * radius / W, g2)%float)
  /\ fst (calculate_stress (list float) replay_rvs [60; 4]%float)
     = 150%float
  /\ (forall (RNG : Type) (rvs : norm R -> RNG -> R * RNG) (g : RNG),
      calculate_stress RNG rvs g
      = let (radius, g1) := rvs (scipy_stats_norm 60 3)%R g in
        let (W, g2) := rvs (scipy_stats_norm 4 0.2)%R g1 in
        (10 * radius / W, g2)%R)
  /\ fst (calculate_stress (list R) replay_rvs [60; 4]%R) = 150%R.
Proof.
  split; [|split; [|split]].
  - intros RNG rvs g. unfold calculate_stress.
    rewrite radius_dist_binary64, W_dist_binary64.
    destruct (rvs _ g) as [radius g1]. destruct (rvs _ g1) as [W g2].
    reflexivity.
  - vm_compute. reflexivity.
  - intros RNG rvs g. unfold calculate_stress.
    replace (@radius_dist R _) with (scipy_stats_norm 60 3)%R
      by (unfold radius_dist, lit; simpl; f_equal; lra).
    replace (@W_dist R _) with (scipy_stats_norm 4 0.2)%R
      by (unfold W_dist, lit; simpl; f_equal; lra).
    destruct (rvs _ g) as [radius g1]. destruct (rvs _ g1) as [W g2].
    reflexivity.
  - simpl. lra.
Qed.

(** C8. The stress computation has no guard on the wall thickness:
    whatever radius [r] and thickness [w] are drawn, it returns
    10 * r / w.  When [w] is a zero, that quotient is an infinity or a
    NaN, not a number.  When [w] is negative (and the radius positive)
    it carries the negative sign: a negative number or infinity, or the
    negative zero of an underflow; for the draws r = 60, w = -4 it is
    the stress -150.0.  All of these are returned like any other
    value. *)
Theorem calculate_stress_unguarded :
  (forall r w : float,
      calculate_stress (list float) replay_rvs [r; w]
      = ((10 * r / w)%float, []))
  /\ (forall r w : float,
      PrimFloat.eqb w 0%float = true ->
      PrimFloat.is_finite
        (fst (calculate_stress (list float) replay_rvs [r; w])) = false)
  /\ fst (calculate_stress (list float) replay_rvs [60; 0]%float)
     = infinity
  /\ (forall r w : float,
      PrimFloat.ltb 0%float r = true ->
      PrimFloat.ltb neg_infinity w = true ->
      PrimFloat.ltb w 0%float = true ->
      signed true
        (Prim2SF (fst (calculate_stress (list float) replay_rvs [r; w])))
      /\ PrimFloat.leb
           (fst (calculate_stress (list float) replay_rvs [r; w]))
           0%float = true)
  /\ fst (calculate_stress (list float) replay_rvs [60; -4]%float)
     = (-150)%float
  /\ PrimFloat.ltb (-150)%float 0%float = true.
Proof.
  assert (F : forall r w : float,
      calculate_stress (list float) replay_rvs [r; w]
      = ((10 * r / w)%float, [])) by (intros r w; reflexivity).
  split; [exact F|split; [|split; [|split; [|split]]]]; try reflexivity.
  - intros r w Hw. rewrite F. simpl fst.
    now apply div_zero_not_finite.
  - intros r w Hr Hw1 Hw2. rewrite F. simpl fst.
    now apply mul_div_negative.
Qed.

(** A zero thickness drawn after the radius 60. *)
Lemma calculate_stress_unguarded_witness :
  PrimFloat.is_finite
    (fst (calculate_stress (list float) replay_rvs [60; 0]%float)) = false.
Proof.
  apply (proj1 (proj2 calculate_stress_unguarded) 60%float 0%float).
  reflexivity.
Defined.

(** ** The failure-probability estimate *)

Lemma Rzerob_false (x : R) : x <> 0%R -> Rzerob x = false.
Proof. intros Hx. unfold Rzerob. now destruct (Req_dec_T x 0). Qed.

Lemma combine_fst_snd {A B : Type} (l : list (A * B)) :
  combine (map fst l) (map snd l) = l.
Proof.
  induction l as [|[a b] l IH]; simpl; [reflexivity|now rewrite IH].
Qed.

(** The counter, against the two recorded sequences. *)
Lemma run_simulation_count {T : Type} `{Arith T} (RNG : Type)
  (rvs : norm T -> RNG -> T * RNG) (N : nat) (g : RNG) :
  let r := run_simulation RNG rvs N g in
  length (stresses r) = N
  /\ length (yield_strengths r) = N
  /\ failures r = count_failures (combine (stresses r) (yield_strengths r))
  /\ (0 <= failures r <= Z.of_nat N)%Z.
Proof.
  destruct (run_simulation_trials RNG rvs N g) as (Hf & Hs & Hy & _).
  cbv zeta. rewrite Hf, Hs, Hy, !length_map, combine_fst_snd.
  pose proof (count_failures_bounds (fst (trials RNG rvs N g))) as Hb.
  rewrite trials_length in *. repeat split; lia.
Qed.

(** C2. For every N >= 1 the simulation cell followed by
    [failures / float(N)] returns (the number of trials whose recorded
    stress strictly exceeds their recorded yield strength) / N, and that
    value lies in [[0, 1]]: exactly so over the reals, and in binary64
    as the correctly rounded quotient of the two counts, for every N a
    double represents exactly (below 2^53). *)
Theorem failure_probability_bounds :
  forall N : nat,
    (1 <= N)%nat ->
    (forall (T : Type) (A : Arith T) (RNG : Type)
            (rvs : norm T -> RNG -> T * RNG) (g : RNG),
        let r := run_simulation RNG rvs N g in
        length (stresses r) = N
        /\ length (yield_strengths r) = N
        /\ failures r
           = count_failures (combine (stresses r) (yield_strengths r))
        /\ (0 <= failures r <= Z.of_nat N)%Z)
    /\ (forall (RNG : Type) (rvs : norm R -> RNG -> R * RNG) (g : RNG),
        let r := run_simulation RNG rvs N g in
        failure_probability RNG rvs N g
        = Ok (IZR (failures r) / IZR (Z.of_nat N))%R
        /\ (0 <= IZR (failures r) / IZR (Z.of_nat N) <= 1)%R)
    /\ ((Z.of_nat N < 2 ^ 53)%Z ->
        forall (RNG : Type) (rvs : norm float -> RNG -> float * RNG)
               (g : RNG),
          let r := run_simulation RNG rvs N g in
          let p := (float_of_Z (failures r) / float_of_Z (Z.of_nat N))%float in
          failure_probability RNG rvs N g = Ok p
          /\ PrimFloat.leb 0%float p = true
          /\ PrimFloat.leb p 1%float = true).
Proof.
  intros N HN. split; [|split].
  - intros T A RNG rvs g. apply run_simulation_count.
  - intros RNG rvs g r.
    destruct (run_simulation_count RNG rvs N g) as (_ & _ & _ & Hb).
    fold r in Hb.
    assert (HN' : (0 < IZR (Z.of_nat N))%R) by (apply (IZR_lt 0); lia).
    split.
    + unfold failure_probability, summarize, py_truediv.
      cbn [of_int is_zero div ideal].
      rewrite Rzerob_false by lra. reflexivity.
    + destruct Hb as [Hb0 Hb1]. apply IZR_le in Hb0, Hb1.
      split.
      * apply Rmult_le_pos; [exact Hb0|].
        apply Rlt_le, Rinv_0_lt_compat, HN'.
      * apply Rmult_le_reg_r with (IZR (Z.of_nat N)); [exact HN'|].
        unfold Rdiv. rewrite Rmult_assoc, Rinv_l, Rmult_1_r, Rmult_1_l by lra.
        exact Hb1.
  - intros HN53 RNG rvs g r p.
    destruct (run_simulation_count RNG rvs N g) as (_ & _ & _ & Hb).
    fold r in Hb.
    destruct (binary64_ratio (failures r) (Z.of_nat N) Hb) as (Hz & H0 & H1);
      [lia|].
    split; [|split; assumption].
    unfold failure_probability, summarize, py_truediv.
    cbn [of_int is_zero div binary64]. fold r. rewrite Hz. reflexivity.
Qed.

(** Two replayed trials, one of them a failure. *)
Lemma failure_probability_bounds_witness :
  failure_probability (list float) replay_rvs 2
    [60; 4; 200; 90; 4; 200]%float = Ok 0.5%float
  /\ PrimFloat.leb 0%float 0.5%float = true
  /\ PrimFloat.leb 0.5%float 1%float = true.
Proof.
  exact (proj2 (proj2 (failure_probability_bounds 2 (le_S 1 1 (le_n 1))))
           eq_refl (list float) replay_rvs [60; 4; 200; 90; 4; 200]%float).
Defined.

(** ** Counting failures *)

Section CountingFacts.
Context {T : Type} `{Arith T}.

Lemma count_failures_perm (l l' : list (T * T)) :
  Permutation l l' -> count_failures l = count_failures l'.
Proof.
  induction 1 as [|[s y] l l' _ IH|[s y] [s' y'] l|l l' l'' _ IH1 _ IH2].
  - reflexivity.
  - rewrite !count_failures_cons, IH. reflexivity.
  - rewrite !count_failures_cons.
    destruct (gtb s y), (gtb s' y'); reflexivity.
  - congruence.
Qed.

Lemma count_failures_map (l : list (T * T)) :
  sum_bool (map (fun sy => gtb (fst sy) (snd sy)) l) = count_failures l.
Proof.
  rewrite sum_bool_count. unfold count_failures. f_equal.
  induction l as [|sy l IH]; simpl.
  - reflexivity.
  - destruct (gtb (fst sy) (snd sy)); simpl; now rewrite IH.
Qed.

(** The item-by-item stress vector paired with the yield vector is the
    list of per-trial pairs of the zipped draws. *)
Lemma vector_trials (radius W ys : list T) :
  combine
    (map (fun rw => div (fst rw) (snd rw))
         (combine (map (mul (of_int 10%Z)) radius) W)) ys
  = map trial_of_sample (combine (combine radius W) ys).
Proof.
  revert W ys; induction radius as [|r radius IH]; intros W ys.
  - reflexivity.
  - destruct W as [|w W]; [reflexivity|].
    destruct ys as [|y ys]; [reflexivity|].
    simpl. now rewrite IH.
Qed.

Variable RNG : Type.
Variable rvs : norm T -> RNG -> T * RNG.

Lemma trials_samples (N : nat) (g : RNG) :
  trials RNG rvs N g
  = (map trial_of_sample (fst (samples RNG rvs N g)),
     snd (samples RNG rvs N g)).
Proof.
  revert g; induction N as [|N IH]; intros g.
  - reflexivity.
  - simpl. unfold calculate_stress, calculate_yield_strength.
    destruct (rvs radius_dist g) as [radius g1].
    destruct (rvs W_dist g1) as [W g2].
    destruct (rvs yield_dist g2) as [y g3].
    rewrite IH. destruct (samples RNG rvs N g3) as [rest g4].
    reflexivity.
Qed.

End CountingFacts.

(** ** Zero trials *)

(** C9, as stated, fails: with N = 0 the estimate is neither flagged as
    NaN nor rejected as invalid input. *)
Lemma zero_trials_outside_policy :
  ~ zero_trial_policy (failure_probability (list float) replay_rvs 0 []).
Proof.
  intros [(p & Hp & _)|Hr]; vm_compute in *; discriminate.
Qed.

(** C9, amended. With N = 0 the simulation cell is not rejected: it runs
    a loop of zero trials and leaves a counter of 0 and two empty
    arrays; the division [failures / float(N)] then raises
    [ZeroDivisionError], and produces no NaN. *)
Theorem zero_trials_raise :
  forall (RNG : Type) (rvs : norm float -> RNG -> float * RNG) (g : RNG),
    run_simulation RNG rvs 0 g = mk_sim 0%Z [] [] g
    /\ failure_probability RNG rvs 0 g = Raise ZeroDivisionError.
Proof.
  intros RNG rvs g. split; reflexivity.
Qed.

(** The vectorized cell, whose quotient is NumPy's, returns NaN there. *)
Lemma vectorized_zero_trials :
  PrimFloat.is_nan
    (fst (run_simulation_vectorized (list float) replay_rvs_n 0 [])) = true.
Proof. vm_compute. reflexivity. Qed.

(** ** Order of the trials *)

(** C10. The failure count of the simulation loop depends on the
    multiset of its per-trial (stress, yield strength) pairs only: two
    runs of N trials whose pairs are a permutation of one another end
    with the same failure count and the same failure-probability
    estimate. *)
Theorem failures_permutation :
  forall (T : Type) (A : Arith T) (RNG : Type)
         (rvs : norm T -> RNG -> T * RNG) (N : nat) (g g' : RNG),
    Permutation (fst (trials RNG rvs N g)) (fst (trials RNG rvs N g')) ->
    failures (run_simulation RNG rvs N g)
    = failures (run_simulation RNG rvs N g')
    /\ failure_probability RNG rvs N g = failure_probability RNG rvs N g'.
Proof.
  intros T A RNG rvs N g g' Hp.
  assert (E : failures (run_simulation RNG rvs N g)
              = failures (run_simulation RNG rvs N g')).
  { destruct (run_simulation_trials RNG rvs N g) as (-> & _).
    destruct (run_simulation_trials RNG rvs N g') as (-> & _).
    now apply count_failures_perm. }
  split; [exact E|]. unfold failure_probability. now rewrite E.
Qed.

(** Two trials, replayed in either order: stresses 150 and 225 against
    a yield strength of 200. *)
Lemma failures_permutation_witness :
  failures (run_simulation (list float) replay_rvs 2
              [60; 4; 200; 90; 4; 200]%float)
  = failures (run_simulation (list float) replay_rvs 2
              [90; 4; 200; 60; 4; 200]%float)
  /\ failure_probability (list float) replay_rvs 2
       [60; 4; 200; 90; 4; 200]%float
     = failure_probability (list float) replay_rvs 2
       [90; 4; 200; 60; 4; 200]%float.
Proof.
  apply (failures_permutation float binary64 (list float) replay_rvs 2).
  replace (fst (trials (list float) replay_rvs 2
                  [60; 4; 200; 90; 4; 200]%float))
    with [(150, 200); (225, 200)]%float by (vm_compute; reflexivity).
  replace (fst (trials (list float) replay_rvs 2
                  [90; 4; 200; 60; 4; 200]%float))
    with [(225, 200); (150, 200)]%float by (vm_compute; reflexivity).
  apply perm_swap.
Defined.

(** ** The vectorized cell *)

(** The two cells on the same draws, as long as [float(N)] is not
    zero: the batches of the vectorized cell hold the radius, thickness
    and yield strength that the loop draws trial by trial. *)
Lemma vectorized_equivalence_nonzero {T : Type} `{Arith T} (RNG : Type)
  (rvs : norm T -> RNG -> T * RNG)
  (rvs_n : norm T -> nat -> RNG -> list T * RNG) (N : nat) (g g' : RNG) :
  let b1 := rvs_n radius_dist N g' in
  let b2 := rvs_n W_dist N (snd b1) in
  let b3 := rvs_n yield_dist N (snd b2) in
  fst (samples RNG rvs N g)
  = combine (combine (fst b1) (fst b2)) (fst b3) ->
  is_zero (of_int (Z.of_nat N)) = false ->
  failure_probability RNG rvs N g
  = Ok (fst (run_simulation_vectorized RNG rvs_n N g')).
Proof.
  intros b1 b2 b3 Hs Hz.
  unfold failure_probability, summarize, py_truediv. rewrite Hz.
  destruct (run_simulation_trials RNG rvs N g) as (-> & _).
  rewrite trials_samples. cbn [fst].
  unfold run_simulation_vectorized.
  subst b1 b2 b3.
  destruct (rvs_n radius_dist N g') as [radius g1]. cbn [fst snd] in *.
  destruct (rvs_n W_dist N g1) as [W g2]. cbn [fst snd] in *.
  destruct (rvs_n yield_dist N g2) as [ys g3]. cbn [fst snd] in *.
  rewrite count_failures_map, vector_trials, Hs. reflexivity.
Qed.

(** C3, as stated, fails at N = 0.  Both cells are then given the same
    draws (none), yet they do not return equal estimates: the loop cell
    raises [ZeroDivisionError], the vectorized cell returns NaN. *)
Lemma vectorized_differs_at_zero :
  fst (samples (list float) replay_rvs 0 [])
  = combine
      (combine (fst (replay_rvs_n radius_dist 0 []))
               (fst (replay_rvs_n W_dist 0 [])))
      (fst (replay_rvs_n yield_dist 0 []))
  /\ failure_probability (list float) replay_rvs 0 []
     = Raise ZeroDivisionError
  /\ PrimFloat.is_nan
       (fst (run_simulation_vectorized (list float) replay_rvs_n 0 []))
     = true
  /\ failure_probability (list float) replay_rvs 0 []
     <> Ok (fst (run_simulation_vectorized (list float) replay_rvs_n 0 [])).
Proof.
  repeat split; try reflexivity. discriminate.
Qed.

(** C3, amended. For every N >= 1 the vectorized cell computes the
    estimator of the loop: the same formula 10 * radius / thickness,
    the same three distributions, the same strict comparison and the
    same count divided by N.  When its three batches hold the radius,
    thickness and yield strength that the loop draws trial by trial,
    the two cells return the same estimate: over the reals for every
    N >= 1, and in binary64 for every N >= 1 below 2^53. *)
Theorem vectorized_equivalence :
  forall N : nat,
    (1 <= N)%nat ->
    (forall (RNG : Type) (rvs : norm R -> RNG -> R * RNG)
            (rvs_n : norm R -> nat -> RNG -> list R * RNG) (g g' : RNG),
        let b1 := rvs_n radius_dist N g' in
        let b2 := rvs_n W_dist N (snd b1) in
        let b3 := rvs_n yield_dist N (snd b2) in
        fst (samples RNG rvs N g)
        = combine (combine (fst b1) (fst b2)) (fst b3) ->
        failure_probability RNG rvs N g
        = Ok (fst (run_simulation_vectorized RNG rvs_n N g')))
    /\ ((Z.of_nat N < 2 ^ 53)%Z ->
        forall (RNG : Type) (rvs : norm float -> RNG -> float * RNG)
               (rvs_n : norm float -> nat -> RNG -> list float * RNG)
               (g g' : RNG),
          let b1 := rvs_n radius_dist N g' in
          let b2 := rvs_n W_dist N (snd b1) in
          let b3 := rvs_n yield_dist N (snd b2) in
          fst (samples RNG rvs N g)
          = combine (combine (fst b1) (fst b2)) (fst b3) ->
          failure_probability RNG rvs N g
          = Ok (fst (run_simulation_vectorized RNG rvs_n N g'))).
Proof.
  intros N HN. split.
  - intros RNG rvs rvs_n g g' b1 b2 b3 Hs.
    apply vectorized_equivalence_nonzero; [exact Hs|].
    cbn [of_int is_zero ideal]. apply Rzerob_false.
    apply not_0_IZR. lia.
  - intros H53 RNG rvs rvs_n g g' b1 b2 b3 Hs.
    apply vectorized_equivalence_nonzero; [exact Hs|].
    cbn [of_int is_zero binary64].
    apply (binary64_ratio 0 (Z.of_nat N)); lia.
Qed.

(** Two trials: the loop's tape holds the draws trial by trial, the
    vectorized cell's tape holds them batch by batch. *)
Lemma vectorized_equivalence_witness :
  failure_probability (list float) replay_rvs 2
    [60; 4; 200; 90; 4; 200]%float
  = Ok (fst (run_simulation_vectorized (list float) replay_rvs_n 2
               [60; 90; 4; 4; 200; 200]%float)).
Proof.
  apply (proj2 (vectorized_equivalence 2 (le_S 1 1 (le_n 1))) eq_refl
           (list float) replay_rvs replay_rvs_n).
  vm_compute. reflexivity.
Defined.

(** ** The sampling loops of the integration notebook *)

Section IntegrationFacts.
Context {T : Type} `{Arith T}.
Variable RNG : Type.
Variable uniform : T -> T -> RNG -> T * RNG.
Variable pow : T -> Z -> T.
Variable numpy_sin numpy_cos : T -> T.

(** A loop that draws one point per turn and adds [f] of it. *)
Lemma loop_1d (f : T -> T) (a b : T) (N : nat) :
  forall (k : nat) (acc : T) (g : RNG),
    fold_left
      (fun (st : T * RNG) (_ : nat) =>
         let (accum, g0) := st in
         let (x, g1) := uniform a b g0 in (add accum (f x), g1))
      (seq k N) (acc, g)
    = (fold_left add (map f (fst (draws RNG uniform a b N g))) acc,
       snd (draws RNG uniform a b N g)).
Proof.
  induction N as [|N IH]; intros k acc g.
  - reflexivity.
  - simpl. destruct (uniform a b g) as [x g1]. rewrite IH.
    destruct (draws RNG uniform a b N g1) as [rest g2]. reflexivity.
Qed.

Lemma loop_2d (f : T -> T -> T) (ax bx ay by_ : T) (N : nat) :
  forall (k : nat) (acc : T) (g : RNG),
    fold_left
      (fun (st : T * RNG) (_ : nat) =>
         let (accum, g0) := st in
         let (x, g1) := uniform ax bx g0 in
         let (y, g2) := uniform ay by_ g1 in (add accum (f x y), g2))
      (seq k N) (acc, g)
    = (fold_left add
         (map (fun xy => f (fst xy) (snd xy))
              (fst (draws2 RNG uniform ax bx ay by_ N g))) acc,
       snd (draws2 RNG uniform ax bx ay by_ N g)).
Proof.
  induction N as [|N IH]; intros k acc g.
  - reflexivity.
  - simpl. destruct (uniform ax bx g) as [x g1].
    destruct (uniform ay by_ g1) as [y g2]. rewrite IH.
    destruct (draws2 RNG uniform ax bx ay by_ N g2) as [rest g3].
    reflexivity.
Qed.

Lemma first_monte_carlo_eq (N : nat) (g : RNG) :
  fst (first_monte_carlo RNG uniform pow N g)
  = py_truediv
      (mul (of_int (5 - 1)%Z)
         (accumulate
            (map (integrand_1 pow)
               (fst (draws RNG uniform (of_int 1%Z) (of_int 5%Z) N g)))))
      (of_int (Z.of_nat N)).
Proof.
  unfold first_monte_carlo, first_body.
  rewrite (loop_1d (integrand_1 pow)). reflexivity.
Qed.

(** The same loops on an accumulator that starts as a Python [int]:
    the first turn makes it a NumPy scalar, and it stays one. *)
Lemma loop_1d_numpy (f : T -> T) (a b : T) (N : nat) :
  forall (k : nat) (acc : accum_value) (g : RNG),
    fold_left
      (fun (st : accum_value * RNG) (_ : nat) =>
         let (accum, g0) := st in
         let (x, g1) := uniform a b g0 in
         (numpy_float64 (add (as_float accum) (f x)), g1))
      (seq k N) (acc, g)
    = (match N with
       | O => acc
       | S _ =>
           numpy_float64
             (fold_left add (map f (fst (draws RNG uniform a b N g)))
                (as_float acc))
       end,
       snd (draws RNG uniform a b N g)).
Proof.
  induction N as [|N IH]; intros k acc g.
  - reflexivity.
  - simpl. destruct (uniform a b g) as [x g1]. rewrite IH.
    destruct N as [|N']; [reflexivity|].
    destruct (draws RNG uniform a b (S N') g1) as [rest g2]. reflexivity.
Qed.

Lemma loop_2d_numpy (f : T -> T -> T) (ax bx ay by_ : T) (N : nat) :
  forall (k : nat) (acc : accum_value) (g : RNG),
    fold_left
      (fun (st : accum_value * RNG) (_ : nat) =>
         let (accum, g0) := st in
         let (x, g1) := uniform ax bx g0 in
         let (y, g2) := uniform ay by_ g1 in
         (numpy_float64 (add (as_float accum) (f x y)), g2))
      (seq k N) (acc, g)
    = (match N with
       | O => acc
       | S _ =>
           numpy_float64
             (fold_left add
                (map (fun xy => f (fst xy) (snd xy))
                     (fst (draws2 RNG uniform ax bx ay by_ N g)))
                (as_float acc))
       end,
       snd (draws2 RNG uniform ax bx ay by_ N g)).
Proof.
  induction N as [|N IH]; intros k acc g.
  - reflexivity.
  - simpl. destruct (uniform ax bx g) as [x g1].
    destruct (uniform ay by_ g1) as [y g2]. rewrite IH.
    destruct N as [|N']; [reflexivity|].
    destruct (draws2 RNG uniform ax bx ay by_ (S N') g2) as [rest g3].
    reflexivity.
Qed.

(** The second and third cells: with no sample the accumulator is still
    the integer 0 and the division is Python's; with one sample or more
    it is a NumPy scalar and the division is NumPy's. *)
Lemma second_monte_carlo_eq (N : nat) (g : RNG) :
  fst (second_monte_carlo RNG uniform pow numpy_sin N g)
  = match N with
    | O => py_truediv (of_int ((3 - 2) * 0)%Z) (of_int (Z.of_nat 0))
    | S _ =>
        Ok (div
              (mul (of_int (3 - 2)%Z)
                 (accumulate
                    (map (integrand_2 pow numpy_sin)
                       (fst (draws RNG uniform (of_int 2%Z) (of_int 3%Z)
                               N g)))))
              (of_int (Z.of_nat N)))
    end.
Proof.
  unfold second_monte_carlo, second_body.
  rewrite (loop_1d_numpy (integrand_2 pow numpy_sin)).
  destruct N; reflexivity.
Qed.

Lemma third_monte_carlo_eq (N : nat) (g : RNG) :
  fst (third_monte_carlo RNG uniform pow numpy_cos N g)
  = match N with
    | O => py_truediv (of_int (2 * 1 * 0)%Z) (of_int (Z.of_nat 0))
    | S _ =>
        Ok (div
              (mul (of_int (2 * 1)%Z)
                 (accumulate
                    (map (fun xy =>
                            integrand_3 pow numpy_cos (fst xy) (snd xy))
                       (fst (draws2 RNG uniform (of_int 4%Z) (of_int 6%Z)
                               (of_int 0%Z) (of_int 1%Z) N g)))))
              (of_int (Z.of_nat N)))
    end.
Proof.
  unfold third_monte_carlo, third_body.
  rewrite (loop_2d_numpy (integrand_3 pow numpy_cos)).
  destruct N; reflexivity.
Qed.

Lemma second_monte_carlo_pos (N : nat) (g : RNG) :
  (1 <= N)%nat ->
  fst (second_monte_carlo RNG uniform pow numpy_sin N g)
  = Ok (div
          (mul (of_int (3 - 2)%Z)
             (accumulate
                (map (integrand_2 pow numpy_sin)
                   (fst (draws RNG uniform (of_int 2%Z) (of_int 3%Z) N g)))))
          (of_int (Z.of_nat N))).
Proof.
  intros HN. rewrite second_monte_carlo_eq. destruct N; [lia|reflexivity].
Qed.

Lemma third_monte_carlo_pos (N : nat) (g : RNG) :
  (1 <= N)%nat ->
  fst (third_monte_carlo RNG uniform pow numpy_cos N g)
  = Ok (div
          (mul (of_int (2 * 1)%Z)
             (accumulate
                (map (fun xy => integrand_3 pow numpy_cos (fst xy) (snd xy))
                   (fst (draws2 RNG uniform (of_int 4%Z) (of_int 6%Z)
                           (of_int 0%Z) (of_int 1%Z) N g)))))
          (of_int (Z.of_nat N))).
Proof.
  intros HN. rewrite third_monte_carlo_eq. destruct N; [lia|reflexivity].
Qed.

End IntegrationFacts.

Lemma N_samples_Z : Z.of_nat N_samples = 100000%Z.
Proof. unfold N_samples. now rewrite Z2Nat.id. Qed.

Lemma N_samples_pos : (1 <= N_samples)%nat.
Proof. unfold N_samples. lia. Qed.

(** [float(N)] for the sample count of the integration cells. *)
Lemma float_N_samples : float_of_Z (Z.of_nat N_samples) = 100000%float.
Proof. rewrite N_samples_Z. vm_compute. reflexivity. Qed.

(** [float(100000)] has the significand 100000 * 2^36. *)
Lemma float_100000_shape :
  Prim2SF 100000%float = S754_finite false 6871947673600000 (-36).
Proof. reflexivity. Qed.

(** C4. The sampling cells return the sample-mean estimate: the measure
    of the region times the accumulated sum of the integrand at the
    N = 100000 drawn points, over N.  For the first integral the points
    are drawn uniformly between 1 and 5 and the measure is 5 - 1; for
    the 2D integral every point takes x uniformly between 4 and 6, then
    y uniformly between 0 and 1, by two successive draws, and the
    measure is 2 = (6 - 4) * (1 - 0).  Over the reals this is
    measure * (sum / N).  binary64 rounds the product measure * sum
    first and then the quotient by N; the measures 4 and 2 being powers
    of two, that is measure * (sum / N) bit for bit, as long as the sum
    is between 2^-500 and 2^500 in magnitude. *)
Theorem monte_carlo_estimate :
  (forall (RNG : Type) (uniform : R -> R -> RNG -> R * RNG)
          (pow : R -> Z -> R) (g : RNG),
      fst (first_monte_carlo RNG uniform pow N_samples g)
      = Ok (sample_mean_estimate (5 - 1)
              (map (integrand_1 pow)
                 (fst (draws RNG uniform 1%R 5%R N_samples g)))
              N_samples))
  /\ (forall (RNG : Type) (uniform : R -> R -> RNG -> R * RNG)
             (pow : R -> Z -> R) (numpy_cos : R -> R) (g : RNG),
      fst (third_monte_carlo RNG uniform pow numpy_cos N_samples g)
      = Ok (sample_mean_estimate ((6 - 4) * (1 - 0))
              (map (fun xy => integrand_3 pow numpy_cos (fst xy) (snd xy))
                 (fst (draws2 RNG uniform 4%R 6%R 0%R 1%R N_samples g)))
              N_samples))
  /\ (forall (RNG : Type) (uniform : float -> float -> RNG -> float * RNG)
             (pow : float -> Z -> float) (g : RNG),
      let accum :=
        accumulate
          (map (integrand_1 pow)
             (fst (draws RNG uniform 1%float 5%float N_samples g))) in
      fst (first_monte_carlo RNG uniform pow N_samples g)
      = Ok (4 * accum / 100000)%float
      /\ (PrimFloat.leb 0x1p-500%float (abs accum) = true ->
          PrimFloat.leb (abs accum) 0x1p+500%float = true ->
          fst (first_monte_carlo RNG uniform pow N_samples g)
          = Ok (4 * (accum / 100000))%float))
  /\ (forall (RNG : Type) (uniform : float -> float -> RNG -> float * RNG)
             (pow : float -> Z -> float) (numpy_cos : float -> float)
             (g : RNG),
      let accum :=
        accumulate
          (map (fun xy => integrand_3 pow numpy_cos (fst xy) (snd xy))
             (fst (draws2 RNG uniform 4%float 6%float 0%float 1%float
                     N_samples g))) in
      fst (third_monte_carlo RNG uniform pow numpy_cos N_samples g)
      = Ok (2 * accum / 100000)%float
      /\ (PrimFloat.leb 0x1p-500%float (abs accum) = true ->
          PrimFloat.leb (abs accum) 0x1p+500%float = true ->
          fst (third_monte_carlo RNG uniform pow numpy_cos N_samples g)
          = Ok (2 * (accum / 100000))%float)).
Proof.
  split; [|split; [|split]].
  - intros RNG uniform pow g. rewrite first_monte_carlo_eq.
    unfold py_truediv, sample_mean_estimate. cbn [of_int is_zero mul div ideal].
    rewrite N_samples_Z, Rzerob_false by lra.
    f_equal. unfold Rdiv. apply Rmult_assoc.
  - intros RNG uniform pow numpy_cos g.
    rewrite third_monte_carlo_pos by exact N_samples_pos.
    unfold sample_mean_estimate. cbn [of_int mul div ideal].
    rewrite N_samples_Z. f_equal. unfold Rdiv. apply Rmult_assoc.
  - intros RNG uniform pow g accum.
    assert (E : fst (first_monte_carlo RNG uniform pow N_samples g)
                = Ok (4 * accum / 100000)%float).
    { rewrite first_monte_carlo_eq.
      unfold py_truediv. cbn [of_int is_zero mul div binary64].
      rewrite float_N_samples. reflexivity. }
    split; [exact E|]. intros Hlo Hhi. rewrite E. f_equal.
    apply (scale_div_commute 4 accum 100000 (-50) (-36) 6871947673600000);
      try reflexivity; try assumption; lia.
  - intros RNG uniform pow numpy_cos g accum.
    assert (E : fst (third_monte_carlo RNG uniform pow numpy_cos N_samples g)
                = Ok (2 * accum / 100000)%float).
    { rewrite third_monte_carlo_pos by exact N_samples_pos.
      cbn [of_int mul div binary64].
      rewrite float_N_samples. reflexivity. }
    split; [exact E|]. intros Hlo Hhi. rewrite E. f_equal.
    apply (scale_div_commute 2 accum 100000 (-51) (-36) 6871947673600000);
      try reflexivity; try assumption; lia.
Qed.

(** The first sampling cell on an exhausted tape, which answers 1 at
    every draw: the sum is 100000 and the estimate 4. *)
Lemma monte_carlo_estimate_witness :
  fst (first_monte_carlo (list float) replay_uniform
         (fun x _ => x * x)%float N_samples [])
  = Ok (4
        * (accumulate
             (map (integrand_1 (fun x _ => x * x)%float)
                (fst (draws (list float) replay_uniform 1 5 N_samples [])))
           / 100000))%float.
Proof.
  apply (proj1 (proj2 (proj2 monte_carlo_estimate)) (list float)
           replay_uniform (fun x _ => x * x)%float []);
    vm_compute; reflexivity.
Defined.

(** ** Antiderivatives *)

Section AntiderivativeFacts.
Local Open Scope R_scope.

(** Two functions whose derivatives stay within [eps] of one another
    on [[a, b]] grow by amounts within [eps * (b - a)]. *)
Lemma antiderivative_diff_bound (f g F G : R -> R) (a b eps : R) :
  a < b ->
  antiderivative_on f F a b ->
  antiderivative_on g G a b ->
  (forall x, a <= x <= b -> Rabs (f x - g x) <= eps) ->
  Rabs ((F b - F a) - (G b - G a)) <= eps * (b - a).
Proof.
  intros Hab HF HG Hfg.
  destruct (MVT_cor2 (F - G)%F (fun x => f x - g x) a b Hab) as (c & Hc & Hin).
  - intros x Hx. apply derivable_pt_lim_minus; [apply HF|apply HG]; exact Hx.
  - unfold minus_fct in Hc.
    replace (F b - F a - (G b - G a)) with (F b - G b - (F a - G a)) by ring.
    rewrite Hc, Rabs_mult, (Rabs_pos_eq (b - a)) by lra.
    apply Rmult_le_compat_r; [lra|]. apply Hfg. lra.
Qed.

Lemma antiderivative_unique (f F G : R -> R) (a b : R) :
  a < b ->
  antiderivative_on f F a b ->
  antiderivative_on f G a b ->
  F b - F a = G b - G a.
Proof.
  intros Hab HF HG.
  pose proof (antiderivative_diff_bound f f F G a b 0 Hab HF HG) as B.
  assert (H0 : Rabs (F b - F a - (G b - G a)) <= 0 * (b - a)).
  { apply B. intros x _. replace (f x - f x) with 0 by ring.
    rewrite Rabs_R0. lra. }
  rewrite Rmult_0_l in H0.
  pose proof (Rabs_pos (F b - F a - (G b - G a))) as P.
  assert (Z0 : Rabs (F b - F a - (G b - G a)) = 0) by lra.
  destruct (Req_dec (F b - F a - (G b - G a)) 0) as [E|E]; [lra|].
  apply Rabs_no_R0 in E. contradiction.
Qed.

Lemma derivable_pt_lim_cube (x : R) :
  derivable_pt_lim (fun y => y ^ 3 / 3) x (x ^ 2).
Proof.
  apply derivable_pt_lim_ext with (f := mult_real_fct (/ 3) (fun y => y ^ 3)).
  - intros y. unfold mult_real_fct. field.
  - replace (x ^ 2) with (/ 3 * (INR 3 * x ^ pred 3)) by (simpl; field).
    apply derivable_pt_lim_scal, derivable_pt_lim_pow.
Qed.

End AntiderivativeFacts.

(** ** The first integral *)

(** C5. The analytical cell of the first integral, the antiderivative
    of x^2 at 5 minus at 1, is exactly the rational 124/3, and the
    binary64 conversion of 124/3 is 41.333333333333336. *)
Theorem first_analytical_value :
  forall integrate : (R -> R) -> R -> R,
    antiderivative_on expr_1 (integrate expr_1) 1 5 ->
    first_analytical integrate = (124 / 3)%R
    /\ @lit R _ (124 # 3) = (124 / 3)%R
    /\ @lit float _ (124 # 3) = 41.333333333333336%float.
Proof.
  intros integrate Hi. split; [|split].
  - unfold first_analytical.
    rewrite (antiderivative_unique expr_1 (integrate expr_1)
               (fun y => y ^ 3 / 3)%R 1 5); [field|lra|exact Hi|].
    intros x _. apply derivable_pt_lim_cube.
  - reflexivity.
  - vm_compute. reflexivity.
Qed.

(** SymPy's answer for x^2 is x^3/3. *)
Lemma first_analytical_value_witness :
  first_analytical (fun _ x => x ^ 3 / 3)%R = (124 / 3)%R
  /\ @lit R _ (124 # 3) = (124 / 3)%R
  /\ @lit float _ (124 # 3) = 41.333333333333336%float.
Proof.
  apply (first_analytical_value (fun _ x => x ^ 3 / 3)%R).
  intros x _. apply derivable_pt_lim_cube.
Defined.

(** ** Enclosures are sound *)

Section EnclosureFacts.
Local Open Scope R_scope.

Lemma fix_scale_pos : (0 < fix_scale)%Z.
Proof. reflexivity. Qed.

Lemma fix_scale_Rpos : 0 < IZR fix_scale.
Proof. apply (IZR_lt 0). exact fix_scale_pos. Qed.

Lemma floor_bound (a b : Z) :
  (0 < b)%Z -> IZR (a / b) * IZR b <= IZR a.
Proof.
  intros Hb. rewrite <- mult_IZR. apply IZR_le.
  rewrite Z.mul_comm. now apply Z.mul_div_le.
Qed.

Lemma ceil_bound (a b : Z) :
  (0 < b)%Z -> IZR a <= IZR (cdiv a b) * IZR b.
Proof.
  intros Hb. rewrite <- mult_IZR. apply IZR_le. unfold cdiv.
  pose proof (Z.mul_div_le (- a) b Hb). lia.
Qed.

Lemma product_lower (a b c d X Y m : R) :
  a <= X <= b -> c <= Y <= d ->
  m <= a * c -> m <= a * d -> m <= b * c -> m <= b * d ->
  m <= X * Y.
Proof.
  intros HX HY H1 H2 H3 H4.
  destruct (Rle_dec 0 Y) as [HY0|HY0].
  - assert (a * Y <= X * Y) by nra.
    destruct (Rle_dec 0 a); nra.
  - assert (b * Y <= X * Y) by nra.
    destruct (Rle_dec 0 b); nra.
Qed.

Lemma product_upper (a b c d X Y M : R) :
  a <= X <= b -> c <= Y <= d ->
  a * c <= M -> a * d <= M -> b * c <= M -> b * d <= M ->
  X * Y <= M.
Proof.
  intros HX HY H1 H2 H3 H4.
  destruct (Rle_dec 0 Y) as [HY0|HY0].
  - assert (X * Y <= b * Y) by nra.
    destruct (Rle_dec 0 b); nra.
  - assert (X * Y <= a * Y) by nra.
    destruct (Rle_dec 0 a); nra.
Qed.

Lemma encloses_add (I J : enclosure) (x y : R) :
  encloses I x -> encloses J y -> encloses (e_add I J) (x + y).
Proof.
  unfold encloses, e_add; simpl. rewrite !plus_IZR. lra.
Qed.

Lemma encloses_sub (I J : enclosure) (x y : R) :
  encloses I x -> encloses J y -> encloses (e_sub I J) (x - y).
Proof.
  unfold encloses, e_sub; simpl. rewrite !minus_IZR. lra.
Qed.

Lemma encloses_scale (k : Z) (I : enclosure) (x : R) :
  encloses I x -> encloses (e_scale k I) (IZR k * x).
Proof.
  unfold encloses, e_scale. intros H.
  destruct (Z.leb_spec 0 k) as [Hk|Hk]; simpl; rewrite !mult_IZR.
  - apply IZR_le in Hk. nra.
  - apply IZR_lt in Hk. nra.
Qed.

Lemma encloses_mul (I J : enclosure) (x y : R) :
  encloses I x -> encloses J y -> encloses (e_mul I J) (x * y).
Proof.
  unfold encloses, e_mul. intros HI HJ. simpl.
  set (p1 := (lo I * lo J)%Z). set (p2 := (lo I * hi J)%Z).
  set (p3 := (hi I * lo J)%Z). set (p4 := (hi I * hi J)%Z).
  set (m := Z.min (Z.min p1 p2) (Z.min p3 p4)).
  set (M := Z.max (Z.max p1 p2) (Z.max p3 p4)).
  pose proof fix_scale_Rpos as HS.
  assert (Hm : IZR m <= (x * IZR fix_scale) * (y * IZR fix_scale)).
  { apply (product_lower _ _ _ _ _ _ _ HI HJ); rewrite <- mult_IZR;
      apply IZR_le; subst m p1 p2 p3 p4; lia. }
  assert (HM : (x * IZR fix_scale) * (y * IZR fix_scale) <= IZR M).
  { apply (product_upper _ _ _ _ _ _ _ HI HJ); rewrite <- mult_IZR;
      apply IZR_le; subst M p1 p2 p3 p4; lia. }
  pose proof (floor_bound m fix_scale fix_scale_pos) as Hf.
  pose proof (ceil_bound M fix_scale fix_scale_pos) as Hc.
  split.
  - apply Rmult_le_reg_r with (IZR fix_scale); [exact HS|]. nra.
  - apply Rmult_le_reg_r with (IZR fix_scale); [exact HS|]. nra.
Qed.

Lemma encloses_between (l h : Q) (x : R) :
  Q2R l <= x <= Q2R h -> encloses (e_between l h) x.
Proof.
  unfold encloses, e_between, Q2R. simpl. intros [Hl Hh].
  pose proof fix_scale_Rpos as HS.
  assert (Dl : 0 < IZR (Zpos (Qden l))) by (apply (IZR_lt 0); reflexivity).
  assert (Dh : 0 < IZR (Zpos (Qden h))) by (apply (IZR_lt 0); reflexivity).
  pose proof (floor_bound (Qnum l * fix_scale) (Zpos (Qden l)) eq_refl) as Hf.
  pose proof (ceil_bound (Qnum h * fix_scale) (Zpos (Qden h)) eq_refl) as Hc.
  rewrite mult_IZR in Hf, Hc.
  split.
  - apply Rmult_le_reg_r with (IZR (Zpos (Qden l))); [exact Dl|].
    eapply Rle_trans; [exact Hf|].
    apply Rmult_le_compat_r with (r := IZR (Zpos (Qden l)) * IZR fix_scale) in Hl;
      [|nra].
    replace (IZR (Qnum l) * / IZR (Zpos (Qden l))
             * (IZR (Zpos (Qden l)) * IZR fix_scale))
      with (IZR (Qnum l) * IZR fix_scale) in Hl by (field; lra).
    lra.
  - apply Rmult_le_reg_r with (IZR (Zpos (Qden h))); [exact Dh|].
    eapply Rle_trans; [|exact Hc].
    apply Rmult_le_compat_r with (r := IZR (Zpos (Qden h)) * IZR fix_scale) in Hh;
      [|nra].
    replace (IZR (Qnum h) * / IZR (Zpos (Qden h))
             * (IZR (Zpos (Qden h)) * IZR fix_scale))
      with (IZR (Qnum h) * IZR fix_scale) in Hh by (field; lra).
    lra.
Qed.

Lemma encloses_of_Q (q : Q) : encloses (e_of_Q q) (Q2R q).
Proof. apply encloses_between. lra. Qed.

End EnclosureFacts.

(** ** The sine and cosine series at a rational *)

Section SeriesFacts.
Local Open Scope R_scope.

Lemma INR_fact_Pfact (n : nat) : INR (fact n) = IZR (Zpos (Pfact n)).
Proof.
  induction n as [|n IH].
  - reflexivity.
  - rewrite fact_simpl, mult_INR, IH. simpl Pfact.
    rewrite Pos2Z.inj_mul, mult_IZR, INR_IZR_INZ.
    now rewrite Zpos_P_of_succ_nat, <- Nat2Z.inj_succ.
Qed.

Lemma Q2R_Qpow (a : Q) (n : nat) : Q2R (Qpow a n) = Q2R a ^ n.
Proof.
  induction n as [|n IH].
  - unfold Q2R; simpl. lra.
  - change (Qpow a (S n)) with (Qred (a * Qpow a n)).
    rewrite (Qeq_eqR _ _ (Qred_correct _)), Q2R_mult, IH. reflexivity.
Qed.

Lemma Q2R_Qsum (f : nat -> Q) (g : nat -> R) (n : nat) :
  (forall i, Q2R (f i) = g i) -> Q2R (Qsum f n) = sum_f_R0 g n.
Proof.
  intros Hfg. induction n as [|n IH].
  - apply Hfg.
  - change (Qsum f (S n)) with (Qred (Qsum f n + f (S n))).
    rewrite (Qeq_eqR _ _ (Qred_correct _)), Q2R_plus, IH, Hfg. reflexivity.
Qed.

Lemma Q2R_unit_fraction (p : positive) : Q2R (1 # p) = / IZR (Zpos p).
Proof. unfold Q2R; simpl. lra. Qed.

Lemma Q2R_minus_one : Q2R (-1) = -1.
Proof. unfold Q2R; simpl. lra. Qed.

Lemma Q2R_sin_term (a : Q) (i : nat) :
  Q2R (sin_term_Q a i) = sin_term (Q2R a) i.
Proof.
  unfold sin_term_Q, sin_term.
  rewrite !Q2R_mult, !Q2R_Qpow, Q2R_unit_fraction, INR_fact_Pfact,
    Q2R_minus_one.
  reflexivity.
Qed.

Lemma Q2R_cos_term (a : Q) (i : nat) :
  Q2R (cos_term_Q a i) = cos_term (Q2R a) i.
Proof.
  unfold cos_term_Q, cos_term.
  rewrite !Q2R_mult, !Q2R_Qpow, Q2R_unit_fraction, INR_fact_Pfact,
    Q2R_minus_one.
  reflexivity.
Qed.

Lemma Q2R_inject_Z (z : Z) : Q2R (z # 1) = IZR z.
Proof. unfold Q2R; simpl. lra. Qed.

Lemma Qle_bool_Rle (x y : Q) : Qle_bool x y = true -> Q2R x <= Q2R y.
Proof. intros Hxy. apply Qle_Rle. now apply Qle_bool_iff. Qed.

Lemma Qle_bool_Rlt (x y : Q) : Qle_bool x y = false -> Q2R y < Q2R x.
Proof.
  intros Hxy. apply Qlt_Rlt. apply Qnot_le_lt. intros Hle.
  apply Qle_bool_iff in Hle. congruence.
Qed.

Lemma encloses_sin (a : Q) (n : nat) :
  Qle_bool 0 a && Qle_bool a 4 = true ->
  encloses (e_sin a n) (sin (Q2R a)).
Proof.
  intros Ha. apply andb_prop in Ha. destruct Ha as [H0 H4].
  apply Qle_bool_Rle in H0, H4.
  rewrite Q2R_inject_Z in H0, H4.
  apply encloses_between.
  rewrite !(Q2R_Qsum _ _ _ (Q2R_sin_term a)).
  apply pre_sin_bound; assumption.
Qed.

Lemma encloses_cos (a : Q) (n : nat) :
  Qle_bool (-2) a && Qle_bool a 2 = true ->
  encloses (e_cos a n) (cos (Q2R a)).
Proof.
  intros Ha. apply andb_prop in Ha. destruct Ha as [H0 H2].
  apply Qle_bool_Rle in H0, H2.
  rewrite Q2R_inject_Z in H0, H2.
  apply encloses_between.
  rewrite !(Q2R_Qsum _ _ _ (Q2R_cos_term a)).
  apply pre_cos_bound; assumption.
Qed.

Lemma encloses_double (sc : enclosure * enclosure) (x : R) :
  encloses (fst sc) (sin x) -> encloses (snd sc) (cos x) ->
  encloses (fst (e_double sc)) (sin (2 * x))
  /\ encloses (snd (e_double sc)) (cos (2 * x)).
Proof.
  destruct sc as [s c]. simpl. intros Hs Hc. split.
  - rewrite sin_2a.
    replace (2 * sin x * cos x) with (IZR 2 * (sin x * cos x)) by ring.
    apply encloses_scale, encloses_mul; assumption.
  - rewrite cos_2a. apply encloses_sub; apply encloses_mul; assumption.
Qed.

Lemma encloses_double_iter (n : nat) (sc : enclosure * enclosure) (x : R) :
  encloses (fst sc) (sin x) -> encloses (snd sc) (cos x) ->
  encloses (fst (Nat.iter n e_double sc)) (sin (2 ^ n * x))
  /\ encloses (snd (Nat.iter n e_double sc)) (cos (2 ^ n * x)).
Proof.
  intros Hs Hc. induction n as [|n [IHs IHc]].
  - simpl. now rewrite Rmult_1_l.
  - simpl Nat.iter.
    replace (2 ^ S n * x) with (2 * (2 ^ n * x)) by (simpl; ring).
    now apply encloses_double.
Qed.

Lemma encloses_within (I : enclosure) (x : R) (c eps : Q) :
  encloses I x -> e_within I c eps = true ->
  Rabs (x - Q2R c) < Q2R eps.
Proof.
  unfold encloses, e_within. intros [Hl Hh] Hw.
  apply andb_prop in Hw. destruct Hw as [Hw1 Hw2].
  apply negb_true_iff in Hw1, Hw2.
  apply Qle_bool_Rlt in Hw1, Hw2.
  unfold inject_Z in Hw1, Hw2.
  rewrite Q2R_mult, !Q2R_inject_Z in Hw1, Hw2.
  rewrite Q2R_minus in Hw1. rewrite Q2R_plus in Hw2.
  pose proof fix_scale_Rpos as HS.
  apply Rabs_def1.
  - apply Rmult_lt_reg_r with (IZR fix_scale); [exact HS|]. nra.
  - apply Rmult_lt_reg_r with (IZR fix_scale); [exact HS|]. nra.
Qed.

End SeriesFacts.

(** ** Derivatives, in pointwise form *)

Section DerivativeFacts.
Local Open Scope R_scope.

Lemma D_eq (f : R -> R) (x l l' : R) :
  derivable_pt_lim f x l -> l = l' -> derivable_pt_lim f x l'.
Proof. now intros Hf <-. Qed.

Lemma D_const (c x : R) : derivable_pt_lim (fun _ => c) x 0.
Proof. exact (derivable_pt_lim_const c x). Qed.

Lemma D_id (x : R) : derivable_pt_lim (fun y => y) x 1.
Proof. exact (derivable_pt_lim_id x). Qed.

Lemma D_plus (f g : R -> R) (x l1 l2 : R) :
  derivable_pt_lim f x l1 -> derivable_pt_lim g x l2 ->
  derivable_pt_lim (fun y => f y + g y) x (l1 + l2).
Proof. exact (derivable_pt_lim_plus f g x l1 l2). Qed.

Lemma D_minus (f g : R -> R) (x l1 l2 : R) :
  derivable_pt_lim f x l1 -> derivable_pt_lim g x l2 ->
  derivable_pt_lim (fun y => f y - g y) x (l1 - l2).
Proof. exact (derivable_pt_lim_minus f g x l1 l2). Qed.

Lemma D_opp (f : R -> R) (x l : R) :
  derivable_pt_lim f x l -> derivable_pt_lim (fun y => - f y) x (- l).
Proof. exact (derivable_pt_lim_opp f x l). Qed.

Lemma D_mult (f g : R -> R) (x l1 l2 : R) :
  derivable_pt_lim f x l1 -> derivable_pt_lim g x l2 ->
  derivable_pt_lim (fun y => f y * g y) x (l1 * g x + f x * l2).
Proof. exact (derivable_pt_lim_mult f g x l1 l2). Qed.

Lemma D_pow (f : R -> R) (n : nat) (x l : R) :
  derivable_pt_lim f x l ->
  derivable_pt_lim (fun y => f y ^ n) x (INR n * f x ^ pred n * l).
Proof.
  intros Hf.
  exact (derivable_pt_lim_comp f (fun y => y ^ n) x l _ Hf
           (derivable_pt_lim_pow (f x) n)).
Qed.

Lemma D_sin (f : R -> R) (x l : R) :
  derivable_pt_lim f x l ->
  derivable_pt_lim (fun y => sin (f y)) x (cos (f x) * l).
Proof.
  intros Hf.
  exact (derivable_pt_lim_comp f sin x l _ Hf (derivable_pt_lim_sin (f x))).
Qed.

Lemma D_cos (f : R -> R) (x l : R) :
  derivable_pt_lim f x l ->
  derivable_pt_lim (fun y => cos (f y)) x (- sin (f x) * l).
Proof.
  intros Hf.
  exact (derivable_pt_lim_comp f cos x l _ Hf (derivable_pt_lim_cos (f x))).
Qed.

Lemma D_inv (f : R -> R) (x l : R) :
  derivable_pt_lim f x l -> f x <> 0 ->
  derivable_pt_lim (fun y => / f y) x (- l / (f x) ^ 2).
Proof.
  intros Hf Hx.
  apply derivable_pt_lim_ext with (f := (fct_cte 1 / f)%F).
  - intros y. unfold div_fct, fct_cte. apply Rmult_1_l.
  - eapply D_eq.
    + apply derivable_pt_lim_div;
        [apply derivable_pt_lim_const|exact Hf|exact Hx].
    + unfold fct_cte, Rsqr. field. exact Hx.
Qed.

End DerivativeFacts.

Ltac derive_step :=
  match goal with
  | |- derivable_pt_lim sin _ _ => apply derivable_pt_lim_sin
  | |- derivable_pt_lim cos _ _ => apply derivable_pt_lim_cos
  | |- derivable_pt_lim (Rmult ?c) ?x _ =>
      eapply (D_mult (fun _ => c) (fun y => y) x)
  | |- derivable_pt_lim (fun _ => ?c) _ _ => apply D_const
  | |- derivable_pt_lim (fun y => y) _ _ => apply D_id
  | |- derivable_pt_lim (fun y => (_ - _)%R) _ _ => eapply D_minus
  | |- derivable_pt_lim (fun y => (_ + _)%R) _ _ => eapply D_plus
  | |- derivable_pt_lim (fun y => (_ * _)%R) _ _ => eapply D_mult
  | |- derivable_pt_lim (fun y => (_ ^ _)%R) _ _ => eapply D_pow
  | |- derivable_pt_lim (fun y => (- _)%R) _ _ => eapply D_opp
  | |- derivable_pt_lim (fun y => (/ _)%R) _ _ => eapply D_inv
  | |- derivable_pt_lim (fun y => sin _) _ _ => eapply D_sin
  | |- derivable_pt_lim (fun y => cos _) _ _ => eapply D_cos
  end.

Lemma primitive_2_derivative (x : R) :
  derivable_pt_lim primitive_2 x (expr_2 x).
Proof.
  unfold primitive_2, expr_2.
  eapply D_eq; [repeat derive_step|]. simpl. field.
Qed.

(** Builds the enclosure of an arithmetic expression from those of its
    leaves, following its syntax. *)
Ltac enclose_step :=
  match goal with
  | |- encloses _ (_ + _)%R => apply encloses_add
  | |- encloses _ (_ - _)%R => apply encloses_sub
  | |- encloses _ (IZR _ * _)%R => apply encloses_scale
  | |- encloses _ (_ * _)%R => apply encloses_mul
  | |- encloses _ (Q2R _) => apply encloses_of_Q
  | H : encloses _ ?y |- encloses _ ?x => constr_eq x y; exact H
  end.

(** ** The second integral *)

Section SecondIntegral.
Local Open Scope R_scope.

Lemma encloses_sin_at (a : Q) (n : nat) (x : R) :
  x = Q2R a -> Qle_bool 0 a && Qle_bool a 4 = true ->
  encloses (e_sin a n) (sin x).
Proof. intros ->. apply encloses_sin. Qed.

Lemma encloses_cos_at (a : Q) (n : nat) (x : R) :
  x = Q2R a -> Qle_bool (-2) a && Qle_bool a 2 = true ->
  encloses (e_cos a n) (cos x).
Proof. intros ->. apply encloses_cos. Qed.

(** [sin] and [cos] of [2^k * a] for a rational [a] between 0 and 2. *)
Lemma encloses_sin_cos_at (a : Q) (k n : nat) (x : R) :
  x = 2 ^ k * Q2R a ->
  Qle_bool 0 a && Qle_bool a 2 = true ->
  encloses (fst (Nat.iter k e_double (e_sin a n, e_cos a n))) (sin x)
  /\ encloses (snd (Nat.iter k e_double (e_sin a n, e_cos a n))) (cos x).
Proof.
  intros -> Ha. apply andb_prop in Ha. destruct Ha as [H0 H2].
  apply encloses_double_iter; simpl.
  - apply encloses_sin. rewrite H0. simpl.
    apply Qle_bool_iff. apply Qle_bool_iff in H2.
    apply Qle_trans with 2%Q; [exact H2|discriminate].
  - apply encloses_cos. rewrite H2, andb_true_r.
    apply Qle_bool_iff. apply Qle_bool_iff in H0.
    apply Qle_trans with 0%Q; [discriminate|exact H0].
Qed.

Lemma primitive_2_value :
  Rabs (primitive_2 3 - primitive_2 2 - 11.811358925098283) < 1e-9.
Proof.
  replace (primitive_2 3 - primitive_2 2)
    with (Q2R (19 # 3) + IZR 4 * sin 3 - IZR 12 * cos 3
          - IZR 4 * sin 2 + IZR 8 * cos 2)
    by (unfold primitive_2, Q2R; simpl; field).
  replace 1e-9 with (Q2R (1 # 1000000000)) by (unfold Q2R; simpl; lra).
  assert (E2 : 2 = Q2R 2) by (unfold Q2R; simpl; lra).
  assert (E3 : 3 = Q2R 3) by (unfold Q2R; simpl; lra).
  assert (E3' : 3 = 2 ^ 1 * Q2R (3 # 2)) by (unfold Q2R; simpl; lra).
  assert (S2 : encloses (e_sin 2 20) (sin 2))
    by (apply encloses_sin_at; [exact E2|reflexivity]).
  assert (C2 : encloses (e_cos 2 20) (cos 2))
    by (apply encloses_cos_at; [exact E2|reflexivity]).
  assert (S3 : encloses (e_sin 3 25) (sin 3))
    by (apply encloses_sin_at; [exact E3|reflexivity]).
  assert (C3 : encloses
                 (snd (Nat.iter 1 e_double (e_sin (3 # 2) 20, e_cos (3 # 2) 20)))
                 (cos 3))
    by (apply encloses_sin_cos_at; [exact E3'|reflexivity]).
  clear E2 E3 E3'.
  eapply encloses_within.
  - repeat enclose_step.
  - vm_compute. reflexivity.
Qed.

End SecondIntegral.

(** C6. The second integral is computed over [[2, 3]] on both paths,
    whatever the task text says.  The analytical cell substitutes the
    upper bound 3 and the lower bound 2 in the antiderivative, and its
    value is within 1e-9 of 11.811358925098283; the sampling cell draws
    its points uniformly between 2 and 3 and takes 3 - 2 as the
    measure. *)
Theorem second_integral_bounds :
  forall integrate : (R -> R) -> R -> R,
    antiderivative_on expr_2 (integrate expr_2) 2 3 ->
    second_analytical integrate
    = (integrate expr_2 3 - integrate expr_2 2)%R
    /\ (Rabs (second_analytical integrate - 11.811358925098283) < 1e-9)%R
    /\ (forall (RNG : Type) (uniform : R -> R -> RNG -> R * RNG)
               (pow : R -> Z -> R) (numpy_sin : R -> R) (g : RNG),
           fst (second_monte_carlo RNG uniform pow numpy_sin N_samples g)
           = Ok (sample_mean_estimate (3 - 2)
                   (map (integrand_2 pow numpy_sin)
                      (fst (draws RNG uniform 2%R 3%R N_samples g)))
                   N_samples))
    /\ (forall (RNG : Type) (uniform : float -> float -> RNG -> float * RNG)
               (pow : float -> Z -> float) (numpy_sin : float -> float)
               (g : RNG),
           fst (second_monte_carlo RNG uniform pow numpy_sin N_samples g)
           = Ok (float_of_Z (3 - 2)
                 * accumulate
                     (map (integrand_2 pow numpy_sin)
                        (fst (draws RNG uniform 2 3 N_samples g)))
                 / 100000)%float).
Proof.
  intros integrate Hi. split; [reflexivity|split; [|split]].
  - unfold second_analytical.
    rewrite (antiderivative_unique expr_2 (integrate expr_2) primitive_2 2 3).
    + exact primitive_2_value.
    + lra.
    + exact Hi.
    + intros x _. apply primitive_2_derivative.
  - intros RNG uniform pow numpy_sin g.
    rewrite second_monte_carlo_pos by exact N_samples_pos.
    unfold sample_mean_estimate. cbn [of_int mul div ideal].
    rewrite N_samples_Z. f_equal. unfold Rdiv. apply Rmult_assoc.
  - intros RNG uniform pow numpy_sin g.
    rewrite second_monte_carlo_pos by exact N_samples_pos.
    cbn [of_int mul div binary64].
    rewrite float_N_samples. reflexivity.
Qed.

(** SymPy's antiderivative of the second integrand, up to a constant. *)
Lemma second_integral_bounds_witness :
  (Rabs (second_analytical (fun _ => primitive_2) - 11.811358925098283)
   < 1e-9)%R.
Proof.
  apply (second_integral_bounds (fun _ => primitive_2)).
  intros x _. apply primitive_2_derivative.
Defined.

(** ** The 2D integral *)

Section ThirdIntegral.
Local Open Scope R_scope.

Lemma primitive_3_derivative (x : R) :
  x <> 0 ->
  derivable_pt_lim primitive_3 x (cos (x ^ 4) + remainder_3 x).
Proof.
  intros Hx. unfold primitive_3, remainder_3.
  eapply D_eq; [repeat derive_step; cbv beta; now apply pow_nonzero|].
  simpl. field. exact Hx.
Qed.
Lemma remainder_3_bound (x : R) :
  4 <= x <= 6 -> Rabs (remainder_3 x) <= 65835 / 1024 * / 4 ^ 20.
Proof.
  intros [H4 H6]. unfold remainder_3.
  assert (P4 : 0 < 4 ^ 20) by (apply pow_lt; lra).
  assert (Px : 4 ^ 20 <= x ^ 20) by (apply pow_incr; lra).
  assert (Hi : 0 < / x ^ 20 <= / 4 ^ 20).
  { split.
    - apply Rinv_0_lt_compat. lra.
    - apply Rinv_le_contravar; assumption. }
  rewrite !Rabs_mult, Rabs_Ropp.
  rewrite (Rabs_pos_eq (65835 / 1024)) by lra.
  rewrite (Rabs_pos_eq (/ x ^ 20)) by lra.
  pose proof (Rabs_pos (sin (x ^ 4))) as Hs0.
  assert (Hs : Rabs (sin (x ^ 4)) <= 1).
  { apply Rabs_le. pose proof (SIN_bound (x ^ 4)). lra. }
  assert (Hp : Rabs (sin (x ^ 4)) * / x ^ 20 <= 1 * / 4 ^ 20).
  { apply Rmult_le_compat; lra. }
  rewrite Rmult_assoc. apply Rmult_le_compat_l; lra.
Qed.

Lemma primitive_3_value :
  Rabs (primitive_3 6 - primitive_3 4 - Q2R (5055086749674 # 1000000000000000))
  < Q2R (8 # 10000000000).
Proof.
  assert (E6 : 6 ^ 4 = 1296) by (simpl; lra).
  assert (E4 : 4 ^ 4 = 256) by (simpl; lra).
  replace (primitive_3 6 - primitive_3 4)
    with (sin 1296 * Q2R (80244841329025 # 69331597085638656)
            + cos 1296 * Q2R (-26873779 # 40122452017152)
          - (sin 256 * Q2R (1099489611145 # 281474976710656)
             + cos 256 * Q2R (-3145497 # 274877906944)))
    by (unfold primitive_3; rewrite E6, E4; unfold Q2R; simpl; field).
  clear E6 E4.
  assert (A6 : 1296 = 2 ^ 10 * Q2R (81 # 64)) by (unfold Q2R; simpl; lra).
  assert (A4 : 256 = 2 ^ 8 * Q2R 1) by (unfold Q2R; simpl; lra).
  pose proof (encloses_sin_cos_at (81 # 64) 10 12 1296 A6 eq_refl) as [S6 C6].
  pose proof (encloses_sin_cos_at 1 8 12 256 A4 eq_refl) as [S4 C4].
  clear A6 A4.
  eapply encloses_within.
  - repeat enclose_step.
  - vm_compute. reflexivity.
Qed.

(** Integrating in [x] first: the difference at the bounds 6 and 4 is a
    constant plus 6 y^2. *)
Lemma third_inner (d1 : R -> R -> R) :
  (forall y, 0 <= y <= 1 ->
     antiderivative_on (fun x => expr_3 x y) (fun x => d1 x y) 4 6) ->
  forall y, 0 <= y <= 1 ->
    d1 6 y - d1 4 y = d1 6 0 - d1 4 0 + 6 * y ^ 2.
Proof.
  intros Hd y Hy.
  rewrite (antiderivative_unique (fun x => expr_3 x y) (fun x => d1 x y)
             (fun x => d1 x 0 + 3 * y ^ 2 * x) 4 6).
  - ring.
  - lra.
  - now apply Hd.
  - intros x Hx. eapply D_eq.
    + apply D_plus; [apply (Hd 0); [lra|exact Hx]|].
      apply D_mult; [apply D_const|apply D_id].
    + unfold expr_3. ring.
Qed.

(** Then in [y]: the difference at the bounds 1 and 0. *)
Lemma third_outer (d1 : R -> R -> R) (d2 : R -> R) :
  (forall y, 0 <= y <= 1 ->
     antiderivative_on (fun x => expr_3 x y) (fun x => d1 x y) 4 6) ->
  antiderivative_on (fun y => d1 6 y - d1 4 y) d2 0 1 ->
  d2 1 - d2 0 = d1 6 0 - d1 4 0 + 2.
Proof.
  intros Hd1 Hd2.
  rewrite (antiderivative_unique (fun y => d1 6 y - d1 4 y) d2
             (fun y => (d1 6 0 - d1 4 0) * y + 2 * y ^ 3) 0 1).
  - ring.
  - lra.
  - exact Hd2.
  - intros y Hy. eapply D_eq.
    + apply D_plus.
      * apply D_mult; [apply D_const|apply D_id].
      * apply D_mult; [apply D_const|apply D_pow, D_id].
    + rewrite (third_inner d1 Hd1 y Hy). simpl. ring.
Qed.

(** The integral of [cos (x^4)] between 4 and 6, from the expansion. *)
Lemma third_core (F : R -> R) :
  antiderivative_on (fun x => expr_3 x 0) F 4 6 ->
  Rabs (F 6 - F 4 - (primitive_3 6 - primitive_3 4))
  <= 65835 / 1024 * / 4 ^ 20 * (6 - 4).
Proof.
  intros HF.
  apply (antiderivative_diff_bound (fun x => expr_3 x 0)
           (fun x => cos (x ^ 4) + remainder_3 x)).
  - lra.
  - exact HF.
  - intros x Hx. apply primitive_3_derivative. lra.
  - intros x Hx. unfold expr_3.
    replace (cos (x ^ 4) + 3 * 0 ^ 2 - (cos (x ^ 4) + remainder_3 x))
      with (- remainder_3 x) by (simpl; ring).
    rewrite Rabs_Ropp. now apply remainder_3_bound.
Qed.

End ThirdIntegral.

(** C7. The analytical cell of the 2D integral chains the variables in
    order: it integrates in x, substitutes the bounds 6 and 4 and
    subtracts, integrates the result in y, substitutes the bounds 1 and
    0 and subtracts.  Its value is within 1e-9 of 2.005055086749674. *)
Theorem third_analytical_value :
  forall (integrate : (R -> R) -> R -> R)
         (integrate_x : (R -> R -> R) -> R -> R -> R),
    let d1 := integrate_x expr_3 in
    let d2 := integrate (fun y => d1 6 y - d1 4 y)%R in
    (forall y : R, (0 <= y <= 1)%R ->
       antiderivative_on (fun x => expr_3 x y) (fun x => d1 x y) 4 6) ->
    antiderivative_on (fun y => d1 6 y - d1 4 y)%R d2 0 1 ->
    third_analytical integrate integrate_x = (d2 1 - d2 0)%R
    /\ (Rabs (third_analytical integrate integrate_x - 2.005055086749674)
        < 1e-9)%R.
Proof.
  intros integrate integrate_x d1 d2 Hd1 Hd2.
  split; [reflexivity|].
  unfold third_analytical. fold d1. fold d2.
  rewrite (third_outer d1 d2 Hd1 Hd2).
  assert (H0 : (0 <= 0 <= 1)%R) by lra.
  pose proof (third_core (fun x => d1 x 0%R) (Hd1 0%R H0)) as Hc.
  cbv beta in Hc.
  pose proof primitive_3_value as Hv.
  clear Hd1 Hd2 H0.
  set (I0 := (d1 6 0 - d1 4 0)%R) in *.
  set (G := (primitive_3 6 - primitive_3 4)%R) in *.
  assert (Hs : (65835 / 1024 * / 4 ^ 20 * (6 - 4) <= 2 / 10000000000)%R).
  { apply Rmult_le_reg_r with (4 ^ 20)%R; [apply pow_lt; lra|].
    replace (65835 / 1024 * / 4 ^ 20 * (6 - 4) * 4 ^ 20)%R
      with (65835 / 1024 * 2)%R by (field; apply pow_nonzero; lra).
    simpl. lra. }
  unfold Q2R in *. simpl in Hv.
  apply Rabs_def2 in Hv. destruct Hv as [Hv1 Hv2].
  assert (Hc' : (Rabs (I0 - G) <= 2 / 10000000000)%R) by lra.
  pose proof (Rle_abs (I0 - G)) as Hc1.
  pose proof (Rle_abs (- (I0 - G))) as Hc2. rewrite Rabs_Ropp in Hc2.
  simpl. apply Rabs_def1; lra.
Qed.

(** An antiderivative of [cos (x^4)] on [[4, 6]]: its integral from 4. *)
Lemma le_4_6 : (4 <= 6)%R.
Proof. lra. Qed.

Lemma cos4_continuity :
  forall x : R, (4 <= x <= 6)%R -> continuity_pt (fun t => cos (t ^ 4))%R x.
Proof.
  intros x _. apply derivable_continuous_pt.
  exists (- sin (x ^ 4) * (INR 4 * x ^ pred 4 * 1))%R.
  apply D_cos, D_pow, D_id.
Qed.

Lemma cos4_primitive_derivative (x : R) :
  (4 <= x <= 6)%R ->
  derivable_pt_lim (primitive le_4_6 (FTC_P1 le_4_6 cos4_continuity)) x
    (cos (x ^ 4)).
Proof.
  intros Hx.
  exact (@RiemannInt_P28 (fun t => cos (t ^ 4))%R 4 6 x le_4_6
           cos4_continuity Hx).
Qed.

(** The answers SymPy's contracts allow, built from that integral. *)
Lemma third_analytical_value_witness :
  (Rabs
     (third_analytical
        (fun _ y =>
           (primitive le_4_6 (FTC_P1 le_4_6 cos4_continuity) 6
            - primitive le_4_6 (FTC_P1 le_4_6 cos4_continuity) 4) * y
           + 2 * y ^ 3)
        (fun _ x y =>
           primitive le_4_6 (FTC_P1 le_4_6 cos4_continuity) x
           + 3 * y ^ 2 * x)
      - 2.005055086749674) < 1e-9)%R.
Proof.
  apply (third_analytical_value
           (fun _ y =>
              (primitive le_4_6 (FTC_P1 le_4_6 cos4_continuity) 6
               - primitive le_4_6 (FTC_P1 le_4_6 cos4_continuity) 4) * y
              + 2 * y ^ 3)%R
           (fun _ x y =>
              primitive le_4_6 (FTC_P1 le_4_6 cos4_continuity) x
              + 3 * y ^ 2 * x)%R).
  - intros y _ x Hx. eapply D_eq.
    + apply D_plus; [apply cos4_primitive_derivative; exact Hx|].
      apply D_mult; [apply D_const|apply D_id].
    + unfold expr_3. ring.
  - intros y _. eapply D_eq.
    + apply D_plus.
      * apply D_mult; [apply D_const|apply D_id].
      * apply D_mult; [apply D_const|apply D_pow, D_id].
    + simpl. ring.
Defined.

(** * Further properties of the cells *)

(** ** The simulation loop and its arrays *)

Section LoopFacts.
Context {T : Type} `{Arith T}.
Variable RNG : Type.
Variable rvs : norm T -> RNG -> T * RNG.

Lemma count_failures_app (l l' : list (T * T)) :
  count_failures (l ++ l') = (count_failures l + count_failures l')%Z.
Proof.
  unfold count_failures. rewrite filter_app, length_app. lia.
Qed.

(** [N + M] trials are [N] trials, then [M] trials from the generator
    state that the first [N] leave. *)
Lemma trials_app (N M : nat) (g : RNG) :
  trials RNG rvs (N + M) g
  = (fst (trials RNG rvs N g)
       ++ fst (trials RNG rvs M (snd (trials RNG rvs N g))),
     snd (trials RNG rvs M (snd (trials RNG rvs N g)))).
Proof.
  revert g; induction N as [|N IH]; intros g.
  - simpl. now destruct (trials RNG rvs M g).
  - simpl. destruct (calculate_stress RNG rvs g) as [s g1].
    destruct (calculate_yield_strength RNG rvs g1) as [y g2].
    rewrite IH. destruct (trials RNG rvs N g2) as [rest g3]. reflexivity.
Qed.

Lemma sim_eq (r r' : sim T RNG) :
  failures r = failures r' -> stresses r = stresses r' ->
  yield_strengths r = yield_strengths r' -> gen r = gen r' -> r = r'.
Proof.
  destruct r, r'; simpl; intros; subst; reflexivity.
Qed.

End LoopFacts.

(** X1. The state the simulation cell leaves does not depend on what
    [numpy.empty(N)] returns: started from any two arrays of length N,
    the loop overwrites every cell and ends in the same counter, the
    same two arrays and the same generator state. *)
Theorem run_simulation_overwrites :
  forall (T : Type) (A : Arith T) (RNG : Type)
         (rvs : norm T -> RNG -> T * RNG) (N : nat) (g : RNG)
         (a b : list T),
    length a = N -> length b = N ->
    fold_left (trial RNG rvs) (seq 0 N) (mk_sim 0%Z a b g)
    = run_simulation RNG rvs N g.
Proof.
  intros T A RNG rvs N g a b Ha Hb.
  pose proof (loop_from RNG rvs N 0 (mk_sim 0%Z a b g)) as L.
  cbn [stresses yield_strengths failures gen] in L.
  rewrite Ha, Hb in L. specialize (L (le_n N) (le_n N)). cbv zeta in L.
  rewrite !skipn_all2 in L by lia. simpl in L. rewrite !app_nil_r in L.
  destruct L as (Lf & Ls & Ly & Lg).
  destruct (run_simulation_trials RNG rvs N g) as (Rf & Rs & Ry & Rg).
  apply sim_eq; congruence.
Qed.

(** Two trials over arrays that start with arbitrary content. *)
Lemma run_simulation_overwrites_witness :
  fold_left (trial (list float) replay_rvs) (seq 0 2)
    (mk_sim 0%Z [7; nan]%float [infinity; -1]%float
       [60; 4; 200; 90; 4; 200]%float)
  = run_simulation (list float) replay_rvs 2 [60; 4; 200; 90; 4; 200]%float.
Proof.
  apply (run_simulation_overwrites float binary64 (list float) replay_rvs 2);
    reflexivity.
Defined.

(** X2. A run of N + M trials is a run of N trials followed by a run
    of M trials from the generator state the first run leaves: the
    counters add up, the recorded arrays are the concatenations, and
    the final generator state is that of the second run. *)
Theorem run_simulation_app :
  forall (T : Type) (A : Arith T) (RNG : Type)
         (rvs : norm T -> RNG -> T * RNG) (N M : nat) (g : RNG),
    let r1 := run_simulation RNG rvs N g in
    let r2 := run_simulation RNG rvs M (gen r1) in
    let r := run_simulation RNG rvs (N + M) g in
    failures r = (failures r1 + failures r2)%Z
    /\ stresses r = stresses r1 ++ stresses r2
    /\ yield_strengths r = yield_strengths r1 ++ yield_strengths r2
    /\ gen r = gen r2.
Proof.
  intros T A RNG rvs N M g.
  destruct (run_simulation_trials RNG rvs N g) as (Af & As & Ay & Ag).
  cbv zeta in *.
  destruct (run_simulation_trials RNG rvs M
              (gen (run_simulation RNG rvs N g))) as (Bf & Bs & By & Bg).
  destruct (run_simulation_trials RNG rvs (N + M) g) as (Cf & Cs & Cy & Cg).
  cbv zeta in *.
  rewrite Cf, Cs, Cy, Cg, Af, As, Ay, Bf, Bs, By, Bg, Ag, trials_app.
  cbn [fst snd]. rewrite count_failures_app, !map_app. repeat split.
Qed.

(** ** The strict comparison in binary64 *)

Lemma is_nan_Prim2SF (x : float) :
  PrimFloat.is_nan x = true -> Prim2SF x = S754_nan.
Proof.
  unfold PrimFloat.is_nan. rewrite FloatAxioms.eqb_spec.
  destruct (Prim2SF x) as [s|s| |s m e]; try reflexivity.
  - destruct s; discriminate.
  - destruct s; discriminate.
  - unfold SFeqb, SFcompare.
    rewrite Z.compare_refl, Pos.compare_cont_refl.
    destruct s; discriminate.
Qed.

Lemma ltb_nan_r (x y : float) :
  Prim2SF y = S754_nan -> PrimFloat.ltb x y = false.
Proof.
  intros Hy. rewrite ltb_spec, Hy. unfold SFltb, SFcompare.
  destruct (Prim2SF x) as [s|s| |s m e]; reflexivity.
Qed.

Lemma ltb_nan_l (x y : float) :
  Prim2SF x = S754_nan -> PrimFloat.ltb x y = false.
Proof.
  intros Hx. rewrite ltb_spec, Hx. reflexivity.
Qed.

Lemma ltb_eqb (x y : float) :
  PrimFloat.eqb x y = true -> PrimFloat.ltb y x = false.
Proof.
  rewrite FloatAxioms.eqb_spec, ltb_spec. unfold SFeqb, SFltb, SFcompare.
  destruct (Prim2SF x) as [[]|[]| |[] m e],
           (Prim2SF y) as [[]|[]| |[] m' e'];
    try reflexivity; try discriminate;
    rewrite (Z.compare_antisym e e');
    destruct (e ?= e')%Z; cbn; try discriminate;
    change (Pos.compare_cont Eq m' m) with (Pos.compare m' m);
    change (Pos.compare_cont Eq m m') with (Pos.compare m m');
    rewrite (Pos.compare_antisym m' m);
    destruct (Pos.compare m' m); cbn; discriminate || reflexivity.
Qed.

Lemma gtb_ordered (s y : float) :
  PrimFloat.ltb y s = true -> ordered_pair (s, y) = true.
Proof.
  intros H. unfold ordered_pair. cbn [fst snd].
  destruct (PrimFloat.is_nan s) eqn:Ns.
  { rewrite (ltb_nan_r y s) in H by now apply is_nan_Prim2SF. discriminate. }
  destruct (PrimFloat.is_nan y) eqn:Ny.
  { rewrite (ltb_nan_l y s) in H by now apply is_nan_Prim2SF. discriminate. }
  destruct (PrimFloat.eqb s y) eqn:E.
  { rewrite (ltb_eqb s y E) in H. discriminate. }
  reflexivity.
Qed.

Lemma count_failures_ordered (l : list (float * float)) :
  count_failures (filter ordered_pair l) = count_failures l.
Proof.
  induction l as [|[s y] l IH]; [reflexivity|].
  simpl filter. destruct (ordered_pair (s, y)) eqn:E.
  - rewrite !count_failures_cons, IH. reflexivity.
  - rewrite count_failures_cons, IH.
    cbn [gtb binary64]. destruct (PrimFloat.ltb y s) eqn:L; [|reflexivity].
    rewrite (gtb_ordered s y L) in E. discriminate.
Qed.

(** X3. In binary64 a trial counts as a failure only when its stress
    and its yield strength are two numbers and the stress is strictly
    the larger: the counter of a run is the count over the recorded
    pairs that hold no NaN and are not equal, so a trial with a NaN
    stress, a NaN yield strength, or a stress equal to the yield
    strength is never counted.  A NaN stress does arise: a zero radius
    over a zero wall thickness gives one. *)
Theorem strict_comparison :
  (forall (RNG : Type) (rvs : norm float -> RNG -> float * RNG)
          (N : nat) (g : RNG),
      let r := run_simulation RNG rvs N g in
      failures r
      = count_failures
          (filter ordered_pair (combine (stresses r) (yield_strengths r))))
  /\ (forall (RNG : Type) (rvs : norm float -> RNG -> float * RNG) (g : RNG),
      PrimFloat.eqb (fst (rvs radius_dist g)) 0%float = true ->
      PrimFloat.eqb (fst (rvs W_dist (snd (rvs radius_dist g)))) 0%float
      = true ->
      PrimFloat.is_nan (fst (calculate_stress RNG rvs g)) = true).
Proof.
  split.
  - intros RNG rvs N g r. subst r.
    rewrite count_failures_ordered.
    apply (run_simulation_count RNG rvs N g).
  - intros RNG rvs g Hr Hw. unfold calculate_stress.
    destruct (rvs radius_dist g) as [r g1]. cbn [fst snd] in *.
    destruct (rvs W_dist g1) as [w g2]. cbn [fst snd] in *.
    cbn [of_int mul div binary64].
    unfold PrimFloat.is_nan.
    rewrite FloatAxioms.eqb_spec in *. rewrite div_spec, mul_spec.
    change (Prim2SF 0%float) with (S754_zero false) in *.
    change (Prim2SF (float_of_Z 10))
      with (S754_finite false 5629499534213120 (-49)).
    destruct (Prim2SF r) as [sr|sr| |sr mr er]; try discriminate Hr;
      try (destruct sr; discriminate Hr).
    destruct (Prim2SF w) as [sw|sw| |sw mw ew]; try discriminate Hw;
      try (destruct sw; discriminate Hw).
    destruct sr, sw; reflexivity.
Qed.

(** A zero radius over a zero wall thickness, and the run that records
    it: one trial, no failure. *)
Lemma strict_comparison_witness :
  PrimFloat.is_nan
    (fst (calculate_stress (list float) replay_rvs [0; 0]%float)) = true
  /\ failures (run_simulation (list float) replay_rvs 1 [0; 0; 200]%float)
     = count_failures
         (filter ordered_pair
            (combine
               (stresses (run_simulation (list float) replay_rvs 1
                            [0; 0; 200]%float))
               (yield_strengths (run_simulation (list float) replay_rvs 1
                                   [0; 0; 200]%float)))).
Proof.
  split.
  - apply (proj2 strict_comparison (list float) replay_rvs [0; 0]%float);
      reflexivity.
  - apply (proj1 strict_comparison).
Defined.

(** ** The failure region over the reals *)

(** X4. Over the reals a trial adds at most one to the counter, and
    which trials it counts is a half-space test on the three draws:
    for a positive wall thickness W the trial is counted exactly when
    yield * W < 10 * radius; for a negative W the inequality is
    reversed, so such a trial is counted exactly when
    10 * radius < yield * W. *)
Theorem failure_region :
  forall (RNG : Type) (rvs : norm R -> RNG -> R * RNG)
         (st : sim R RNG) (i : nat),
    (i < length (stresses st))%nat ->
    (i < length (yield_strengths st))%nat ->
    let r := fst (rvs radius_dist (gen st)) in
    let g1 := snd (rvs radius_dist (gen st)) in
    let w := fst (rvs W_dist g1) in
    let y := fst (rvs yield_dist (snd (rvs W_dist g1))) in
    ((0 < w)%R ->
     (failures (trial RNG rvs st i) = (failures st + 1)%Z
      <-> (y * w < 10 * r)%R))
    /\ ((w < 0)%R ->
        (failures (trial RNG rvs st i) = (failures st + 1)%Z
         <-> (10 * r < y * w)%R))
    /\ (failures (trial RNG rvs st i) = failures st
        \/ failures (trial RNG rvs st i) = (failures st + 1)%Z).
Proof.
  intros RNG rvs st i Hi Hj r g1 w y. subst r g1 w y.
  unfold trial, calculate_stress, calculate_yield_strength.
  destruct (rvs radius_dist (gen st)) as [r g1]. cbn [fst snd].
  destruct (rvs W_dist g1) as [w g2]. cbn [fst snd].
  destruct (rvs yield_dist g2) as [y g3]. cbn [fst snd].
  cbn [failures]. rewrite !get_set_item by assumption.
  cbn [of_int mul div gtb ideal]. unfold Rgtb.
  destruct (Rlt_dec y (10 * r / w)) as [Hlt|Hge].
  - split; [|split]; [intros Hw|intros Hw|right; reflexivity].
    + split; [intros _|reflexivity].
      apply (Rmult_lt_compat_r w) in Hlt; [|exact Hw].
      unfold Rdiv in Hlt. rewrite Rmult_assoc, Rinv_l, Rmult_1_r in Hlt by lra.
      exact Hlt.
    + split; [intros _|reflexivity].
      apply (Rmult_lt_gt_compat_neg_l w) in Hlt; [|exact Hw].
      unfold Rdiv in Hlt.
      replace (w * (10 * r * / w))%R with (10 * r)%R in Hlt by (field; lra).
      lra.
  - split; [|split]; [intros Hw|intros Hw|left; reflexivity].
    + split; [intros E; lia|intros Hlt; exfalso; apply Hge].
      apply (Rmult_lt_reg_r w); [exact Hw|].
      unfold Rdiv. rewrite Rmult_assoc, Rinv_l, Rmult_1_r by lra. exact Hlt.
    + split; [intros E; lia|intros Hlt; exfalso; apply Hge].
      apply Ropp_lt_cancel. apply (Rmult_lt_reg_r (- w)); [lra|].
      replace (- (10 * r / w) * - w)%R with (10 * r)%R by (field; lra).
      lra.
Qed.

(** A radius of 90 over a wall thickness of 4, against a yield strength
    of 200. *)
Lemma failure_region_witness :
  failures (trial (list R) replay_rvs
              (mk_sim 0%Z [0%R] [0%R] [90; 4; 200]%R) 0) = (0 + 1)%Z
  <-> (200 * 4 < 10 * 90)%R.
Proof.
  exact (proj1 (failure_region (list R) replay_rvs
                  (mk_sim 0%Z [0%R] [0%R] [90; 4; 200]%R) 0
                  (le_n 1) (le_n 1))
           ltac:(simpl; lra)).
Defined.

(** ** binary64: ratios of counts strictly between 0 and 1 *)

Section Binary64Strict.
Local Open Scope Z_scope.

(** The second half of [binary_round_aux] on a 53-bit significand that
    rounding cannot carry to the next power of two. *)
Lemma round_tail_no_carry (s : bool) (p : positive) (l : location) (e : Z) :
  2 ^ 52 <= Zpos p -> Zpos p + 1 < 2 ^ 53 -> emin <= e <= emax - prec ->
  exists m' : positive,
    (let '(mrs, e') :=
       shr_fexp prec emax (round_nearest_even (Zpos p) l) e loc_Exact in
     match shr_m mrs with
     | 0 => S754_zero s
     | Zpos m =>
         if e' <=? emax - prec then S754_finite s m e'
         else S754_infinity s
     | Zneg _ => S754_nan
     end) = S754_finite s m' e.
Proof.
  intros Hp Hp1 He.
  pose proof (round_nearest_even_bounds (Zpos p) l) as Hz.
  destruct (round_nearest_even (Zpos p) l) as [|z|z] eqn:Ez; try lia.
  exists z. rewrite shr_fexp_53 by lia.
  cbn [shr_record_of_loc shr_m].
  replace (e <=? emax - prec) with true
    by (symmetry; apply Z.leb_le; lia).
  reflexivity.
Qed.

(** Rounding a 53-bit significand below [2^53 - 1], or a 54-bit one
    below [2^54 - 3], does not carry: the exponent moves by 0, resp. 1. *)
Lemma round_no_carry (s : bool) (q : positive) (l : location) (e : Z) :
  2 ^ 52 <= Zpos q ->
  emin <= e <= 968 ->
  (Zpos q + 1 < 2 ^ 53 ->
   exists m' : positive,
     binary_round_aux prec emax s (Zpos q) e l = S754_finite s m' e)
  /\ (2 ^ 53 <= Zpos q -> Zpos q + 4 <= 2 ^ 54 ->
      exists m' : positive,
        binary_round_aux prec emax s (Zpos q) e l = S754_finite s m' (e + 1)).
Proof.
  intros Hq He. split.
  - intros H1. unfold binary_round_aux.
    rewrite shr_fexp_53 by lia.
    rewrite shr_m_record_of_loc, loc_of_shr_record_of_loc.
    apply round_tail_no_carry; unfold emax, prec in *; lia.
  - intros H53 H4.
    assert (T : exists (p : positive) (l' : location),
               2 ^ 52 <= Zpos p /\ Zpos p + 1 < 2 ^ 53
               /\ shr_1 (shr_record_of_loc (Zpos q) l)
                  = shr_record_of_loc (Zpos p) l').
    { destruct q as [p|p|]; [| |lia].
      - exists p. destruct l as [|[]]; cbn [shr_record_of_loc shr_1 orb].
        + exists (loc_Inexact Eq). repeat split; lia || reflexivity.
        + exists (loc_Inexact Gt). repeat split; lia || reflexivity.
        + exists (loc_Inexact Gt). repeat split; lia || reflexivity.
        + exists (loc_Inexact Gt). repeat split; lia || reflexivity.
      - exists p. destruct l as [|[]]; cbn [shr_record_of_loc shr_1 orb].
        + exists loc_Exact. repeat split; lia || reflexivity.
        + exists (loc_Inexact Lt). repeat split; lia || reflexivity.
        + exists (loc_Inexact Lt). repeat split; lia || reflexivity.
        + exists (loc_Inexact Lt). repeat split; lia || reflexivity. }
    destruct T as (p & l' & Hp & Hp1 & Hs).
    unfold binary_round_aux.
    rewrite shr_fexp_54, Hs by lia.
    rewrite shr_m_record_of_loc, loc_of_shr_record_of_loc.
    apply round_tail_no_carry; unfold emax, prec in *; lia.
Qed.

(** The quotient of two positive numbers with 53-bit significands, the
    first strictly below the second, rounds below 1, when the first is
    not the odd significand [2^53 - 1] one binade under the second. *)
Lemma div_below_one (m1 m2 : positive) (e1 e2 : Z) :
  2 ^ 52 <= Zpos m1 < 2 ^ 53 -> 2 ^ 52 <= Zpos m2 < 2 ^ 53 ->
  -52 <= e1 -> e1 <= e2 -> e2 <= 0 ->
  (e1 = e2 -> Zpos m1 < Zpos m2) ->
  (e1 < e2 -> Zpos m1 + 2 <= 2 ^ 53) ->
  below_one
    (SFdiv prec emax (S754_finite false m1 e1) (S754_finite false m2 e2)).
Proof.
  intros H1 H2 He1 He12 He2 Hm Hev. unfold SFdiv.
  rewrite div_core_53 by lia.
  pose proof (Z_div_mod (Zpos m1 * 2 ^ 53) (Zpos m2) eq_refl) as Hqr.
  destruct (Z.div_eucl (Zpos m1 * 2 ^ 53) (Zpos m2)) as [q r].
  destruct Hqr as [Hq Hr]. cbn [xorb].
  assert (Hq52 : 2 ^ 52 <= q) by nia.
  assert (Hq54 : q < 2 ^ 54) by nia.
  destruct q as [|q|q]; try lia.
  set (l := new_location (Zpos m2) r).
  assert (Hrange : emin <= e1 - e2 - 53 <= 968)
    by (unfold emin, emax, prec; lia).
  destruct (round_no_carry false q l (e1 - e2 - 53) Hq52 Hrange)
    as [R53 R54].
  destruct (Z_lt_le_dec e1 e2) as [Hlt|Hge].
  - destruct (Z_lt_le_dec (Zpos q) (2 ^ 53)) as [Hq53|Hq53].
    + destruct (round_shape false q l) as (m' & c & _ & _ & Hc & _ & Hr');
        [lia|].
      rewrite Hr' by exact Hrange. exists m', (e1 - e2 - 53 + c).
      split; [reflexivity|]. destruct (Hc Hq53) as [->|[-> _]]; lia.
    + destruct (Z_lt_le_dec (e1 + 1) e2) as [Hfar|Hnear].
      * destruct (round_shape false q l) as (m' & c & _ & Hc & _ & _ & Hr');
          [lia|].
        rewrite Hr' by exact Hrange. exists m', (e1 - e2 - 53 + c).
        split; [reflexivity|lia].
      * assert (Hq4 : Zpos q + 4 <= 2 ^ 54).
        { specialize (Hev Hlt). nia. }
        destruct (R54 Hq53 Hq4) as (m' & ->).
        exists m', (e1 - e2 - 53 + 1). split; [reflexivity|lia].
  - assert (e1 = e2) by lia. subst e2. specialize (Hm eq_refl).
    assert (Hq1 : Zpos q + 1 < 2 ^ 53) by nia.
    destruct (R53 Hq1) as (m' & ->).
    exists m', (e1 - e1 - 53). split; [reflexivity|lia].
Qed.

Lemma div_self_one (m : positive) (e : Z) :
  2 ^ 52 <= Zpos m < 2 ^ 53 -> -52 <= e <= 0 ->
  SFdiv prec emax (S754_finite false m e) (S754_finite false m e)
  = S754_finite false 4503599627370496 (-52).
Proof.
  intros Hm He. unfold SFdiv.
  rewrite div_core_53 by lia.
  pose proof (Z_div_mod (Zpos m * 2 ^ 53) (Zpos m) eq_refl) as Hqr.
  destruct (Z.div_eucl (Zpos m * 2 ^ 53) (Zpos m)) as [q r].
  destruct Hqr as [Hq Hr]. cbn [xorb].
  assert (Eq : q = 2 ^ 53).
  { destruct (Z_lt_le_dec q (2 ^ 53)); [nia|].
    destruct (Z_lt_le_dec (2 ^ 53) q); [nia|lia]. }
  assert (Er : r = 0) by (rewrite Eq in Hq; lia).
  subst q r. replace (e - e - 53) with (-53) by lia.
  unfold new_location.
  destruct (Z.even (Zpos m)); reflexivity.
Qed.

Lemma below_one_ltb (x : float) :
  below_one (Prim2SF x) ->
  PrimFloat.ltb 0%float x = true /\ PrimFloat.ltb x 1%float = true.
Proof.
  intros (m & e & Hx & H). rewrite !ltb_spec, Hx.
  change (Prim2SF 0%float) with (S754_zero false).
  change (Prim2SF 1%float)
    with (S754_finite false 4503599627370496%positive (-52)).
  split; [reflexivity|].
  unfold SFltb, SFcompare.
  apply Z.compare_lt_iff in H. now rewrite H.
Qed.

(** For counts [0 < k < n < 2^53] the binary64 quotient
    [k / float(n)] lies strictly between 0.0 and 1.0, and
    [n / float(n)] is 1.0. *)
Lemma binary64_ratio_strict (k n : Z) :
  0 < k < n -> n < 2 ^ 53 ->
  PrimFloat.ltb 0%float (float_of_Z k / float_of_Z n) = true
  /\ PrimFloat.ltb (float_of_Z k / float_of_Z n) 1%float = true.
Proof.
  intros Hk Hn.
  destruct n as [|n|n]; try lia. destruct k as [|k|k]; try lia.
  destruct (float_of_Z_exact n) as (m2 & e2 & E2 & Hm2 & He2 & Hv2); [lia|].
  destruct (float_of_Z_exact k) as (m1 & e1 & E1 & Hm1 & He1 & Hv1); [lia|].
  apply below_one_ltb. rewrite div_spec, E1, E2.
  pose proof (digits2_spec k) as Dk. pose proof (digits2_spec n) as Dn.
  assert (Hdk : 1 <= Zpos (digits2_pos k)) by lia.
  assert (Hdn : Zpos (digits2_pos n) <= 53).
  { destruct (Z_lt_le_dec 53 (Zpos (digits2_pos n))); [|assumption].
    assert (2 ^ 53 <= 2 ^ (Zpos (digits2_pos n) - 1))
      by (apply Z.pow_le_mono_r; lia). lia. }
  assert (Hd : Zpos (digits2_pos k) <= Zpos (digits2_pos n)).
  { rewrite !digits2_log2.
    assert (Z.log2 (Zpos k) <= Z.log2 (Zpos n))
      by (apply Z.log2_le_mono; lia). lia. }
  apply div_below_one; try lia.
  - intros Ee. rewrite Hv1, Hv2, Ee.
    apply Z.mul_lt_mono_pos_r; [apply Z.pow_pos_nonneg|]; lia.
  - intros Hlt.
    assert (He1neg : 0 < - e1) by lia.
    assert (Heven : Zpos m1 = 2 * (Zpos k * 2 ^ (- e1 - 1))).
    { rewrite Hv1. replace (- e1) with (Z.succ (- e1 - 1)) at 1 by lia.
      rewrite Z.pow_succ_r by lia. ring. }
    lia.
Qed.

Lemma binary64_ratio_one (n : Z) :
  0 < n < 2 ^ 53 ->
  (float_of_Z n / float_of_Z n)%float = 1%float.
Proof.
  intros Hn. destruct n as [|n|n]; try lia.
  destruct (float_of_Z_exact n) as (m2 & e2 & E2 & Hm2 & He2 & Hv2); [lia|].
  rewrite <- (SF2Prim_Prim2SF (float_of_Z (Zpos n) / float_of_Z (Zpos n))).
  rewrite div_spec, E2.
  pose proof (digits2_spec n) as Dn.
  assert (Hdn : Zpos (digits2_pos n) <= 53).
  { destruct (Z_lt_le_dec 53 (Zpos (digits2_pos n))); [|assumption].
    assert (2 ^ 53 <= 2 ^ (Zpos (digits2_pos n) - 1))
      by (apply Z.pow_le_mono_r; lia). lia. }
  unfold SF64div. rewrite div_self_one by lia. reflexivity.
Qed.

End Binary64Strict.

(** X5. In binary64, for 1 <= N < 2^53, the estimate
    [failures / float(N)] is exactly 0.0 if and only if no trial
    failed, and exactly 1.0 if and only if every trial failed: rounding
    never turns a run with some failures into 0.0, nor a run with some
    successes into 1.0.  Over the reals the same holds for every
    N >= 1. *)
Theorem estimate_extremes :
  forall N : nat,
    (1 <= N)%nat ->
    (forall (RNG : Type) (rvs : norm R -> RNG -> R * RNG) (g : RNG),
        let r := run_simulation RNG rvs N g in
        (failure_probability RNG rvs N g = Ok 0%R <-> failures r = 0%Z)
        /\ (failure_probability RNG rvs N g = Ok 1%R
            <-> failures r = Z.of_nat N))
    /\ ((Z.of_nat N < 2 ^ 53)%Z ->
        forall (RNG : Type) (rvs : norm float -> RNG -> float * RNG)
               (g : RNG),
          let r := run_simulation RNG rvs N g in
          (failure_probability RNG rvs N g = Ok 0%float
           <-> failures r = 0%Z)
          /\ (failure_probability RNG rvs N g = Ok 1%float
              <-> failures r = Z.of_nat N)).
Proof.
  intros N HN. split.
  - intros RNG rvs g r.
    destruct (run_simulation_count RNG rvs N g) as (_ & _ & _ & Hb).
    fold r in Hb.
    unfold failure_probability, summarize, py_truediv. fold r.
    cbn [of_int div is_zero ideal].
    assert (HNpos : (0 < IZR (Z.of_nat N))%R) by (apply IZR_lt; lia).
    rewrite Rzerob_false by lra.
    split; split.
    + intros E. injection E as E.
      apply (Rmult_eq_compat_r (IZR (Z.of_nat N))) in E.
      unfold Rdiv in E. rewrite Rmult_assoc, Rinv_l, Rmult_1_r, Rmult_0_l in E
        by lra.
      now apply eq_IZR in E.
    + intros ->. f_equal. unfold Rdiv. apply Rmult_0_l.
    + intros E. injection E as E.
      apply (Rmult_eq_compat_r (IZR (Z.of_nat N))) in E.
      unfold Rdiv in E. rewrite Rmult_assoc, Rinv_l, Rmult_1_r, Rmult_1_l in E
        by lra.
      now apply eq_IZR in E.
    + intros ->. f_equal. unfold Rdiv. apply Rinv_r. lra.
  - intros H53 RNG rvs g r.
    destruct (run_simulation_count RNG rvs N g) as (_ & _ & _ & Hb).
    fold r in Hb.
    unfold failure_probability, summarize, py_truediv. fold r.
    cbn [of_int div is_zero binary64].
    destruct (binary64_ratio (failures r) (Z.of_nat N)) as (Hz & _ & _);
      [lia|lia|].
    rewrite Hz.
    destruct (Z.eq_dec (failures r) 0) as [E0|N0].
    { rewrite E0.
      assert (P0 : (float_of_Z 0 / float_of_Z (Z.of_nat N))%float = 0%float).
      { rewrite <- (SF2Prim_Prim2SF (float_of_Z 0 / _)%float).
        rewrite div_spec.
        destruct (Z.of_nat N) as [|n|n] eqn:En; try lia.
        destruct (float_of_Z_exact n) as (m2 & e2 & -> & _); [lia|].
        reflexivity. }
      rewrite P0. split; split; intros; try reflexivity; try lia.
      discriminate. }
    destruct (Z.eq_dec (failures r) (Z.of_nat N)) as [EN|NN].
    { rewrite EN, binary64_ratio_one by lia.
      split; split; intros; try reflexivity; try lia. discriminate. }
    destruct (binary64_ratio_strict (failures r) (Z.of_nat N)) as [L0 L1];
      [lia|lia|].
    split; split; intros E; try lia; injection E as E; rewrite E in *;
      discriminate.
Qed.

(** Two trials, none of which fails. *)
Lemma estimate_extremes_witness :
  (failure_probability (list float) replay_rvs 2
     [60; 4; 200; 90; 5; 200]%float = Ok 0%float
   <-> failures (run_simulation (list float) replay_rvs 2
                   [60; 4; 200; 90; 5; 200]%float) = 0%Z)
  /\ (failure_probability (list float) replay_rvs 2
        [60; 4; 200; 90; 5; 200]%float = Ok 1%float
      <-> failures (run_simulation (list float) replay_rvs 2
                      [60; 4; 200; 90; 5; 200]%float) = Z.of_nat 2).
Proof.
  apply (proj2 (estimate_extremes 2 (le_S 1 1 (le_n 1))) eq_refl
           (list float) replay_rvs).
Defined.

(** ** binary64: what a rounding shifts out *)

Section Binary64Shift.
Local Open Scope Z_scope.

Lemma shr_1_half (mrs : shr_record) :
  0 <= shr_m mrs -> shr_m (shr_1 mrs) = shr_m mrs / 2.
Proof.
  destruct mrs as [[|[p|p|]|p] r s0]; simpl shr_m; intros Hm;
    try reflexivity; try lia.
  - apply Z.div_unique with 1; lia.
  - apply Z.div_unique with 0; lia.
Qed.

Lemma iter_shr_1_div (p : positive) :
  forall mrs : shr_record,
    0 <= shr_m mrs ->
    shr_m (SpecFloat.iter_pos shr_1 p mrs) = shr_m mrs / 2 ^ Zpos p.
Proof.
  induction p as [p IH|p IH|]; intros mrs Hm; simpl SpecFloat.iter_pos.
  - rewrite IH by (apply iter_shr_1_nonneg, shr_1_nonneg, Hm).
    rewrite IH by (apply shr_1_nonneg, Hm).
    rewrite shr_1_half by exact Hm.
    assert (P : 0 < 2 ^ Zpos p) by (apply Z.pow_pos_nonneg; lia).
    rewrite !Z.div_div by lia. f_equal.
    rewrite (Pos2Z.inj_xI p), Z.add_1_r, Z.pow_succ_r by lia.
    rewrite Z.pow_twice_r. ring.
  - rewrite IH by (apply iter_shr_1_nonneg, Hm).
    rewrite IH by exact Hm.
    assert (P : 0 < 2 ^ Zpos p) by (apply Z.pow_pos_nonneg; lia).
    rewrite !Z.div_div by lia. f_equal.
    rewrite (Pos2Z.inj_xO p), Z.pow_twice_r. ring.
  - rewrite shr_1_half by exact Hm. reflexivity.
Qed.

(** The first shift of [binary_round_aux]: the significand loses the
    [n] bits that do not fit. *)
Lemma shr_fexp_div (m : positive) (e : Z) (l : location) :
  let n := fexp prec emax (Zpos (digits2_pos m) + e) - e in
  shr_m (fst (shr_fexp prec emax (Zpos m) e l))
  = (if 0 <? n then Zpos m / 2 ^ n else Zpos m)
  /\ snd (shr_fexp prec emax (Zpos m) e l) = (if 0 <? n then e + n else e).
Proof.
  cbv zeta. unfold shr_fexp, shr.
  change (Zdigits2 (Zpos m)) with (Zpos (digits2_pos m)).
  destruct (fexp prec emax (Zpos (digits2_pos m) + e) - e) as [|n|n];
    cbn [fst snd Z.ltb Z.compare]; rewrite ?shr_m_record_of_loc;
    try (split; reflexivity).
  rewrite iter_shr_1_div by (rewrite shr_m_record_of_loc; lia).
  rewrite shr_m_record_of_loc. split; reflexivity.
Qed.

(** Rounding a positive significand whose value is not below the
    smallest subnormal gives a finite non-zero number or an infinity. *)
Lemma binary_round_aux_positive (s : bool) (m : positive) (e : Z)
  (l : location) :
  emin < Zpos (digits2_pos m) + e ->
  (exists (m' : positive) (e' : Z),
      binary_round_aux prec emax s (Zpos m) e l = S754_finite s m' e')
  \/ binary_round_aux prec emax s (Zpos m) e l = S754_infinity s.
Proof.
  intros Hv. unfold binary_round_aux.
  destruct (shr_fexp_div m e l) as [H1 H1e].
  destruct (shr_fexp prec emax (Zpos m) e l) as [mrs1 e1].
  cbn [fst snd] in H1, H1e.
  pose proof (digits2_spec m) as Hd.
  set (d := Zpos (digits2_pos m)) in *.
  set (n := fexp prec emax (d + e) - e) in *.
  assert (Hn : n = Z.max (d - 53) (emin - e))
    by (subst n; unfold fexp, emin, emax, prec; lia).
  assert (Hd1 : 1 <= d) by (subst d; lia).
  assert (M1 : 1 <= shr_m mrs1 < 2 ^ 53 /\ emin <= e1).
  { rewrite H1, H1e. destruct (Z.ltb_spec 0 n) as [Hpos|Hneg].
    - assert (P : 0 < 2 ^ n) by (apply Z.pow_pos_nonneg; lia).
      split; [split|].
      + apply Z.div_le_lower_bound; [exact P|].
        rewrite Z.mul_1_r.
        apply Z.le_trans with (2 ^ (d - 1)); [|lia].
        apply Z.pow_le_mono_r; lia.
      + apply Z.div_lt_upper_bound; [exact P|].
        rewrite <- Z.pow_add_r by lia.
        apply Z.lt_le_trans with (2 ^ d); [lia|].
        apply Z.pow_le_mono_r; lia.
      + unfold emin, emax, prec in *. lia.
    - split; [split; [lia|]|unfold emin, emax, prec in *; lia].
      apply Z.lt_le_trans with (2 ^ d); [lia|].
      apply Z.pow_le_mono_r; lia. }
  destruct M1 as [M1 E1].
  pose proof (round_nearest_even_bounds (shr_m mrs1)
                (loc_of_shr_record mrs1)) as Hz.
  destruct (round_nearest_even (shr_m mrs1) (loc_of_shr_record mrs1))
    as [|z|z] eqn:Ez; try lia.
  destruct (shr_fexp_div z e1 loc_Exact) as [H2 H2e].
  destruct (shr_fexp prec emax (Zpos z) e1 loc_Exact) as [mrs2 e2].
  cbn [fst snd] in H2, H2e.
  pose proof (digits2_spec z) as Hdz.
  set (dz := Zpos (digits2_pos z)) in *.
  assert (Hdz54 : dz <= 54).
  { destruct (Z_lt_le_dec 54 dz) as [Hgt|]; [|assumption].
    assert (2 ^ 54 <= 2 ^ (dz - 1)) by (apply Z.pow_le_mono_r; lia). lia. }
  set (n2 := fexp prec emax (dz + e1) - e1) in *.
  assert (Hn2 : n2 <= 1) by (subst n2; unfold fexp, emin, emax, prec in *; lia).
  assert (M2 : 1 <= shr_m mrs2).
  { rewrite H2. destruct (Z.ltb_spec 0 n2) as [Hpos|Hneg]; [|lia].
    assert (n2 = 1) by lia.
    assert (dz = 54) by (subst n2; unfold fexp, emin, emax, prec in *; lia).
    replace n2 with 1 by lia. change (2 ^ 1) with 2.
    assert (2 ^ 53 <= Zpos z)
      by (replace 53 with (dz - 1) by lia; lia).
    apply Z.div_le_lower_bound; lia. }
  destruct (shr_m mrs2) as [|m2|m2]; try lia.
  destruct (e2 <=? emax - prec).
  - left. now exists m2, e2.
  - right. reflexivity.
Qed.

(** [10 * r] for a positive [r]: positive and not zero. *)
Lemma mul_ten_positive (r : float) :
  PrimFloat.ltb 0%float r = true ->
  (exists (m : positive) (e : Z),
      Prim2SF (float_of_Z 10 * r)%float = S754_finite false m e)
  \/ Prim2SF (float_of_Z 10 * r)%float = S754_infinity false.
Proof.
  intros Hr. rewrite ltb_spec in Hr. rewrite mul_spec.
  change (Prim2SF 0%float) with (S754_zero false) in Hr.
  change (Prim2SF (float_of_Z 10))
    with (S754_finite false 5629499534213120 (-49)).
  pose proof (Prim2SF_valid r) as Hv.
  destruct (Prim2SF r) as [sr|sr| |sr mr er]; try discriminate Hr.
  - destruct sr; [discriminate Hr|]. right. reflexivity.
  - destruct sr; [discriminate Hr|].
    unfold SF64mul, SFmul. cbn [xorb].
    apply binary_round_aux_positive.
    unfold SpecFloat.valid_binary, SpecFloat.bounded, canonical_mantissa in Hv.
    apply andb_prop in Hv. destruct Hv as [Hc _].
    apply Z.eqb_eq in Hc.
    assert (Her : emin <= er) by (unfold fexp, emin, emax, prec in *; lia).
    pose proof (digits2_spec (5629499534213120 * mr)) as Hd.
    set (d := Zpos (digits2_pos (5629499534213120 * mr))) in *.
    assert (Hd53 : 53 <= d).
    { destruct (Z_lt_le_dec d 53) as [Hlt|]; [|assumption].
      assert (2 ^ d <= 2 ^ 52) by (apply Z.pow_le_mono_r; lia).
      rewrite Pos2Z.inj_mul in Hd. lia. }
    unfold emin, emax, prec in *. lia.
Qed.

End Binary64Shift.

(** X6. A wall thickness of zero, under a positive radius, in
    binary64: with [W = +0.0] the recorded stress is [+inf] and the
    trial is counted as a failure whenever the yield strength is below
    [+inf]; with [W = -0.0] the recorded stress is [-inf] and the trial
    is never counted. *)
Theorem zero_thickness_trial :
  forall (RNG : Type) (rvs : norm float -> RNG -> float * RNG)
         (st : sim float RNG) (i : nat),
    (i < length (stresses st))%nat ->
    (i < length (yield_strengths st))%nat ->
    let r := fst (rvs radius_dist (gen st)) in
    let g1 := snd (rvs radius_dist (gen st)) in
    let w := fst (rvs W_dist g1) in
    let y := fst (rvs yield_dist (snd (rvs W_dist g1))) in
    PrimFloat.ltb 0%float r = true ->
    (w = 0%float ->
     get_item (stresses (trial RNG rvs st i)) i = infinity
     /\ (PrimFloat.ltb y infinity = true ->
         failures (trial RNG rvs st i) = (failures st + 1)%Z))
    /\ (w = (-0)%float ->
        get_item (stresses (trial RNG rvs st i)) i = neg_infinity
        /\ failures (trial RNG rvs st i) = failures st).
Proof.
  intros RNG rvs st i Hi Hj r g1 w y Hr.
  unfold trial, calculate_stress, calculate_yield_strength.
  subst r g1 w y.
  destruct (rvs radius_dist (gen st)) as [r g1]. cbn [fst snd] in *.
  destruct (rvs W_dist g1) as [w g2]. cbn [fst snd] in *.
  destruct (rvs yield_dist g2) as [y g3]. cbn [fst snd] in *.
  cbn [failures stresses].
  rewrite !get_set_item by assumption.
  cbn [of_int mul div gtb binary64].
  assert (D : forall z : bool,
             Prim2SF w = S754_zero z ->
             Prim2SF (float_of_Z 10 * r / w)%float = S754_infinity z).
  { intros z Hw. rewrite div_spec, Hw.
    destruct (mul_ten_positive r Hr) as [(m & e & ->)| ->]; reflexivity. }
  split; intros Hw; subst w.
  - assert (E : (float_of_Z 10 * r / 0)%float = infinity).
    { rewrite <- (SF2Prim_Prim2SF (float_of_Z 10 * r / 0)%float).
      rewrite (D false) by reflexivity. reflexivity. }
    rewrite E. split; [reflexivity|]. now intros ->.
  - assert (E : (float_of_Z 10 * r / (-0))%float = neg_infinity).
    { rewrite <- (SF2Prim_Prim2SF (float_of_Z 10 * r / (-0))%float).
      rewrite (D true) by reflexivity. reflexivity. }
    rewrite E. split; [reflexivity|].
    replace (PrimFloat.ltb y neg_infinity) with false; [reflexivity|].
    rewrite ltb_spec. change (Prim2SF neg_infinity) with (S754_infinity true).
    destruct (Prim2SF y) as [[]|[]| |[] my ey]; reflexivity.
Qed.

(** A radius of 60 over a wall thickness of +0.0. *)
Lemma zero_thickness_trial_witness :
  (get_item
     (stresses (trial (list float) replay_rvs
                  (mk_sim 0%Z [0%float] [0%float] [60; 0; 200]%float) 0)) 0
   = infinity
   /\ failures (trial (list float) replay_rvs
                  (mk_sim 0%Z [0%float] [0%float] [60; 0; 200]%float) 0)
      = 1%Z).
Proof.
  destruct (zero_thickness_trial (list float) replay_rvs
              (mk_sim 0%Z [0%float] [0%float] [60; 0; 200]%float) 0
              (le_n 1) (le_n 1) eq_refl) as [H _].
  destruct (H eq_refl) as [H1 H2]. split; [exact H1|]. apply H2. reflexivity.
Defined.

(** X7. For a positive radius and a positive finite wall thickness the
    binary64 stress is never negative and never a NaN: it is a zero, a
    finite number or an infinity of positive sign. *)
Theorem calculate_stress_positive :
  forall (RNG : Type) (rvs : norm float -> RNG -> float * RNG) (g : RNG),
    let r := fst (rvs radius_dist g) in
    let w := fst (rvs W_dist (snd (rvs radius_dist g))) in
    PrimFloat.ltb 0%float r = true ->
    PrimFloat.ltb 0%float w = true ->
    PrimFloat.ltb w infinity = true ->
    signed false (Prim2SF (fst (calculate_stress RNG rvs g)))
    /\ PrimFloat.leb 0%float (fst (calculate_stress RNG rvs g)) = true.
Proof.
  intros RNG rvs g r w Hr Hw Hwf. subst r w.
  unfold calculate_stress.
  destruct (rvs radius_dist g) as [r g1]. cbn [fst snd] in *.
  destruct (rvs W_dist g1) as [w g2]. cbn [fst snd] in *.
  cbn [of_int mul div binary64].
  assert (S : signed false (Prim2SF (float_of_Z 10 * r / w)%float)).
  { rewrite div_spec. rewrite ltb_spec in Hw, Hwf.
    change (Prim2SF 0%float) with (S754_zero false) in Hw.
    change (Prim2SF infinity) with (S754_infinity false) in Hwf.
    destruct (Prim2SF w) as [sw|sw| |sw mw ew]; try discriminate Hw.
    { destruct sw; discriminate. }
    destruct sw; [discriminate Hw|].
    destruct (mul_ten_positive r Hr) as [(m & e & ->)| ->].
    - unfold SF64div, SFdiv. cbn [xorb].
      pose proof (div_core_nonneg (Zpos m) e (Zpos mw) ew) as Hq.
      destruct (SFdiv_core_binary prec emax (Zpos m) e (Zpos mw) ew)
        as [[qz ez] lz].
      apply binary_round_aux_signed. apply Hq; lia.
    - right. right. reflexivity. }
  split; [exact S|].
  rewrite leb_spec. change (Prim2SF 0%float) with (S754_zero false).
  destruct S as [->|[(m & e & ->)| ->]]; reflexivity.
Qed.

(** The nominal radius and wall thickness. *)
Lemma calculate_stress_positive_witness :
  signed false
    (Prim2SF (fst (calculate_stress (list float) replay_rvs [60; 4]%float)))
  /\ PrimFloat.leb 0%float
       (fst (calculate_stress (list float) replay_rvs [60; 4]%float)) = true.
Proof.
  apply (calculate_stress_positive (list float) replay_rvs [60; 4]%float);
    reflexivity.
Defined.

(** ** The vectorized cells *)

(** Every item of the aside's vector is computed from the same
    constants. *)
Lemma vectorization_aside_step {T : Type} `{Arith T} (f : T -> T) (N : nat) :
  vectorization_aside f N
  = repeat (f (add (of_int 1%Z) (mul (of_int 3%Z) (of_int 1%Z)))) N.
Proof.
  unfold vectorization_aside, vec_add, vec_scale, numpy_ones.
  induction N as [|N IH]; simpl; [reflexivity|now rewrite IH].
Qed.

(** X8. The aside [numpy.sqrt(ones + 3 * ones)] evaluates to a vector
    of N items, each exactly 2.0: in binary64 nothing is rounded
    ([1.0 + 3 * 1.0] is 4.0 and its square root is 2.0), and over the
    reals each item is 2. *)
Theorem vectorization_aside_twos :
  (forall N : nat,
      @vectorization_aside float _ PrimFloat.sqrt N = repeat 2%float N)
  /\ (forall N : nat,
      @vectorization_aside R _ R_sqrt.sqrt N = repeat 2%R N).
Proof.
  split; intros N; rewrite vectorization_aside_step.
  - reflexivity.
  - f_equal. simpl. replace (1 + 3 * 1)%R with (2 * 2)%R by ring.
    apply sqrt_square. lra.
Qed.

Section VectorizedFacts.
Context {T : Type} `{Arith T}.
Variable RNG : Type.
Variable rvs_n : norm T -> nat -> RNG -> list T * RNG.

(** The vectorized cell returns the count of failing trials among the
    zipped batches, over [float(N)]. *)
Lemma vectorized_count (N : nat) (g : RNG) :
  let b1 := rvs_n radius_dist N g in
  let b2 := rvs_n W_dist N (snd b1) in
  let b3 := rvs_n yield_dist N (snd b2) in
  fst (run_simulation_vectorized RNG rvs_n N g)
  = div (of_int (count_failures
                   (map trial_of_sample
                      (combine (combine (fst b1) (fst b2)) (fst b3)))))
        (of_int (Z.of_nat N)).
Proof.
  cbv zeta. unfold run_simulation_vectorized.
  destruct (rvs_n radius_dist N g) as [radius g1]. cbn [fst snd].
  destruct (rvs_n W_dist N g1) as [W g2]. cbn [fst snd].
  destruct (rvs_n yield_dist N g2) as [ys g3]. cbn [fst snd].
  now rewrite count_failures_map, vector_trials.
Qed.

(** When every batch holds as many draws as were asked for, that count
    is at most N. *)
Lemma vectorized_count_bounds (N : nat) (g : RNG) :
  (forall (d : norm T) (n : nat) (g0 : RNG),
      length (fst (rvs_n d n g0)) = n) ->
  let b1 := rvs_n radius_dist N g in
  let b2 := rvs_n W_dist N (snd b1) in
  let b3 := rvs_n yield_dist N (snd b2) in
  (0 <= count_failures
          (map trial_of_sample
             (combine (combine (fst b1) (fst b2)) (fst b3)))
   <= Z.of_nat N)%Z.
Proof.
  intros Hlen. cbv zeta.
  match goal with |- (0 <= count_failures ?l <= _)%Z =>
    pose proof (count_failures_bounds l) as Hb;
    assert (Hl : length l = N)
  end.
  { rewrite length_map, !length_combine, !Hlen. lia. }
  rewrite Hl in Hb. exact Hb.
Qed.

End VectorizedFacts.

Lemma replay_rvs_n_length {T : Type} (d : norm T) (n : nat) :
  forall t : list T, length (fst (replay_rvs_n d n t)) = n.
Proof.
  induction n as [|n IH]; intros t; simpl; [reflexivity|].
  destruct (replay_rvs d t) as [z t1]. specialize (IH t1).
  destruct (replay_rvs_n d n t1) as [zs t2]. simpl in *. now rewrite IH.
Qed.

(** X9. When [d.rvs(n)] returns n draws, the estimate of the
    vectorized cell lies in [[0, 1]] for every N >= 1: over the reals,
    and in binary64 for every N below 2^53. *)
Theorem vectorized_bounds :
  forall N : nat,
    (1 <= N)%nat ->
    (forall (RNG : Type) (rvs_n : norm R -> nat -> RNG -> list R * RNG)
            (g : RNG),
        (forall (d : norm R) (n : nat) (g0 : RNG),
            length (fst (rvs_n d n g0)) = n) ->
        (0 <= fst (run_simulation_vectorized RNG rvs_n N g) <= 1)%R)
    /\ ((Z.of_nat N < 2 ^ 53)%Z ->
        forall (RNG : Type)
               (rvs_n : norm float -> nat -> RNG -> list float * RNG)
               (g : RNG),
          (forall (d : norm float) (n : nat) (g0 : RNG),
              length (fst (rvs_n d n g0)) = n) ->
          let p := fst (run_simulation_vectorized RNG rvs_n N g) in
          PrimFloat.leb 0%float p = true /\ PrimFloat.leb p 1%float = true).
Proof.
  intros N HN. split.
  - intros RNG rvs_n g Hlen. rewrite vectorized_count.
    pose proof (vectorized_count_bounds RNG rvs_n N g Hlen) as Hb.
    cbv zeta in Hb. cbn [of_int div ideal].
    set (k := count_failures _) in *.
    assert (HNpos : (0 < IZR (Z.of_nat N))%R) by (apply IZR_lt; lia).
    assert (Hk0 : (0 <= IZR k)%R) by (apply IZR_le; lia).
    assert (HkN : (IZR k <= IZR (Z.of_nat N))%R) by (apply IZR_le; lia).
    split.
    + apply Rmult_le_pos; [assumption|].
      left. now apply Rinv_0_lt_compat.
    + apply (Rmult_le_reg_r (IZR (Z.of_nat N))); [assumption|].
      unfold Rdiv. rewrite Rmult_assoc, Rinv_l by lra. lra.
  - intros H53 RNG rvs_n g Hlen. cbv zeta. rewrite vectorized_count.
    pose proof (vectorized_count_bounds RNG rvs_n N g Hlen) as Hb.
    cbv zeta in Hb. cbn [of_int div binary64].
    apply binary64_ratio; lia.
Qed.

(** Two trials, batch by batch. *)
Lemma vectorized_bounds_witness :
  PrimFloat.leb 0%float
    (fst (run_simulation_vectorized (list float) replay_rvs_n 2
            [60; 90; 4; 4; 200; 200]%float)) = true
  /\ PrimFloat.leb
       (fst (run_simulation_vectorized (list float) replay_rvs_n 2
               [60; 90; 4; 4; 200; 200]%float)) 1%float = true.
Proof.
  apply (proj2 (vectorized_bounds 2 (le_S 1 1 (le_n 1)))).
  - reflexivity.
  - intros d n g0. apply replay_rvs_n_length.
Defined.

(** X10. Run with N = 0, the vectorized cell raises nothing: its three
    batches are empty, the count is 0 and NumPy's quotient of 0 by 0.0
    is NaN.  (The loop cell raises [ZeroDivisionError] there.) *)
Theorem vectorized_zero_trials_nan :
  forall (RNG : Type)
         (rvs_n : norm float -> nat -> RNG -> list float * RNG) (g : RNG),
    (forall (d : norm float) (n : nat) (g0 : RNG),
        length (fst (rvs_n d n g0)) = n) ->
    PrimFloat.is_nan (fst (run_simulation_vectorized RNG rvs_n 0 g)) = true.
Proof.
  intros RNG rvs_n g Hlen. rewrite vectorized_count.
  pose proof (Hlen radius_dist 0%nat g) as H1.
  destruct (fst (rvs_n radius_dist 0%nat g)); [|discriminate H1].
  reflexivity.
Qed.

(** The replaying generator returns as many draws as asked for. *)
Lemma vectorized_zero_trials_nan_witness :
  PrimFloat.is_nan
    (fst (run_simulation_vectorized (list float) replay_rvs_n 0
            [60; 4; 200]%float)) = true.
Proof.
  apply vectorized_zero_trials_nan.
  intros d n g0. apply replay_rvs_n_length.
Defined.

(** ** The sampling cells of the integration notebook *)

(** X11. The first sampling cell raises [ZeroDivisionError] when run
    with N = 0 (the accumulator is still the integer 0), and for
    1 <= N < 2^53 it raises nothing and returns
    [4 * accum / float(N)]. *)
Theorem first_monte_carlo_raises :
  forall N : nat,
    (Z.of_nat N < 2 ^ 53)%Z ->
    forall (RNG : Type) (uniform : float -> float -> RNG -> float * RNG)
           (pow : float -> Z -> float) (g : RNG),
      (N = 0%nat ->
       fst (first_monte_carlo RNG uniform pow N g) = Raise ZeroDivisionError)
      /\ ((1 <= N)%nat ->
          fst (first_monte_carlo RNG uniform pow N g)
          = Ok (4 * accumulate
                      (map (integrand_1 pow)
                         (fst (draws RNG uniform 1 5 N g)))
                / float_of_Z (Z.of_nat N))%float).
Proof.
  intros N H53 RNG uniform pow g. rewrite first_monte_carlo_eq.
  unfold py_truediv. cbn [of_int mul div is_zero binary64].
  split.
  - intros ->. reflexivity.
  - intros HN.
    destruct (binary64_ratio 0 (Z.of_nat N)) as (Hz & _); [lia|lia|].
    rewrite Hz. reflexivity.
Qed.

(** No sample at all. *)
Lemma first_monte_carlo_raises_witness :
  fst (first_monte_carlo (list float) replay_uniform
         (fun x _ => x * x)%float 0 [2; 3]%float)
  = Raise ZeroDivisionError.
Proof.
  apply (first_monte_carlo_raises 0 eq_refl (list float) replay_uniform
           (fun x _ => x * x)%float [2; 3]%float).
  reflexivity.
Defined.

(** ** binary64: multiplying by 1.0 *)

Section Binary64One.
Local Open Scope Z_scope.

(** Multiplying a finite binary64 number by 1.0 is exact, subnormal
    numbers included. *)
Lemma mul_one_finite (s : bool) (m : positive) (e : Z) :
  valid_binary (S754_finite s m e) = true ->
  SFmul prec emax (S754_finite false 4503599627370496 (-52))
    (S754_finite s m e)
  = S754_finite s m e.
Proof.
  intros Hv.
  unfold SpecFloat.valid_binary, SpecFloat.bounded, canonical_mantissa in Hv.
  apply andb_prop in Hv. destruct Hv as [Hc Hb].
  apply Z.eqb_eq in Hc. apply Z.leb_le in Hb.
  unfold SFmul. cbn [xorb Pos.mul].
  match goal with
  | |- binary_round_aux _ _ _ (Zpos ?big) _ _ = _ => set (b := big)
  end.
  assert (Hd : Zpos (digits2_pos b) = Zpos (digits2_pos m) + 52).
  { subst b. cbn [digits2_pos]. rewrite !Pos2Z.inj_succ. lia. }
  unfold binary_round_aux, shr_fexp at 1.
  change (Zdigits2 (Zpos b)) with (Zpos (digits2_pos b)).
  rewrite Hd.
  replace (Zpos (digits2_pos m) + 52 + (-52 + e)) with (Zpos (digits2_pos m) + e)
    by lia.
  rewrite Hc.
  replace (e - (-52 + e)) with 52 by lia.
  unfold shr. subst b.
  cbn [shr_record_of_loc SpecFloat.iter_pos shr_1 orb shr_m
       loc_of_shr_record round_nearest_even].
  unfold shr_fexp.
  change (Zdigits2 (Zpos m)) with (Zpos (digits2_pos m)).
  replace (-52 + e + 52) with e by lia.
  rewrite Hc, Z.sub_diag. cbn [shr shr_record_of_loc shr_m].
  replace (e <=? emax - prec) with true
    by (symmetry; apply Z.leb_le; lia).
  reflexivity.
Qed.

Lemma mul_one_l (a : float) : (1 * a)%float = a.
Proof.
  apply Prim2SF_inj. rewrite mul_spec.
  change (Prim2SF 1%float)
    with (S754_finite false 4503599627370496%positive (-52)).
  pose proof (Prim2SF_valid a) as Hv.
  destruct (Prim2SF a) as [s|s| |s m e]; try reflexivity.
  unfold SF64mul. now apply mul_one_finite.
Qed.

End Binary64One.

(** X12. In the second sampling cell the measure [3 - 2] is 1, and
    multiplying by it changes nothing, in binary64 bit for bit: for
    N >= 1 the cell returns the plain sample mean [accum / float(N)]. *)
Theorem second_monte_carlo_mean :
  forall N : nat,
    (1 <= N)%nat ->
    (forall (RNG : Type) (uniform : float -> float -> RNG -> float * RNG)
            (pow : float -> Z -> float) (numpy_sin : float -> float)
            (g : RNG),
        fst (second_monte_carlo RNG uniform pow numpy_sin N g)
        = Ok (accumulate
                (map (integrand_2 pow numpy_sin)
                   (fst (draws RNG uniform 2 3 N g)))
              / float_of_Z (Z.of_nat N))%float)
    /\ (forall (RNG : Type) (uniform : R -> R -> RNG -> R * RNG)
               (pow : R -> Z -> R) (numpy_sin : R -> R) (g : RNG),
        fst (second_monte_carlo RNG uniform pow numpy_sin N g)
        = Ok (accumulate
                (map (integrand_2 pow numpy_sin)
                   (fst (draws RNG uniform 2 3 N g)))
              / IZR (Z.of_nat N))%R).
Proof.
  intros N HN. split; intros RNG uniform pow numpy_sin g;
    rewrite second_monte_carlo_pos by exact HN;
    cbn [of_int mul div binary64 ideal].
  - change (float_of_Z (3 - 2)) with 1%float. now rewrite mul_one_l.
  - simpl (3 - 2)%Z. now rewrite Rmult_1_l.
Qed.

(** Two samples. *)
Lemma second_monte_carlo_mean_witness :
  fst (second_monte_carlo (list float) replay_uniform
         (fun x _ => x * x)%float (fun x => x) 2 [2; 2.5]%float)
  = Ok (accumulate
          (map (integrand_2 (fun x _ => x * x)%float (fun x => x))
             (fst (draws (list float) replay_uniform 2 3 2 [2; 2.5]%float)))
        / float_of_Z (Z.of_nat 2))%float.
Proof.
  apply (proj1 (second_monte_carlo_mean 2 (le_S 1 1 (le_n 1)))).
Defined.

(** X18. The second and third sampling cells raise
    [ZeroDivisionError] when run with N = 0: no pass of the loop has
    made [accum] a NumPy scalar, so [measure * accum] is the integer 0
    and its division by [float(0)] is Python's.  With one sample or more
    the division is NumPy's and the cells raise nothing. *)
Theorem sampling_cells_no_sample :
  forall (RNG : Type) (uniform : float -> float -> RNG -> float * RNG)
         (pow : float -> Z -> float) (numpy_sin numpy_cos : float -> float)
         (g : RNG),
    fst (second_monte_carlo RNG uniform pow numpy_sin 0 g)
    = Raise ZeroDivisionError
    /\ fst (third_monte_carlo RNG uniform pow numpy_cos 0 g)
       = Raise ZeroDivisionError
    /\ (forall N : nat,
          (1 <= N)%nat ->
          (exists v : float,
              fst (second_monte_carlo RNG uniform pow numpy_sin N g) = Ok v)
          /\ (exists v : float,
                 fst (third_monte_carlo RNG uniform pow numpy_cos N g)
                 = Ok v)).
Proof.
  intros RNG uniform pow numpy_sin numpy_cos g.
  split; [reflexivity|split; [reflexivity|]].
  intros N HN. split.
  - rewrite second_monte_carlo_pos by exact HN. eexists. reflexivity.
  - rewrite third_monte_carlo_pos by exact HN. eexists. reflexivity.
Qed.

(** ** The sampling cells over the reals *)

Section SamplingFacts.
Local Open Scope R_scope.

Lemma fold_left_Rplus (l : list R) (acc : R) :
  fold_left Rplus l acc = acc + fold_left Rplus l 0.
Proof.
  revert acc; induction l as [|v l IH]; intros acc; simpl.
  - ring.
  - rewrite (IH (acc + v)), (IH (0 + v)). ring.
Qed.

Lemma accumulate_cons (v : R) (l : list R) :
  accumulate (v :: l) = v + accumulate l.
Proof.
  unfold accumulate. simpl. rewrite fold_left_Rplus. ring.
Qed.

(** The sum of values between [lo] and [hi] lies between [n * lo] and
    [n * hi]. *)
Lemma accumulate_bounds (lo hi : R) (l : list R) :
  (forall v, In v l -> lo <= v <= hi) ->
  INR (length l) * lo <= accumulate l <= INR (length l) * hi.
Proof.
  induction l as [|v l IH]; intros Hl.
  - unfold accumulate. simpl. lra.
  - rewrite accumulate_cons. cbn [length]. rewrite S_INR.
    destruct (Hl v (or_introl eq_refl)) as [H1 H2].
    destruct IH as [I1 I2]; [intros u Hu; apply Hl; now right|]. lra.
Qed.

Lemma accumulate_perm (l l' : list R) :
  Permutation l l' -> accumulate l = accumulate l'.
Proof.
  induction 1 as [|v l l' _ IH|u v l|l l' l'' _ IH1 _ IH2].
  - reflexivity.
  - rewrite !accumulate_cons, IH. reflexivity.
  - rewrite !accumulate_cons. ring.
  - congruence.
Qed.

(** The mean of [n >= 1] values between [lo] and [hi], scaled by a
    non-negative measure. *)
Lemma scaled_mean_bounds (c lo hi : R) (l : list R) (n : nat) :
  (1 <= n)%nat -> length l = n -> 0 <= c ->
  (forall v, In v l -> lo <= v <= hi) ->
  c * lo <= c * accumulate l / IZR (Z.of_nat n) <= c * hi.
Proof.
  intros Hn Hlen Hc Hl.
  pose proof (accumulate_bounds lo hi l Hl) as [A1 A2].
  rewrite Hlen in A1, A2. rewrite <- INR_IZR_INZ.
  assert (Hpos : 0 < INR n) by (apply lt_0_INR; lia).
  assert (M : lo <= accumulate l * / INR n <= hi).
  { split; apply (Rmult_le_reg_r (INR n)); try exact Hpos;
      replace (accumulate l * / INR n * INR n) with (accumulate l)
        by (field; lra); lra. }
  unfold Rdiv. rewrite Rmult_assoc.
  split; apply Rmult_le_compat_l; lra.
Qed.

Variable RNG : Type.
Variable uniform : R -> R -> RNG -> R * RNG.

Lemma draws_length (a b : R) (N : nat) :
  forall g : RNG, length (fst (draws RNG uniform a b N g)) = N.
Proof.
  induction N as [|N IH]; intros g; simpl; [reflexivity|].
  destruct (uniform a b g) as [x g1]. specialize (IH g1).
  destruct (draws RNG uniform a b N g1) as [rest g2]. simpl in *.
  now rewrite IH.
Qed.

Lemma draws_range (a b : R) (N : nat) :
  (forall g : RNG, a <= fst (uniform a b g) <= b) ->
  forall (g : RNG) (x : R),
    In x (fst (draws RNG uniform a b N g)) -> a <= x <= b.
Proof.
  intros Hu. induction N as [|N IH]; intros g x; simpl; [tauto|].
  pose proof (Hu g) as H1.
  destruct (uniform a b g) as [x0 g1]. specialize (IH g1 x).
  destruct (draws RNG uniform a b N g1) as [rest g2]. simpl in *.
  intros [<-|Hin]; [exact H1|now apply IH].
Qed.

Lemma draws2_length (ax bx ay by_ : R) (N : nat) :
  forall g : RNG,
    length (fst (draws2 RNG uniform ax bx ay by_ N g)) = N.
Proof.
  induction N as [|N IH]; intros g; simpl; [reflexivity|].
  destruct (uniform ax bx g) as [x g1].
  destruct (uniform ay by_ g1) as [y g2]. specialize (IH g2).
  destruct (draws2 RNG uniform ax bx ay by_ N g2) as [rest g3]. simpl in *.
  now rewrite IH.
Qed.

Lemma draws2_range (ax bx ay by_ : R) (N : nat) :
  (forall g : RNG, ax <= fst (uniform ax bx g) <= bx) ->
  (forall g : RNG, ay <= fst (uniform ay by_ g) <= by_) ->
  forall (g : RNG) (xy : R * R),
    In xy (fst (draws2 RNG uniform ax bx ay by_ N g)) ->
    ax <= fst xy <= bx /\ ay <= snd xy <= by_.
Proof.
  intros Hx Hy. induction N as [|N IH]; intros g xy; simpl; [tauto|].
  pose proof (Hx g) as H1.
  destruct (uniform ax bx g) as [x g1].
  pose proof (Hy g1) as H2.
  destruct (uniform ay by_ g1) as [y g2]. specialize (IH g2 xy).
  destruct (draws2 RNG uniform ax bx ay by_ N g2) as [rest g3]. simpl in *.
  intros [<-|Hin]; [split; assumption|now apply IH].
Qed.

End SamplingFacts.

Lemma in_map_range {A : Type} (f : A -> R) (P : A -> Prop) (lo hi : R)
  (l : list A) :
  (forall a, In a l -> P a) ->
  (forall a, P a -> (lo <= f a <= hi)%R) ->
  forall v, In v (map f l) -> (lo <= v <= hi)%R.
Proof.
  intros Hl Hf v Hv. apply in_map_iff in Hv. destruct Hv as (a & <- & Ha).
  apply Hf, Hl, Ha.
Qed.

Lemma sin_range_2_3 (x : R) : (2 <= x <= 3)%R -> (0 <= sin x <= 1)%R.
Proof.
  intros Hx. split.
  - apply sin_ge_0; [lra|]. pose proof PI2_3_2. unfold PI2 in *. lra.
  - pose proof (SIN_bound x). lra.
Qed.

(** X13. Over the reals, with a sampler that answers within the
    bounds it is given, and N >= 1: the first estimate lies in
    [[4, 100]], the second in [[4, 21]] and the 2D estimate in
    [[-2, 8]], the measure times the range of the integrand over the
    sampled region. *)
Theorem estimate_ranges :
  forall N : nat,
    (1 <= N)%nat ->
    forall (RNG : Type) (uniform : R -> R -> RNG -> R * RNG) (g : RNG),
      (forall (a b : R) (g0 : RNG),
          (a <= b)%R -> (a <= fst (uniform a b g0) <= b)%R) ->
      (exists v : R,
          fst (first_monte_carlo RNG uniform real_pow N g) = Ok v
          /\ (4 <= v <= 100)%R)
      /\ (exists v : R,
             fst (second_monte_carlo RNG uniform real_pow sin N g) = Ok v
             /\ (4 <= v <= 21)%R)
      /\ (exists v : R,
             fst (third_monte_carlo RNG uniform real_pow cos N g) = Ok v
             /\ (-2 <= v <= 8)%R).
Proof.
  intros N HN RNG uniform g Hu.
  assert (HNZ : (0 < IZR (Z.of_nat N))%R) by (apply IZR_lt; lia).
  split; [|split].
  - rewrite first_monte_carlo_eq. unfold py_truediv.
    cbn [of_int mul div is_zero ideal]. rewrite Rzerob_false by lra.
    eexists. split; [reflexivity|].
    replace 4%R with (IZR (5 - 1) * 1)%R at 1 by (simpl; lra).
    replace 100%R with (IZR (5 - 1) * 25)%R by (simpl; lra).
    apply scaled_mean_bounds; [exact HN| |simpl; lra|].
    + now rewrite length_map, draws_length.
    + apply (in_map_range _ (fun x => 1 <= x <= 5)%R).
      * apply draws_range. intros g0. apply Hu. lra.
      * intros x Hx. unfold integrand_1, real_pow. simpl. nra.
  - rewrite second_monte_carlo_pos by exact HN. cbn [of_int mul div ideal].
    eexists. split; [reflexivity|].
    replace 4%R with (IZR (3 - 2) * 4)%R at 1 by (simpl; lra).
    replace 21%R with (IZR (3 - 2) * 21)%R by (simpl; lra).
    apply scaled_mean_bounds; [exact HN| |simpl; lra|].
    + now rewrite length_map, draws_length.
    + apply (in_map_range _ (fun x => 2 <= x <= 3)%R).
      * apply draws_range. intros g0. apply Hu. lra.
      * intros x Hx. unfold integrand_2, real_pow.
        cbn [of_int add mul ideal]. simpl powerRZ.
        pose proof (sin_range_2_3 x Hx). nra.
  - rewrite third_monte_carlo_pos by exact HN. cbn [of_int mul div ideal].
    eexists. split; [reflexivity|].
    replace (-2)%R with (IZR (2 * 1) * -1)%R at 1 by (simpl; lra).
    replace 8%R with (IZR (2 * 1) * 4)%R by (simpl; lra).
    apply scaled_mean_bounds; [exact HN| |simpl; lra|].
    + now rewrite length_map, draws2_length.
    + apply (in_map_range _
               (fun xy => (4 <= fst xy <= 6) /\ (0 <= snd xy <= 1))%R).
      * apply draws2_range; intros g0; apply Hu; lra.
      * intros [x y] [Hx Hy]. cbn [fst snd] in *.
        unfold integrand_3, real_pow.
        cbn [of_int add mul ideal].
        pose proof (COS_bound (powerRZ x 4)). nra.
Qed.

(** A sampler that always answers the midpoint of its bounds. *)
Lemma estimate_ranges_witness :
  (exists v : R,
      fst (first_monte_carlo unit (fun a b g => ((a + b) / 2, g))%R
             real_pow 1 tt) = Ok v
      /\ (4 <= v <= 100)%R)
  /\ (exists v : R,
         fst (second_monte_carlo unit (fun a b g => ((a + b) / 2, g))%R
                real_pow sin 1 tt) = Ok v
         /\ (4 <= v <= 21)%R)
  /\ (exists v : R,
         fst (third_monte_carlo unit (fun a b g => ((a + b) / 2, g))%R
                real_pow cos 1 tt) = Ok v
         /\ (-2 <= v <= 8)%R).
Proof.
  apply (estimate_ranges 1 (le_n 1) unit
           (fun a b g => ((a + b) / 2, g))%R tt).
  intros a b g0 Hab. simpl. lra.
Defined.

(** X14. Over the reals the three estimates depend on the multiset of
    the draws only: two runs whose draws are a permutation of one
    another return the same estimate.  In binary64 they do not: the
    running sum rounds at every step, and the first cell returns
    different estimates on the draws 1.5, 2.5, 1.3 and 1.5, 1.3, 2.5. *)
Theorem sampling_order :
  (forall (RNG : Type) (uniform : R -> R -> RNG -> R * RNG)
          (pow : R -> Z -> R) (numpy_sin numpy_cos : R -> R)
          (N : nat) (g g' : RNG),
      (Permutation (fst (draws RNG uniform 1 5 N g))
                   (fst (draws RNG uniform 1 5 N g')) ->
       fst (first_monte_carlo RNG uniform pow N g)
       = fst (first_monte_carlo RNG uniform pow N g'))
      /\ (Permutation (fst (draws RNG uniform 2 3 N g))
                      (fst (draws RNG uniform 2 3 N g')) ->
          fst (second_monte_carlo RNG uniform pow numpy_sin N g)
          = fst (second_monte_carlo RNG uniform pow numpy_sin N g'))
      /\ (Permutation (fst (draws2 RNG uniform 4 6 0 1 N g))
                      (fst (draws2 RNG uniform 4 6 0 1 N g')) ->
          fst (third_monte_carlo RNG uniform pow numpy_cos N g)
          = fst (third_monte_carlo RNG uniform pow numpy_cos N g')))%R
  /\ (Permutation [1.5; 2.5; 1.3]%float [1.5; 1.3; 2.5]%float
      /\ fst (first_monte_carlo (list float) replay_uniform
                (fun x _ => x * x)%float 3 [1.5; 2.5; 1.3]%float)
         <> fst (first_monte_carlo (list float) replay_uniform
                   (fun x _ => x * x)%float 3 [1.5; 1.3; 2.5]%float)).
Proof.
  split.
  - intros RNG uniform pow numpy_sin numpy_cos N g g'.
    rewrite !first_monte_carlo_eq, !second_monte_carlo_eq,
      !third_monte_carlo_eq.
    cbn [of_int ideal].
    split; [|split]; intros HP; destruct N; try reflexivity;
      match goal with
      | |- context [accumulate (map ?f ?l)] =>
          rewrite (accumulate_perm (map f l) _ (Permutation_map f HP))
      end; reflexivity.
  - split.
    + apply perm_skip, perm_swap.
    + vm_compute. discriminate.
Qed.

(** Two draws, in either order. *)
Lemma sampling_order_witness :
  fst (first_monte_carlo (list R) replay_uniform real_pow 2 [2; 3]%R)
  = fst (first_monte_carlo (list R) replay_uniform real_pow 2 [3; 2]%R).
Proof.
  apply (proj1 (proj1 sampling_order (list R) replay_uniform real_pow
                  sin cos 2%nat [2; 3]%R [3; 2]%R)).
  apply perm_swap.
Defined.

(** ** The analytical cells as integrals *)

Section IntegralFacts.
Local Open Scope R_scope.

(** For a continuous integrand, what the analytical cells compute from
    any antiderivative, [F b - F a], is the Riemann integral. *)
Lemma antiderivative_integral (f F : R -> R) (a b : R) :
  a < b ->
  (forall x, a <= x <= b -> continuity_pt f x) ->
  antiderivative_on f F a b ->
  forall pr : Riemann_integrable f a b, RiemannInt pr = F b - F a.
Proof.
  intros Hab C0 HF pr.
  assert (h : a <= b) by lra.
  assert (HP : antiderivative_on f (primitive h (FTC_P1 h C0)) a b).
  { intros x Hx. exact (@RiemannInt_P28 f a b x h C0 Hx). }
  rewrite (antiderivative_unique f F _ a b Hab HF HP).
  unfold primitive.
  destruct (Rle_dec a b) as [r1|]; [|lra].
  destruct (Rle_dec b b) as [r2|]; [|lra].
  destruct (Rle_dec a a) as [r3|]; [|lra].
  rewrite (RiemannInt_P9 (FTC_P1 h C0 r3 r1)).
  rewrite (RiemannInt_P5 pr (FTC_P1 h C0 r1 r2)). ring.
Qed.

Lemma expr_1_continuity (x : R) : continuity_pt expr_1 x.
Proof.
  apply derivable_continuous_pt. exists (INR 2 * x ^ pred 2 * 1).
  unfold expr_1. apply D_pow, D_id.
Qed.

Lemma expr_2_continuity (x : R) : continuity_pt expr_2 x.
Proof.
  apply derivable_continuous_pt. eexists.
  unfold derivable_pt_abs, expr_2. repeat derive_step.
Qed.

Lemma expr_3_continuity (y x : R) : continuity_pt (fun t => expr_3 t y) x.
Proof.
  apply derivable_continuous_pt. eexists.
  unfold derivable_pt_abs, expr_3. repeat derive_step.
Qed.

End IntegralFacts.

(** X15. Whatever antiderivative of x^2 SymPy returns, the first
    analytical cell computes the Riemann integral of x^2 from 1 to 5. *)
Theorem first_analytical_integral :
  forall integrate : (R -> R) -> R -> R,
    antiderivative_on expr_1 (integrate expr_1) 1 5 ->
    forall pr : Riemann_integrable expr_1 1 5,
      first_analytical integrate = RiemannInt pr.
Proof.
  intros integrate H1 pr. unfold first_analytical.
  rewrite (antiderivative_integral expr_1 (integrate expr_1) 1 5);
    [reflexivity|lra| |exact H1].
  intros x _. apply expr_1_continuity.
Qed.

(** x^2 is integrable: it is continuous. *)
Lemma Riemann_integrable_expr_1 : Riemann_integrable expr_1 1 5.
Proof.
  apply continuity_implies_RiemannInt; [lra|].
  intros x _. apply expr_1_continuity.
Qed.

(** The antiderivative x^3 / 3. *)
Lemma first_analytical_integral_witness :
  first_analytical (fun _ x => x ^ 3 / 3)%R
  = RiemannInt Riemann_integrable_expr_1.
Proof.
  apply (first_analytical_integral (fun _ x => x ^ 3 / 3)%R).
  intros x _. apply derivable_pt_lim_cube.
Defined.

(** X16. Whatever antiderivative SymPy returns, the second analytical
    cell computes the Riemann integral of x^2 + 4 x sin x from 2 to 3,
    which is the opposite of the integral from 3 to 2 that the
    notebook's text announces. *)
Theorem second_analytical_integral :
  forall integrate : (R -> R) -> R -> R,
    antiderivative_on expr_2 (integrate expr_2) 2 3 ->
    (forall pr : Riemann_integrable expr_2 2 3,
        second_analytical integrate = RiemannInt pr)
    /\ (forall pr : Riemann_integrable expr_2 3 2,
        second_analytical integrate = (- RiemannInt pr)%R).
Proof.
  intros integrate H2.
  assert (I2 : forall pr : Riemann_integrable expr_2 2 3,
             second_analytical integrate = RiemannInt pr).
  { intros pr. unfold second_analytical.
    rewrite (antiderivative_integral expr_2 (integrate expr_2) 2 3);
      [reflexivity|lra| |exact H2].
    intros x _. apply expr_2_continuity. }
  split; [exact I2|].
  intros pr.
  assert (pr' : Riemann_integrable expr_2 2 3)
    by (apply RiemannInt_P1; exact pr).
  rewrite (I2 pr'). apply RiemannInt_P8.
Qed.

(** The antiderivative x^3 / 3 + 4 sin x - 4 x cos x. *)
Lemma second_analytical_integral_witness :
  (forall pr : Riemann_integrable expr_2 2 3,
      second_analytical (fun _ => primitive_2) = RiemannInt pr)
  /\ (forall pr : Riemann_integrable expr_2 3 2,
      second_analytical (fun _ => primitive_2) = (- RiemannInt pr)%R).
Proof.
  apply (second_analytical_integral (fun _ => primitive_2)).
  intros x _. apply primitive_2_derivative.
Defined.

Section IteratedIntegral.
Local Open Scope R_scope.

(** The inner integral of the 2D integrand, for every [y]. *)
Lemma inner_integral (y : R)
  (pr : Riemann_integrable (fun x => expr_3 x y) 4 6) :
  RiemannInt pr
  = primitive le_4_6 (FTC_P1 le_4_6 cos4_continuity) 6
    - primitive le_4_6 (FTC_P1 le_4_6 cos4_continuity) 4 + 6 * y ^ 2.
Proof.
  rewrite (antiderivative_integral (fun x => expr_3 x y)
             (fun x => primitive le_4_6 (FTC_P1 le_4_6 cos4_continuity) x
                       + 3 * y ^ 2 * x) 4 6).
  - ring.
  - lra.
  - intros x _. apply expr_3_continuity.
  - intros x Hx. eapply D_eq.
    + apply D_plus; [apply cos4_primitive_derivative; exact Hx|].
      apply D_mult; [apply D_const|apply D_id].
    + unfold expr_3. ring.
Qed.

End IteratedIntegral.

(** X17. Whatever antiderivatives SymPy returns, the 2D analytical
    cell computes the iterated Riemann integral: the integral over y
    in [[0, 1]] of the integral over x in [[4, 6]] of
    cos(x^4) + 3 y^2. *)
Theorem third_analytical_integral :
  forall (integrate : (R -> R) -> R -> R)
         (integrate_x : (R -> R -> R) -> R -> R -> R),
    let d1 := integrate_x expr_3 in
    let d2 := integrate (fun y => d1 6 y - d1 4 y)%R in
    (forall y : R, (0 <= y <= 1)%R ->
       antiderivative_on (fun x => expr_3 x y) (fun x => d1 x y) 4 6) ->
    antiderivative_on (fun y => d1 6 y - d1 4 y)%R d2 0 1 ->
    forall (inner : forall y : R,
               Riemann_integrable (fun x => expr_3 x y) 4 6)
           (outer : Riemann_integrable (fun y => RiemannInt (inner y)) 0 1),
      third_analytical integrate integrate_x = RiemannInt outer.
Proof.
  intros integrate integrate_x d1 d2 H1 H2 inner outer.
  set (K := (primitive le_4_6 (FTC_P1 le_4_6 cos4_continuity) 6
             - primitive le_4_6 (FTC_P1 le_4_6 cos4_continuity) 4)%R).
  assert (Hf : forall y : R, RiemannInt (inner y) = (K + 6 * y ^ 2)%R)
    by (intros y; apply inner_integral).
  rewrite (antiderivative_integral (fun y => RiemannInt (inner y))
             (fun y => K * y + 2 * y ^ 3)%R 0 1).
  - unfold third_analytical. fold d1. fold d2.
    rewrite (third_outer d1 d2 H1 H2).
    assert (E : (d1 6 0 - d1 4 0 = K)%R).
    { rewrite <- (antiderivative_integral (fun x => expr_3 x 0)
                    (fun x => d1 x 0%R) 4 6) with (pr := inner 0%R).
      - rewrite Hf. ring.
      - lra.
      - intros x _. apply expr_3_continuity.
      - apply H1. lra. }
    rewrite E. ring.
  - lra.
  - intros y _.
    apply (continuity_pt_locally_ext (fun z => K + 6 * z ^ 2)%R _ 1 y).
    + lra.
    + intros z _. symmetry. apply Hf.
    + apply derivable_continuous_pt. eexists. unfold derivable_pt_abs.
      repeat derive_step.
  - intros y _. rewrite Hf. eapply D_eq.
    + apply D_plus.
      * apply D_mult; [apply D_const|apply D_id].
      * apply D_mult; [apply D_const|apply D_pow, D_id].
    + simpl. ring.
Qed.

(** The two integrals exist: the integrands are continuous. *)
Lemma expr_3_integrable (y : R) :
  Riemann_integrable (fun x => expr_3 x y) 4 6.
Proof.
  apply continuity_implies_RiemannInt; [lra|].
  intros x _. apply expr_3_continuity.
Qed.

Lemma expr_3_inner_integrable :
  Riemann_integrable (fun y => RiemannInt (expr_3_integrable y)) 0 1.
Proof.
  apply continuity_implies_RiemannInt; [lra|].
  intros y _.
  apply (continuity_pt_locally_ext
           (fun z => primitive le_4_6 (FTC_P1 le_4_6 cos4_continuity) 6
                     - primitive le_4_6 (FTC_P1 le_4_6 cos4_continuity) 4
                     + 6 * z ^ 2)%R _ 1 y).
  - lra.
  - intros z _. symmetry. apply inner_integral.
  - apply derivable_continuous_pt. eexists. unfold derivable_pt_abs.
    repeat derive_step.
Qed.

(** The antiderivatives built from the integral of cos(x^4). *)
Lemma third_analytical_integral_witness :
  third_analytical
    (fun _ y =>
       (primitive le_4_6 (FTC_P1 le_4_6 cos4_continuity) 6
        - primitive le_4_6 (FTC_P1 le_4_6 cos4_continuity) 4) * y
       + 2 * y ^ 3)%R
    (fun _ x y =>
       primitive le_4_6 (FTC_P1 le_4_6 cos4_continuity) x
       + 3 * y ^ 2 * x)%R
  = RiemannInt expr_3_inner_integrable.
Proof.
  apply (third_analytical_integral
           (fun _ y =>
              (primitive le_4_6 (FTC_P1 le_4_6 cos4_continuity) 6
               - primitive le_4_6 (FTC_P1 le_4_6 cos4_continuity) 4) * y
              + 2 * y ^ 3)%R
           (fun _ x y =>
              primitive le_4_6 (FTC_P1 le_4_6 cos4_continuity) x
              + 3 * y ^ 2 * x)%R).
  - intros y _ x Hx. eapply D_eq.
    + apply D_plus; [apply cos4_primitive_derivative; exact Hx|].
      apply D_mult; [apply D_const|apply D_id].
    + unfold expr_3. ring.
  - intros y _. eapply D_eq.
    + apply D_plus.
      * apply D_mult; [apply D_const|apply D_id].
      * apply D_mult; [apply D_const|apply D_pow, D_id].
    + simpl. ring.
Defined.
